(** * EventFinder: the agenda engine of [src/App.js]

    A shallow embedding of the agenda state of the [EventFinderEnhanced]
    component: the date helper [parseDate], the agenda operations
    ([saveEvent], [updateSavedEvent], [removeEvent], [markAsAttended],
    [importAgenda]), the reminder effect and the calendar grouping, followed
    by the properties proved about them.

    Conventions.  A JavaScript string is a [string], one [ascii] per code
    unit (code units below 256).  A JavaScript number that may be [NaN] is an
    [option Z] with [None] for [NaN]; [null] and [undefined] are [None] of
    the value's option type.  An array is a [list]; an object used as a
    dictionary is an association list in property creation order.  Time is
    the time value of the clock, in milliseconds; the timeouts of the window
    run when time passes ([elapse]), an operation reads the clock it is
    given. *)

From Stdlib Require Import ZArith String Ascii.
From stdpp Require Import gmap strings list fin_maps sorting.

Local Open Scope string_scope.
Local Open Scope list_scope.
Local Open Scope Z_scope.

(** ** The builtins the component calls *)

Module JS.

(** [\s] of a regular expression, on code units below 256. *)
Definition is_white_space (c : ascii) : bool :=
  match N_of_ascii c with
  | 9 | 10 | 11 | 12 | 13 | 32 | 160 => true
  | _ => false
  end%N.

Definition is_hyphen (c : ascii) : bool :=
  match N_of_ascii c with 45%N => true | _ => false end.

Definition is_slash (c : ascii) : bool :=
  match N_of_ascii c with 47%N => true | _ => false end.

Fixpoint skip_white_space (s : string) : string :=
  match s with
  | String c r => if is_white_space c then skip_white_space r else s
  | EmptyString => s
  end.

(** Does [/\s*-\s*/] match at the start of [s]?  The greedy [\s*] takes the
    whole run of white space, and giving some of it back never helps: the
    next character must be the hyphen. *)
Definition separator_matches (s : string) : bool :=
  match skip_white_space s with
  | String c _ => is_hyphen c
  | EmptyString => false
  end.

(** [s.split(/\s*-\s*/)[0]]: the text before the leftmost match, the whole
    string when there is none (also for the empty string). *)
Fixpoint split_range_first (s : string) : string :=
  if separator_matches s then EmptyString
  else match s with
       | String c r => String c (split_range_first r)
       | EmptyString => EmptyString
       end.

(** [s.split('/')]. *)
Fixpoint split_slash (s : string) : list string :=
  match s with
  | EmptyString => [EmptyString]
  | String c r =>
      if is_slash c then EmptyString :: split_slash r
      else match split_slash r with
           | h :: t => String c h :: t
           | [] => [String c EmptyString]
           end
  end.

(** Truthiness of a value that is a string or [undefined]. *)
Definition truthy_string (v : option string) : bool :=
  match v with
  | Some (String _ _) => true
  | _ => false
  end.

(** *** Numbers *)

Definition sub (a b : option Z) : option Z :=
  match a, b with
  | Some x, Some y => Some (x - y)
  | _, _ => None
  end.

(** *** Date *)

Record Date := { getTime : option Z }.

Definition msPerDay : Z := 86400000.

Definition TimeClip (t : option Z) : option Z :=
  match t with
  | Some x => if Z.abs x <=? 8640000000000000 then Some x else None
  | None => None
  end.

Definition DayFromYear (y : Z) : Z :=
  365 * (y - 1970) + (y - 1969) / 4 - (y - 1901) / 100 + (y - 1601) / 400.

Definition InLeapYear (y : Z) : bool :=
  (y mod 4 =? 0) && (negb (y mod 100 =? 0) || (y mod 400 =? 0)).

Definition DaysInMonth (y m : Z) : Z :=
  match m with
  | 2 => if InLeapYear y then 29 else 28
  | 4 | 6 | 9 | 11 => 30
  | _ => 31
  end.

(** Days of the year before the first of month [m] (1 to 12). *)
Definition DaysBeforeMonth (y m : Z) : Z :=
  let leap := if InLeapYear y then 1 else 0 in
  match m with
  | 1 => 0
  | 2 => 31
  | 3 => 59 + leap
  | 4 => 90 + leap
  | 5 => 120 + leap
  | 6 => 151 + leap
  | 7 => 181 + leap
  | 8 => 212 + leap
  | 9 => 243 + leap
  | 10 => 273 + leap
  | 11 => 304 + leap
  | _ => 334 + leap
  end.

(** The time value of midnight UTC of a calendar date. *)
Definition UTC_midnight (y m d : Z) : Z :=
  msPerDay * (DayFromYear y + DaysBeforeMonth y m + (d - 1)).

Definition digit_value (c : ascii) : option Z :=
  let n := Z.of_N (N_of_ascii c) in
  if (48 <=? n) && (n <=? 57) then Some (n - 48) else None.

Fixpoint digits_value (acc : Z) (s : string) : option Z :=
  match s with
  | EmptyString => Some acc
  | String c r =>
      match digit_value c with
      | Some d => digits_value (10 * acc + d) r
      | None => None
      end
  end.

(** The date-only form [YYYY-MM-DD] of the Date Time String Format, which
    every engine reads as midnight UTC.  [None] when [s] is not of that
    form or does not name a day of the calendar. *)
Definition date_only_form (s : string) : option Z :=
  match s with
  | String y1 (String y2 (String y3 (String y4 (String h1
      (String m1 (String m2 (String h2 (String d1 (String d2
        EmptyString))))))))) =>
      if is_hyphen h1 && is_hyphen h2 then
        match digits_value 0 (String y1 (String y2 (String y3 (String y4 EmptyString)))),
              digits_value 0 (String m1 (String m2 EmptyString)),
              digits_value 0 (String d1 (String d2 EmptyString)) with
        | Some y, Some m, Some d =>
            if (1 <=? m) && (m <=? 12) && (1 <=? d) && (d <=? DaysInMonth y m)
            then Some (UTC_midnight y m d)
            else None
        | _, _, _ => None
        end
      else None
  | _ => None
  end.

(** *** Arrays *)

(** [array.find(predicate)]: the first element that satisfies it. *)
Definition find {A} (P : A → Prop) `{∀ x, Decision (P x)} (l : list A) : option A :=
  snd <$> list_find P l.

(** [array.sort(comparefn)].  A comparison that yields [NaN] counts as
    [+0].  The sort is stable; with a consistent [comparefn] every engine
    returns this array (for an inconsistent one the order is left to the
    engine, and this is one admissible outcome). *)
Definition SortCompare {A} (comparefn : A → A → option Z) (x y : A) : Z :=
  default 0 (comparefn x y).

Fixpoint sort_insert {A} (comparefn : A → A → option Z) (x : A) (l : list A) : list A :=
  match l with
  | [] => [x]
  | y :: l' =>
      if 0 <? SortCompare comparefn x y then y :: sort_insert comparefn x l'
      else x :: l
  end.

Definition sort {A} (comparefn : A → A → option Z) (l : list A) : list A :=
  foldr (sort_insert comparefn) [] l.

(** *** Objects used as dictionaries *)

(** Own properties in creation order. *)
Abbreviation Object V := (list (string * V)).

Definition get_own {V} (o : Object V) (k : string) : option V :=
  (λ r, r.2.2) <$> list_find (λ p, p.1 = k) o.

(** [o[k] = v]: an existing property keeps its place, a new one goes last. *)
Fixpoint set_own {V} (o : Object V) (k : string) (v : V) : Object V :=
  match o with
  | [] => [(k, v)]
  | p :: o' => if decide (p.1 = k) then (k, v) :: o' else p :: set_own o' k v
  end.

(** The properties every object inherits from [Object.prototype]; each of
    them is truthy and none has a [push] method. *)
Definition inherited_properties : list string :=
  [ "constructor"; "__proto__"; "hasOwnProperty"; "isPrototypeOf";
    "propertyIsEnumerable"; "toLocaleString"; "toString"; "valueOf";
    "__defineGetter__"; "__defineSetter__"; "__lookupGetter__";
    "__lookupSetter__" ].

(** A property name is an array index when it is the canonical decimal
    text of an integer from 0 to 2^32 - 2. *)
Definition array_index (k : string) : option Z :=
  match k with
  | EmptyString => None
  | String c r =>
      if (Z.of_N (N_of_ascii c) =? 48) && negb (String.eqb r EmptyString) then None
      else match digits_value 0 k with
           | Some n => if n <=? 4294967294 then Some n else None
           | None => None
           end
  end.

(** [Object.keys(o)]: the array indices in ascending numeric order, then
    the other names in creation order. *)
Definition Object_keys {V} (o : Object V) : list string :=
  let names := fst <$> o in
  let indices := omap (λ k, (λ n, (n, k)) <$> array_index k) names in
  (snd <$> sort (λ a b, Some (a.1 - b.1)) indices)
    ++ filter (λ k, array_index k = None) names.

End JS.

(** ** The data model *)

(** An event as the search returns it.  The answer of the search is not
    checked, and neither is an imported file: an event may come without its
    [fecha].  [c_fecha_property] is the property as a text, [None] when there
    is none ([undefined], [null]); a [fecha] that is neither a text nor
    missing is outside the model. *)
Record CandidateEvent := {
  c_titulo : string;
  c_fecha_property : option string;
  c_ubicacion : string;
  c_tipo : option string;
  c_descripcion : string;
  c_fuente : string
}.

(** The date text of a candidate, empty when it has none. *)
Definition c_fecha (event : CandidateEvent) : string :=
  default "" (c_fecha_property event).

(** An event of the agenda: the candidate's properties and the personal
    ones.  [fecha_property] is the property [fecha] as a text, [None] when
    the event has none; [reminder] is the lead time in milliseconds or
    [null]. *)
Record SavedEvent := {
  titulo : string;
  fecha_property : option string;
  ubicacion : string;
  tipo : option string;
  descripcion : string;
  fuente : string;
  notas : string;
  estado : string;
  contactos : list string;
  reminder : option Z;
  category : string
}.

(** The date text of an event, empty when it has none: [parseDate] returns
    [null] for a missing [fecha] as it does for the empty text. *)
Definition fecha (e : SavedEvent) : string := default "" (fecha_property e).

(** The [field] and [value] of [updateSavedEvent], paired so that the value
    has the property's type. *)
Inductive Assignment :=
| set_titulo (value : string)
| set_fecha (value : string)
| set_ubicacion (value : string)
| set_tipo (value : option string)
| set_descripcion (value : string)
| set_fuente (value : string)
| set_notas (value : string)
| set_estado (value : string)
| set_contactos (value : list string)
| set_reminder (value : option Z)
| set_category (value : string).

(** What the import handler gets out of [JSON.parse(text)]: an exception, the
    value [null] (reading a property of it throws), or any other value, of
    which the handler reads the two properties [savedEvents] and
    [historyEvents]; [None] stands for a missing or falsy property, [Some]
    for an array of events.  A truthy property that is not an array of events
    is outside the model. *)
Inductive Parsed :=
| SyntaxError
| JsonNull
| JsonValue (json_savedEvents json_historyEvents : option (list SavedEvent)).

(** The parts of the engine the model takes as parameters: what [Date.parse]
    does with a text that is not of the date-only form ("implementation-
    specific heuristics"; [None] is [NaN]), and the reading of a file's text
    by [JSON.parse]. *)
Class Engine := {
  fallback_parse : string → option Z;
  JSON_parse : string → Parsed
}.

Definition Date_parse `{Engine} (s : string) : option Z :=
  match JS.date_only_form s with
  | Some t => Some t
  | None => JS.TimeClip (fallback_parse s)
  end.

(** [new Date(text)] and [new Date(number)]. *)
Definition new_Date_string `{Engine} (s : string) : JS.Date :=
  {| JS.getTime := Date_parse s |}.

Definition new_Date_number (t : option Z) : JS.Date :=
  {| JS.getTime := JS.TimeClip t |}.

(** ** [parseDate] *)

Definition parseDate `{Engine} (dateStr : string) : option JS.Date :=
  if JS.truthy_string (Some dateStr) then
    let part := JS.split_range_first dateStr in
    let fields := JS.split_slash part in
    let day := fields !! 0%nat in
    let month := fields !! 1%nat in
    let year := fields !! 2%nat in
    match day, month, year with
    | Some day, Some month, Some year =>
        if JS.truthy_string (Some day) && JS.truthy_string (Some month)
           && JS.truthy_string (Some year)
        then Some (new_Date_string (year +:+ "-" +:+ month +:+ "-" +:+ day))
        else None
    | _, _, _ => None
    end
  else None.

(** ** The window: pending timeouts and alerts *)

(** [setTimeout] and [setInterval] take their delay as a [long]: the number
    is converted modulo 2^32 into the range from -2^31 to 2^31 - 1, and a
    negative delay counts as zero.  A delay of more than 2147483647 ms, not
    quite 25 days, is therefore not waited for. *)
Definition to_long (x : Z) : Z := (x + 2147483648) mod 4294967296 - 2147483648.

Definition timer_delay (timeout : Z) : Z := Z.max 0 (to_long timeout).

(** A timeout of the reminder effect: the event its handler closes over, the
    delay the effect passed, and the time at which the window runs the
    handler: the time of the call and the delay the window makes of the one
    passed.  [pending] holds the timeouts that were set and have neither been
    cleared nor run. *)
Record Timeout := {
  timeout_event : SavedEvent;
  timeout_delay : Z;
  timeout_due : Z
}.

Record Window := {
  pending : gmap nat Timeout;
  next_handle : nat;
  alerts : list string
}.

(** [setTimeout(handler, delay)] called at time [clock], for the handler of
    the reminder of [event]. *)
Definition setTimeout (clock : Z) (event : SavedEvent) (delay : Z) (w : Window)
  : nat * Window :=
  (next_handle w,
   {| pending :=
        <[next_handle w := {| timeout_event := event;
                              timeout_delay := delay;
                              timeout_due := clock + timer_delay delay |}]> (pending w);
      next_handle := S (next_handle w);
      alerts := alerts w |}).

Definition clearTimeout (t : nat) (w : Window) : Window :=
  {| pending := delete t (pending w);
     next_handle := next_handle w;
     alerts := alerts w |}.

Definition alert (message : string) (w : Window) : Window :=
  {| pending := pending w;
     next_handle := next_handle w;
     alerts := alerts w ++ [message] |}.

(** The text of a reminder: [`Recordatorio: el evento "${event.titulo}" será
    el ${event.fecha}`], with the quotation marks and the accented letter
    written as code units.  (A timeout is set only for an event whose
    [fecha] is a text.) *)
Definition reminder_message (event : SavedEvent) : string :=
  "Recordatorio: el evento "
    +:+ String "034" (titulo event
    +:+ String "034" (" ser" +:+ String "225" (" el " +:+ fecha event))).

(** The handler of a timeout runs: the timeout is no longer pending and the
    alert is shown. *)
Definition fire (w : Window) (timeout : nat * Timeout) : Window :=
  alert (reminder_message (timeout_event timeout.2)) (clearTimeout timeout.1 w).

(** Timeouts run in the order of their times, those of one time in the order
    in which they were set. *)
Definition due_order (a b : nat * Timeout) : option Z :=
  Some (if decide (timeout_due a.2 = timeout_due b.2)
        then Z.of_nat a.1 - Z.of_nat b.1
        else timeout_due a.2 - timeout_due b.2).

Definition due_timeouts (clock : Z) (w : Window) : list (nat * Timeout) :=
  JS.sort due_order
    (map_to_list (filter (λ timeout : nat * Timeout, timeout_due timeout.2 ≤ clock) (pending w))).

(** Time passes until [clock]: the timeouts that are due by then run.  (A
    timeout is taken to run at the time it is due; a window may run it a
    little later, never earlier.) *)
Definition elapse_window (clock : Z) (w : Window) : Window :=
  foldl fire w (due_timeouts clock w).

(** ** The component's state *)

(** [savedEvents] and [historyEvents] are the two [useState] cells; [now] and
    [timers] are the constants of the latest run of the reminder effect,
    which its cleanup closes over. *)
Record State := {
  savedEvents : list SavedEvent;
  historyEvents : list SavedEvent;
  now : Z;
  timers : list nat;
  window : Window
}.

(** *** The reminder effect *)

(** The body of [savedEvents.forEach] for one event. *)
Definition schedule `{Engine} (now : Z) (acc : list nat * Window) (event : SavedEvent)
  : list nat * Window :=
  match reminder event with
  | None => acc
  | Some lead =>
      if lead =? 0 then acc
      else
        match parseDate (fecha event) with
        | None => acc
        | Some eventDate =>
            let remindAt := new_Date_number (JS.sub (JS.getTime eventDate) (Some lead)) in
            match JS.sub (JS.getTime remindAt) (Some now) with
            | Some delay =>
                if 0 <? delay then
                  let '(timer, w) := setTimeout now event delay acc.2 in
                  (acc.1 ++ [timer], w)
                else acc
            | None => acc
            end
        end
  end.

Definition run_effect `{Engine} (now : Z) (events : list SavedEvent) (w : Window)
  : list nat * Window :=
  foldl (schedule now) ([], w) events.

(** The cleanup: [timers.forEach((t) => clearTimeout(t))]. *)
Definition cleanup (timers : list nat) (w : Window) : Window :=
  foldl (λ w t, clearTimeout t w) w timers.

(** [setSavedEvents(next)] with a new array: the component renders again, the
    cleanup of the previous run of the effect runs and then the effect, which
    reads the clock. *)
Definition setSavedEvents `{Engine} (clock : Z) (next : list SavedEvent) (st : State) : State :=
  let '(timers', w) := run_effect clock next (cleanup (timers st) (window st)) in
  {| savedEvents := next;
     historyEvents := historyEvents st;
     now := clock;
     timers := timers';
     window := w |}.

Definition setHistoryEvents (next : list SavedEvent) (st : State) : State :=
  {| savedEvents := savedEvents st;
     historyEvents := next;
     now := now st;
     timers := timers st;
     window := window st |}.

Definition show_alert (message : string) (st : State) : State :=
  {| savedEvents := savedEvents st;
     historyEvents := historyEvents st;
     now := now st;
     timers := timers st;
     window := alert message (window st) |}.

(** Time passes until [clock] with nothing done on the page. *)
Definition elapse (clock : Z) (st : State) : State :=
  {| savedEvents := savedEvents st;
     historyEvents := historyEvents st;
     now := now st;
     timers := timers st;
     window := elapse_window clock (window st) |}.

(** The state after mounting at time [clock]: both lists empty, the effect
    has run once over the empty agenda. *)
Definition mount (clock : Z) : State :=
  {| savedEvents := [];
     historyEvents := [];
     now := clock;
     timers := [];
     window := {| pending := ∅; next_handle := 1; alerts := [] |} |}.

(** *** The agenda operations

    Each takes the reading of the clock at the time the effect would run. *)

(** [{ ...event, notas: '', estado: '', contactos: [], reminder: null,
      category: event.tipo || '' }] *)
Definition blank_annotations (event : CandidateEvent) : SavedEvent :=
  {| titulo := c_titulo event;
     fecha_property := c_fecha_property event;
     ubicacion := c_ubicacion event;
     tipo := c_tipo event;
     descripcion := c_descripcion event;
     fuente := c_fuente event;
     notas := "";
     estado := "";
     contactos := [];
     reminder := None;
     category := if JS.truthy_string (c_tipo event) then default "" (c_tipo event) else "" |}.

Definition saveEvent `{Engine} (clock : Z) (event : CandidateEvent) (st : State) : State :=
  match JS.find (λ e, titulo e = c_titulo event) (savedEvents st) with
  | Some _ => st
  | None => setSavedEvents clock (savedEvents st ++ [blank_annotations event]) st
  end.

(** [{ ...e, [field]: value }] *)
Definition assign (a : Assignment) (e : SavedEvent) : SavedEvent :=
  {| titulo := match a with set_titulo v => v | _ => titulo e end;
     fecha_property := match a with set_fecha v => Some v | _ => fecha_property e end;
     ubicacion := match a with set_ubicacion v => v | _ => ubicacion e end;
     tipo := match a with set_tipo v => v | _ => tipo e end;
     descripcion := match a with set_descripcion v => v | _ => descripcion e end;
     fuente := match a with set_fuente v => v | _ => fuente e end;
     notas := match a with set_notas v => v | _ => notas e end;
     estado := match a with set_estado v => v | _ => estado e end;
     contactos := match a with set_contactos v => v | _ => contactos e end;
     reminder := match a with set_reminder v => v | _ => reminder e end;
     category := match a with set_category v => v | _ => category e end |}.

Definition updateSavedEvent `{Engine} (clock : Z) (title : string) (a : Assignment)
  (st : State) : State :=
  setSavedEvents clock
    (map (λ e, if decide (titulo e = title) then assign a e else e) (savedEvents st)) st.

Definition removeEvent `{Engine} (clock : Z) (title : string) (st : State) : State :=
  setSavedEvents clock (filter (λ e, titulo e ≠ title) (savedEvents st)) st.

Definition markAsAttended `{Engine} (clock : Z) (title : string) (st : State) : State :=
  match JS.find (λ e, titulo e = title) (savedEvents st) with
  | Some event =>
      setHistoryEvents (historyEvents st ++ [assign (set_estado "asistido") event])
        (setSavedEvents clock (filter (λ e, titulo e ≠ title) (savedEvents st)) st)
  | None => st
  end.

(** The text of the alert; its two accented letters are written as code
    units. *)
Definition import_error : string :=
  "Error al importar el archivo. Aseg"
    +:+ String "250" ("rate de seleccionar un JSON v" +:+ String "225" "lido.").

(** [reader.onload] of [importAgenda], given the text of the file. *)
Definition import_onload `{Engine} (clock : Z) (text : string) (st : State) : State :=
  match JSON_parse text with
  | SyntaxError | JsonNull =>
      show_alert import_error st
  | JsonValue saved history =>
      let st1 :=
        match saved with
        | Some events => setSavedEvents clock (savedEvents st ++ events) st
        | None => st
        end in
      match history with
      | Some events => setHistoryEvents (historyEvents st1 ++ events) st1
      | None => st1
      end
  end.

(** [importAgenda]: no file chosen, or the text of the chosen file. *)
Definition importAgenda `{Engine} (clock : Z) (file : option string) (st : State) : State :=
  match file with
  | Some text => import_onload clock text st
  | None => st
  end.

(** *** Traces of operations *)

Inductive Operation :=
| Save (event : CandidateEvent)
| Update (title : string) (a : Assignment)
| Remove (title : string)
| Promote (title : string)
| Import (file : option string).

Definition perform `{Engine} (clock : Z) (op : Operation) (st : State) : State :=
  match op with
  | Save event => saveEvent clock event st
  | Update title a => updateSavedEvent clock title a st
  | Remove title => removeEvent clock title st
  | Promote title => markAsAttended clock title st
  | Import file => importAgenda clock file st
  end.

(** The states the component can be in: mounted, then any operations, each
    at some reading of the clock, and any passing of time. *)
Inductive reachable `{Engine} : State → Prop :=
| reachable_mount clock : reachable (mount clock)
| reachable_perform clock op st : reachable st → reachable (perform clock op st)
| reachable_elapse clock st : reachable st → reachable (elapse clock st).

(** The same states with the time at which the component is in them.  The
    clock does not go back.  When an operation is done at time [clock], the
    timeouts that are due by then and still pending run after it, among
    them those the effect sets for this very time; a timeout that was due
    has run before the operation when time passed first. *)
Inductive reachable_at `{Engine} : Z → State → Prop :=
| reachable_at_mount clock : reachable_at clock (mount clock)
| reachable_at_perform time clock op st :
    reachable_at time st → time ≤ clock →
    reachable_at clock (elapse clock (perform clock op st))
| reachable_at_elapse time clock st :
    reachable_at time st → time ≤ clock → reachable_at clock (elapse clock st).

(** An operation at time [clock] when the timeouts due by then have run
    before it. *)
Definition at_time `{Engine} (clock : Z) (op : Operation) (st : State) : State :=
  elapse clock (perform clock op (elapse clock st)).

(** ** The calendar view *)

(** [dateKey] and the body of [eventList.forEach] in [groupEventsByDate].
    [None] is an exception: [e.fecha.split] throws for an event without
    [fecha], and when the key names an inherited property the lookup
    [grouped[dateKey]] is truthy, no array is created and the call of [push]
    throws. *)
Definition dateKey (e : SavedEvent) : string := JS.split_range_first (fecha e).

Definition group_event (grouped : JS.Object (list SavedEvent)) (e : SavedEvent)
  : option (JS.Object (list SavedEvent)) :=
  match fecha_property e with
  | None => None
  | Some _ =>
      match JS.get_own grouped (dateKey e) with
      | Some bucket => Some (JS.set_own grouped (dateKey e) (bucket ++ [e]))
      | None =>
          if bool_decide (dateKey e ∈ JS.inherited_properties) then None
          else Some (JS.set_own grouped (dateKey e) [e])
      end
  end.

Definition groupEventsByDate (eventList : list SavedEvent)
  : option (JS.Object (list SavedEvent)) :=
  foldl (λ acc e, acc ≫= λ grouped, group_event grouped e) (Some []) eventList.

(** [da || 0] as the operand of a subtraction: the time value of the date,
    [0] for [null]. *)
Definition date_or_zero (d : option JS.Date) : option Z :=
  match d with
  | Some d => JS.getTime d
  | None => Some 0
  end.

(** The comparison function of the calendar tab. *)
Definition compare_dates `{Engine} (a b : string) : option Z :=
  let da := parseDate a in
  let db := parseDate b in
  JS.sub (date_or_zero da) (date_or_zero db).

(** The [dates] of the calendar tab. *)
Definition calendar_dates `{Engine} (events : list SavedEvent) : option (list string) :=
  grouped ← groupEventsByDate events;
  Some (JS.sort compare_dates (JS.Object_keys grouped)).

(** ** Properties of the specification, stated on the model *)

(** The titles of a collection. *)
Definition titles (events : list SavedEvent) : list string := titulo <$> events.

(** No title is both in the agenda and in the history. *)
Definition disjoint_titles (st : State) : Prop :=
  ∀ title, ¬ (title ∈ titles (savedEvents st) ∧ title ∈ titles (historyEvents st)).

(** The condition under which an operation keeps the two collections apart. *)
Definition keeps_apart `{Engine} (op : Operation) (st : State) : Prop :=
  match op with
  | Save event => c_titulo event ∉ titles (historyEvents st)
  | Update _ (set_titulo _) => False
  | Update _ _ => True
  | Remove _ => True
  | Promote _ => True
  | Import None => True
  | Import (Some text) =>
      match JSON_parse text with
      | JsonValue saved history =>
          ∀ title,
            ¬ (title ∈ titles (savedEvents st ++ default [] saved)
               ∧ title ∈ titles (historyEvents st ++ default [] history))
      | _ => True
      end
  end.

(** The fire time of an event's reminder: the event's date less the lead
    time, when there is a lead time other than zero, the date is read and
    the result is a time value. *)
Definition fire_time `{Engine} (e : SavedEvent) : option Z :=
  lead ← reminder e;
  if decide (lead = 0) then None
  else d ← parseDate (fecha e); t ← JS.getTime d; JS.TimeClip (Some (t - lead)).

(** The event has a reminder that is due after [clock]. *)
Definition armed `{Engine} (clock : Z) (e : SavedEvent) : Prop :=
  ∃ at_, fire_time e = Some at_ ∧ clock < at_.

#[global] Instance armed_dec `{Engine} clock e : Decision (armed clock e).
Proof.
  unfold armed. destruct (fire_time e) as [t|].
  - destruct (decide (clock < t)).
    + left. eauto.
    + right. intros (? & [= <-] & ?). done.
  - right. intros (? & [=] & _).
Defined.



(** The timeout the effect sets at [clock] for an armed event: the delay is
    the fire time less the clock. *)
Definition timeout_for `{Engine} (clock : Z) (e : SavedEvent) : Timeout :=
  {| timeout_event := e;
     timeout_delay := default 0 (fire_time e) - clock;
     timeout_due := clock + timer_delay (default 0 (fire_time e) - clock) |}.

(** The reminder of the event was armed at [set_at] and the window has not
    run it by [clock]. *)
Definition awaited `{Engine} (set_at clock : Z) (e : SavedEvent) : Prop :=
  armed set_at e ∧ clock < timeout_due (timeout_for set_at e).

#[global] Instance awaited_dec `{Engine} set_at clock e : Decision (awaited set_at clock e).
Proof. unfold awaited. apply _. Defined.


(** What holds of the effect's constants and the window at any time. *)
Definition effect_ok `{Engine} (st : State) : Prop :=
  NoDup (timers st)
  ∧ length (timers st) = length (filter (armed (now st)) (savedEvents st))
  ∧ (∀ i t timeout,
       timers st !! i = Some t → pending (window st) !! t = Some timeout →
       ∃ e, filter (armed (now st)) (savedEvents st) !! i = Some e
            ∧ timeout = timeout_for (now st) e)
  ∧ (∀ t, is_Some (pending (window st) !! t) → t ∈ timers st)
  ∧ Forall (λ t, (t < next_handle (window st))%nat) (timers st).

(** What holds besides when the effect ran no later than [clock] and time
    has not passed beyond [clock] since: the timeouts that are due after
    [clock] are pending. *)
Definition effect_ok_until `{Engine} (clock : Z) (st : State) : Prop :=
  effect_ok st
  ∧ now st ≤ clock
  ∧ ∀ i t e,
      timers st !! i = Some t →
      filter (armed (now st)) (savedEvents st) !! i = Some e →
      clock < timeout_due (timeout_for (now st) e) →
      is_Some (pending (window st) !! t).


(** *** The Date Text Grammar *)

Definition is_digit (c : ascii) : bool :=
  match JS.digit_value c with Some _ => true | None => false end.

(** [DD/MM/YYYY] *)
Definition date_form (s : string) : bool :=
  match s with
  | String d1 (String d2 (String s1 (String m1 (String m2 (String s2
      (String y1 (String y2 (String y3 (String y4 EmptyString))))))))) =>
      is_digit d1 && is_digit d2 && JS.is_slash s1
      && is_digit m1 && is_digit m2 && JS.is_slash s2
      && is_digit y1 && is_digit y2 && is_digit y3 && is_digit y4
  | _ => false
  end.

Fixpoint string_take (n : nat) (s : string) : string :=
  match n, s with
  | S n, String c r => String c (string_take n r)
  | _, _ => EmptyString
  end.

Fixpoint string_drop (n : nat) (s : string) : string :=
  match n, s with
  | S n, String _ r => string_drop n r
  | _, _ => s
  end.

(** What may follow the first date: nothing, or a hyphen surrounded by
    optional white space and a second date. *)
Definition range_tail (s : string) : bool :=
  match s with
  | EmptyString => true
  | _ =>
      match JS.skip_white_space s with
      | String c r => JS.is_hyphen c && date_form (JS.skip_white_space r)
      | EmptyString => false
      end
  end.

(** A single date or a range of two. *)
Definition matches_date_text (s : string) : bool :=
  date_form (string_take 10 s) && range_tail (string_drop 10 s).


(** *** The order of the calendar *)

(** The value a key is sorted by: the time value of its date, zero when
    [parseDate] returns [null]. *)
Definition key_time `{Engine} (k : string) : Z :=
  default 0 (date_or_zero (parseDate k)).

(** Every key that [parseDate] reads names a valid date. *)
Definition dates_valid `{Engine} (keys : list string) : Prop :=
  ∀ k d, k ∈ keys → parseDate k = Some d → is_Some (JS.getTime d).

(** The distinct elements of a list in the order of their first occurrence. *)
Definition encounter_order (keys : list string) : list string :=
  foldl (λ seen k, if decide (k ∈ seen) then seen else seen ++ [k]) [] keys.

(** On the elements of [l] the comparison function is the difference of the
    keys. *)
Definition follows_key {A} (comparefn : A → A → option Z) (key : A → Z) (l : list A)
  : Prop :=
  ∀ x y, x ∈ l → y ∈ l → comparefn x y = Some (key x - key y).

(** [a] comes somewhere before [b] in [l]. *)
Definition precedes {A} (a b : A) (l : list A) : Prop :=
  ∃ l1 l2 l3, l = l1 ++ a :: l2 ++ b :: l3.

(** ** Engines and events for the examples *)

Definition beach_party : CandidateEvent :=
  {| c_titulo := "Beach Party";
     c_fecha_property := Some "12/07/2025";
     c_ubicacion := "Grace Bay";
     c_tipo := Some "social";
     c_descripcion := "Sunset party";
     c_fuente := "visittci.com" |}.

Definition regatta : SavedEvent :=
  {| titulo := "Regatta";
     fecha_property := Some "20/07/2025 - 22/07/2025";
     ubicacion := "Sapodilla Bay";
     tipo := Some "deportivo";
     descripcion := "Sailing";
     fuente := "";
     notas := "bring hat";
     estado := "confirmado";
     contactos := ["Ana"];
     reminder := Some 3600000;
     category := "deportivo" |}.

Definition dated (title date : string) : SavedEvent :=
  {| titulo := title;
     fecha_property := Some date;
     ubicacion := "";
     tipo := None;
     descripcion := "";
     fuente := "";
     notas := "";
     estado := "";
     contactos := [];
     reminder := None;
     category := "" |}.

(** An event that came without its [fecha]. *)
Definition undated (title : string) : SavedEvent :=
  {| titulo := title;
     fecha_property := None;
     ubicacion := "";
     tipo := None;
     descripcion := "";
     fuente := "";
     notas := "";
     estado := "";
     contactos := [];
     reminder := None;
     category := "" |}.

(** An engine that reads no date beyond the date-only form and knows three
    files. *)
Definition sample_engine : Engine :=
  {| fallback_parse := λ _, None;
     JSON_parse := λ text,
       if decide (text = "agenda") then JsonValue (Some [regatta]) (Some [dated "Gala" "01/06/2025"])
       else if decide (text = "{}") then JsonValue None None
       else if decide (text = "null") then JsonNull
       else SyntaxError |}.

(** ** Runs of operations *)

(** A run: operations with the clock reading of each, oldest first. *)
Definition run `{Engine} (ops : list (Z * Operation)) (st : State) : State :=
  foldl (λ st step, perform step.1 step.2 st) st ops.

(** The [field] argument of [updateSavedEvent] that an assignment stands
    for. *)
Definition property_of (a : Assignment) : string :=
  match a with
  | set_titulo _ => "titulo"
  | set_fecha _ => "fecha"
  | set_ubicacion _ => "ubicacion"
  | set_tipo _ => "tipo"
  | set_descripcion _ => "descripcion"
  | set_fuente _ => "fuente"
  | set_notas _ => "notas"
  | set_estado _ => "estado"
  | set_contactos _ => "contactos"
  | set_reminder _ => "reminder"
  | set_category _ => "category"
  end.

(** A value of a property of an event: a text, a text that may be missing,
    a list of texts, a number of milliseconds or [null]. *)
Inductive Value :=
| Text (value : string)
| OptionalText (value : option string)
| Texts (value : list string)
| Milliseconds (value : option Z).

(** The value of the property of that name; [None] for a name that is none
    of the eleven of an event. *)
Definition property (name : string) (e : SavedEvent) : option Value :=
  if decide (name = "titulo") then Some (Text (titulo e))
  else if decide (name = "fecha") then Some (OptionalText (fecha_property e))
  else if decide (name = "ubicacion") then Some (Text (ubicacion e))
  else if decide (name = "tipo") then Some (OptionalText (tipo e))
  else if decide (name = "descripcion") then Some (Text (descripcion e))
  else if decide (name = "fuente") then Some (Text (fuente e))
  else if decide (name = "notas") then Some (Text (notas e))
  else if decide (name = "estado") then Some (Text (estado e))
  else if decide (name = "contactos") then Some (Texts (contactos e))
  else if decide (name = "reminder") then Some (Milliseconds (reminder e))
  else if decide (name = "category") then Some (Text (category e))
  else None.

(** The [value] argument of [updateSavedEvent] that an assignment stands
    for. *)
Definition value_of (a : Assignment) : Value :=
  match a with
  | set_titulo v => Text v
  | set_fecha v => OptionalText (Some v)
  | set_ubicacion v => Text v
  | set_tipo v => OptionalText v
  | set_descripcion v => Text v
  | set_fuente v => Text v
  | set_notas v => Text v
  | set_estado v => Text v
  | set_contactos v => Texts v
  | set_reminder v => Milliseconds v
  | set_category v => Text v
  end.

(** The event [e'] is the event [e] with the one property written. *)
Definition written (name : string) (value : Value) (e e' : SavedEvent) : Prop :=
  ∀ other, property other e'
           = if decide (other = name) then Some value else property other e.

#[global] Instance SavedEvent_eq_dec : EqDecision SavedEvent.
Proof. solve_decision. Defined.

(** How many times an event is in a list. *)
Definition occurrences (e : SavedEvent) (events : list SavedEvent) : nat :=
  length (filter (λ x, x = e) events).

(** A run with the time: each operation at its time, the timeouts running
    when they are due. *)
Definition run_at `{Engine} (ops : list (Z * Operation)) (st : State) : State :=
  foldl (λ st step, at_time step.1 step.2 st) st ops.

(** The operations the page itself performs on the agenda: everything but an
    import, with updates that leave the title alone (the page updates
    [notas], [estado], [reminder] and [contactos]). *)
Definition from_page (op : Operation) : Prop :=
  match op with
  | Import _ => False
  | Update _ a => property_of a ≠ "titulo"
  | _ => True
  end.

(** An import whose file is not read: [JSON.parse] throws, or gives [null]. *)
Definition import_fails `{Engine} (op : Operation) : Prop :=
  match op with
  | Import (Some text) =>
      match JSON_parse text with
      | SyntaxError | JsonNull => True
      | JsonValue _ _ => False
      end
  | _ => False
  end.

#[global] Instance import_fails_dec `{Engine} op : Decision (import_fails op).
Proof.
  destruct op as [| | | |[text|]]; simpl; try (right; tauto).
  destruct (JSON_parse text); (left; exact I) || (right; tauto).
Defined.

(** ** The event types *)

(** [text.toLowerCase()], one code unit at a time: the letters [A] to [Z] and
    the capital letters of Latin-1 ([U+00C0] to [U+00DE] without the
    multiplication sign) have their small letter 32 places on. *)
Definition lower_code_unit (c : ascii) : ascii :=
  let n := N_of_ascii c in
  if ((65 <=? n) && (n <=? 90) || (192 <=? n) && (n <=? 222) && negb (n =? 215))%N
  then ascii_of_N (n + 32)
  else c.

Fixpoint toLowerCase (s : string) : string :=
  match s with
  | EmptyString => EmptyString
  | String c r => String (lower_code_unit c) (toLowerCase r)
  end.

(** [text.trim()]: without the white space at its two ends. *)
Fixpoint trim_end (s : string) : string :=
  match s with
  | EmptyString => EmptyString
  | String c r =>
      match trim_end r with
      | EmptyString => if JS.is_white_space c then EmptyString else String c EmptyString
      | r' => String c r'
      end
  end.

Definition trim (s : string) : string := trim_end (JS.skip_white_space s).

(** [text.replace(/\s+/g, '-')]: every run of white space becomes one
    hyphen.  [in_run] tells that the code unit before was white space. *)
Fixpoint hyphenate_from (in_run : bool) (s : string) : string :=
  match s with
  | EmptyString => EmptyString
  | String c r =>
      if JS.is_white_space c then
        if in_run then hyphenate_from true r else String "-" (hyphenate_from true r)
      else String c (hyphenate_from false r)
  end.

Definition hyphenate (s : string) : string := hyphenate_from false s.

(** An entry of [eventTypes]: its properties [id] and [label]. *)
Record EventType := {
  type_id : string;
  type_label : string
}.

(** The two [useState] cells of the category form. *)
Record Categories := {
  eventTypes : list EventType;
  newCategory : string
}.

(** The seven types the component starts with.  The two accented letters are
    written as code units. *)
Definition initial_eventTypes : list EventType :=
  [ {| type_id := "todos"; type_label := "Todos los Eventos" |};
    {| type_id := "sociales"; type_label := "Eventos Sociales" |};
    {| type_id := "culturales"; type_label := "Culturales/Arte" |};
    {| type_id := "deportivos"; type_label := "Deportivos" |};
    {| type_id := "gastronomicos";
       type_label := "Gastron" +:+ String "243" "micos" |};
    {| type_id := "musicales";
       type_label := "M" +:+ String "250" "sica/Conciertos" |};
    {| type_id := "negocios"; type_label := "Networking/Negocios" |} ].

Definition initial_categories : Categories :=
  {| eventTypes := initial_eventTypes; newCategory := "" |}.

(** Typing into the field: [setNewCategory(e.target.value)]. *)
Definition setNewCategory (value : string) (c : Categories) : Categories :=
  {| eventTypes := eventTypes c; newCategory := value |}.

(** The id [addCustomCategory] derives from a trimmed label. *)
Definition slug (trimmed : string) : string := hyphenate (toLowerCase trimmed).

Definition addCustomCategory (c : Categories) : Categories :=
  let trimmed := trim (newCategory c) in
  if JS.truthy_string (Some trimmed) then
    let id := slug trimmed in
    match JS.find (λ t, type_id t = id) (eventTypes c) with
    | Some _ => {| eventTypes := eventTypes c; newCategory := "" |}
    | None =>
        {| eventTypes := eventTypes c ++ [{| type_id := id; type_label := trimmed |}];
           newCategory := "" |}
    end
  else c.

(** Typing a label and pressing the button. *)
Definition add_label (label : string) (c : Categories) : Categories :=
  addCustomCategory (setNewCategory label c).

(** What the user does with the category form. *)
Inductive FormAction :=
| TypeLabel (value : string)
| PressAdd.

Definition form_step (c : Categories) (action : FormAction) : Categories :=
  match action with
  | TypeLabel value => setNewCategory value c
  | PressAdd => addCustomCategory c
  end.

Definition form_run (actions : list FormAction) (c : Categories) : Categories :=
  foldl form_step c actions.

(** An entry as [addCustomCategory] makes it: a label that is not empty and
    has no white space at its ends, and the slug of the label as id. *)
Definition custom_type (t : EventType) : Prop :=
  type_label t ≠ EmptyString
  ∧ trim (type_label t) = type_label t
  ∧ type_id t = slug (type_label t).

(** Every code unit of the text passes the test. *)
Fixpoint string_all (test : ascii → bool) (s : string) : bool :=
  match s with
  | EmptyString => true
  | String c r => test c && string_all test r
  end.

(** A code unit an id is made of: no white space and no capital letter. *)
Definition id_code_unit (c : ascii) : bool :=
  negb (JS.is_white_space c) && Ascii.eqb (lower_code_unit c) c.

(** ** The automatic search *)

(** The numbers of the cell [autoSearchInterval]: what
    [parseInt(value, 10) || 0] gives, an integer of binary64 or an infinity
    (for a text of some hundreds of digits). *)
Inductive Double :=
| Integer (n : Z)
| Infinite (negative : bool).

#[global] Instance Double_eq_dec : EqDecision Double.
Proof. solve_decision. Defined.

(** [n / d] rounded to the nearest integer, to the even one of two that are
    equally near. *)
Definition round_half_even (n d : Z) : Z :=
  let q := n / d in
  let r := n mod d in
  if 2 * r <? d then q
  else if d <? 2 * r then q + 1
  else if Z.even q then q else q + 1.

(** The number of binary64 for an integer: the integer itself below 2^53,
    above it the nearest multiple of the power of two that leaves 53 bits,
    an infinity from 2^1024 on. *)
Definition to_double (z : Z) : Double :=
  let m := Z.abs z in
  if m <? 2 ^ 53 then Integer z
  else
    let ulp := 2 ^ (Z.log2 m - 52) in
    let r := round_half_even m ulp * ulp in
    if 2 ^ 1024 <=? r then Infinite (z <? 0) else Integer (Z.sgn z * r).

(** [x * k] for a positive integer [k]. *)
Definition times (x : Double) (k : Z) : Double :=
  match x with
  | Integer n => to_double (n * k)
  | Infinite negative => Infinite negative
  end.

(** [x > 0] *)
Definition positive (x : Double) : bool :=
  match x with
  | Integer n => 0 <? n
  | Infinite negative => negb negative
  end.

(** The delay the window makes of the number passed to [setInterval]: the
    [long] of it, which is zero for an infinity, and zero when that is
    negative. *)
Definition interval_delay (x : Double) : Z :=
  match x with
  | Integer n => timer_delay n
  | Infinite _ => 0
  end.

(** The selected event type, the two cells of the automatic search, the ref
    that holds the handle of its interval, and the intervals of the window
    that were set and not cleared.  An interval has the number the effect
    passed as its delay and the [searchType] of the render whose
    [searchEvents] its handler closes over; its [period] is the delay the
    window makes of that number, in milliseconds.  (Intervals and timeouts
    get their handles from one counter in a browser; the two effects clear
    only handles they were given, so the model keeps one counter for each.
    The ticks of an interval are not modelled.) *)
Record Interval := {
  interval_timeout : Double;
  captured_searchType : string
}.

Definition period (i : Interval) : Z := interval_delay (interval_timeout i).

Record AutoSearch := {
  searchType : string;
  autoSearchEnabled : bool;
  autoSearchInterval : Double;
  autoSearchRef : option nat;
  intervals : gmap nat Interval;
  next_interval : nat
}.

(** Truthiness of [autoSearchRef.current]: a handle other than zero. *)
Definition truthy_handle (ref : option nat) : bool :=
  match ref with
  | Some (S _) => true
  | _ => false
  end.

Definition clearInterval (ref : option nat) (a : AutoSearch) : AutoSearch :=
  {| searchType := searchType a;
     autoSearchEnabled := autoSearchEnabled a;
     autoSearchInterval := autoSearchInterval a;
     autoSearchRef := autoSearchRef a;
     intervals := match ref with
                  | Some h => delete h (intervals a)
                  | None => intervals a
                  end;
     next_interval := next_interval a |}.

Definition set_ref (ref : option nat) (a : AutoSearch) : AutoSearch :=
  {| searchType := searchType a;
     autoSearchEnabled := autoSearchEnabled a;
     autoSearchInterval := autoSearchInterval a;
     autoSearchRef := ref;
     intervals := intervals a;
     next_interval := next_interval a |}.

(** [autoSearchRef.current = setInterval(..., timeout)] *)
Definition setInterval_ref (timeout : Double) (a : AutoSearch) : AutoSearch :=
  {| searchType := searchType a;
     autoSearchEnabled := autoSearchEnabled a;
     autoSearchInterval := autoSearchInterval a;
     autoSearchRef := Some (next_interval a);
     intervals :=
       <[next_interval a := {| interval_timeout := timeout;
                               captured_searchType := searchType a |}]>
         (intervals a);
     next_interval := S (next_interval a) |}.

(** The body of the effect and the cleanup it returns.  The delay is
    [autoSearchInterval * 60 * 1000], the two products in binary64. *)
Definition autoSearch_effect (a : AutoSearch) : AutoSearch :=
  let a1 :=
    if truthy_handle (autoSearchRef a)
    then set_ref None (clearInterval (autoSearchRef a) a)
    else a in
  if autoSearchEnabled a1 && positive (autoSearchInterval a1)
  then setInterval_ref (times (times (autoSearchInterval a1) 60) 1000) a1
  else a1.

Definition autoSearch_cleanup (a : AutoSearch) : AutoSearch :=
  if truthy_handle (autoSearchRef a) then clearInterval (autoSearchRef a) a else a.

(** A change of one of the two cells: the cleanup of the previous run, then
    the effect. *)
Definition autoSearch_rerun (enabled : bool) (interval : Double) (a : AutoSearch)
  : AutoSearch :=
  let cleaned := autoSearch_cleanup a in
  autoSearch_effect
    {| searchType := searchType cleaned;
       autoSearchEnabled := enabled;
       autoSearchInterval := interval;
       autoSearchRef := autoSearchRef cleaned;
       intervals := intervals cleaned;
       next_interval := next_interval cleaned |}.

Definition autoSearch_mount : AutoSearch :=
  autoSearch_effect
    {| searchType := "todos";
       autoSearchEnabled := false;
       autoSearchInterval := Integer 0;
       autoSearchRef := None;
       intervals := ∅;
       next_interval := 1 |}.

(** The checkbox: [setAutoSearchEnabled(!autoSearchEnabled)]. *)
Definition toggle_autoSearch (a : AutoSearch) : AutoSearch :=
  autoSearch_rerun (negb (autoSearchEnabled a)) (autoSearchInterval a) a.

(** The number field: [setAutoSearchInterval(parseInt(value, 10) || 0)],
    given what [parseInt] returns ([None] for [NaN]).  Setting the cell to
    the value it has does not run the effect. *)
Definition change_interval (parsed : option Double) (a : AutoSearch) : AutoSearch :=
  let value := default (Integer 0) parsed in
  if decide (value = autoSearchInterval a) then a
  else autoSearch_rerun (autoSearchEnabled a) value a.

(** A button of the event types: [setSearchType(type.id)].  The effect does
    not depend on the type and does not run. *)
Definition setSearchType (id : string) (a : AutoSearch) : AutoSearch :=
  {| searchType := id;
     autoSearchEnabled := autoSearchEnabled a;
     autoSearchInterval := autoSearchInterval a;
     autoSearchRef := autoSearchRef a;
     intervals := intervals a;
     next_interval := next_interval a |}.

Inductive AutoSearchAction :=
| Toggle
| ChangeInterval (parsed : option Double)
| SelectType (id : string).

Definition autoSearch_step (a : AutoSearch) (action : AutoSearchAction) : AutoSearch :=
  match action with
  | Toggle => toggle_autoSearch a
  | ChangeInterval parsed => change_interval parsed a
  | SelectType id => setSearchType id a
  end.

Definition autoSearch_run (actions : list AutoSearchAction) : AutoSearch :=
  foldl autoSearch_step autoSearch_mount actions.

(** The actions after which the effect runs again: a click on the checkbox,
    and a number of minutes other than the one there is. *)
Definition reschedules (a : AutoSearch) (action : AutoSearchAction) : Prop :=
  match action with
  | Toggle => True
  | ChangeInterval parsed => default (Integer 0) parsed ≠ autoSearchInterval a
  | SelectType _ => False
  end.

(** What the effect keeps between two changes: an interval exactly when the
    search is enabled with a positive number of minutes, held by the ref. *)
Definition autoSearch_ok (a : AutoSearch) : Prop :=
  (1 ≤ next_interval a)%nat
  ∧ if autoSearchEnabled a && positive (autoSearchInterval a)
    then ∃ h, (1 ≤ h < next_interval a)%nat
              ∧ autoSearchRef a = Some h
              ∧ ∃ type, intervals a
                        = {[ h := {| interval_timeout :=
                                       times (times (autoSearchInterval a) 60) 1000;
                                     captured_searchType := type |} ]}
    else autoSearchRef a = None ∧ intervals a = ∅.

(** ** The contacts of an event *)

(** [array.filter((_, idx) => idx !== i)] *)
Definition filter_other_index {A} (i : nat) (l : list A) : list A :=
  snd <$> filter (λ p, p.1 ≠ i) (zip (seq 0 (length l)) l).

(** The cross beside the contact at index [i] of a rendered [event]. *)
Definition remove_contact `{Engine} (clock : Z) (event : SavedEvent) (i : nat) (st : State)
  : State :=
  updateSavedEvent clock (titulo event)
    (set_contactos (filter_other_index i (contactos event))) st.

(** A key pressed in the contact field of a rendered [event], with the text
    of the field. *)
Definition add_contact `{Engine} (clock : Z) (event : SavedEvent) (key value : string)
  (st : State) : State :=
  if decide (key = "Enter") then
    if JS.truthy_string (Some (trim value)) then
      updateSavedEvent clock (titulo event)
        (set_contactos (contactos event ++ [trim value])) st
    else st
  else st.

(** The select of the reminder of a rendered [event]: the empty option, or
    the lead time [parseInt] reads from the chosen option. *)
Definition choose_reminder `{Engine} (clock : Z) (event : SavedEvent) (lead : option Z)
  (st : State) : State :=
  updateSavedEvent clock (titulo event) (set_reminder lead) st.

(** The lead times the select offers: an hour, a day, a week. *)
Definition offered_leads : list Z :=
  [60 * 60 * 1000; 24 * 60 * 60 * 1000; 7 * 24 * 60 * 60 * 1000].

(** ** The text of the search answer *)

(** An item of [data.content]. *)
Record ContentItem := {
  item_type : string;
  item_text : string
}.

Definition newline : ascii := "010".

(** [texts.join('\n')] *)
Fixpoint join_lines (texts : list string) : string :=
  match texts with
  | [] => EmptyString
  | [t] => t
  | t :: rest => t +:+ String newline (join_lines rest)
  end.

(** The text of the answer: the text items of the content, one per line. *)
Definition textContent (content : list ContentItem) : string :=
  join_lines (item_text <$> filter (λ item, item_type item = "text") content).

(** [s] without [literal] at its start, when it starts with it. *)
Fixpoint strip_literal (literal s : string) : option string :=
  match literal, s with
  | EmptyString, _ => Some s
  | String a literal', String b s' =>
      if Ascii.eqb a b then strip_literal literal' s' else None
  | String _ _, EmptyString => None
  end.

Definition starts_with_newline (s : string) : bool :=
  match s with
  | String c _ => Ascii.eqb c newline
  | EmptyString => false
  end.

(** [s.replace(/literal\n?/g, '')] for a literal that is not empty: the text
    without the occurrences of the literal, found from left to right, and
    the line feed after each.  [skip] counts the code units of a match that
    are still to be dropped. *)
Fixpoint remove_all (literal : string) (skip : nat) (s : string) : string :=
  match s with
  | EmptyString => EmptyString
  | String c r =>
      match skip with
      | S k => remove_all literal k r
      | O =>
          match strip_literal literal s with
          | Some rest =>
              remove_all literal
                (String.length literal - 1 + (if starts_with_newline rest then 1 else 0))
                r
          | None => String c (remove_all literal 0 r)
          end
      end
  end.

Definition fence : string := "```".
Definition json_fence : string := "```json".

(** [cleanText]: the answer without its Markdown fences, trimmed. *)
Definition cleanText (textContent : string) : string :=
  trim (remove_all fence 0 (remove_all json_fence 0 textContent)).

Fixpoint contains_backtick (s : string) : bool :=
  match s with
  | EmptyString => false
  | String c r => Ascii.eqb c "`" || contains_backtick r
  end.

Definition is_backtick (c : ascii) : bool := Ascii.eqb "`" c.

(** The text holds a Markdown fence somewhere. *)
Fixpoint has_fence (s : string) : bool :=
  match strip_literal fence s with
  | Some _ => true
  | None =>
      match s with
      | EmptyString => false
      | String _ r => has_fence r
      end
  end.

(** ** Texts and calendar days *)

Fixpoint contains_hyphen (s : string) : bool :=
  match s with
  | EmptyString => false
  | String c r => JS.is_hyphen c || contains_hyphen r
  end.

Fixpoint all_white_space (s : string) : bool :=
  match s with
  | EmptyString => true
  | String c r => JS.is_white_space c && all_white_space r
  end.

Fixpoint ends_with_white_space (s : string) : bool :=
  match s with
  | EmptyString => false
  | String c EmptyString => JS.is_white_space c
  | String _ r => ends_with_white_space r
  end.

(** The year, month and day that a text of the Date Text Grammar names, when
    they are a day of the calendar. *)
Definition calendar_day (s : string) : option (Z * Z * Z) :=
  if matches_date_text s then
    match JS.digits_value 0 (string_take 4 (string_drop 6 s)),
          JS.digits_value 0 (string_take 2 (string_drop 3 s)),
          JS.digits_value 0 (string_take 2 s) with
    | Some y, Some m, Some d =>
        if (1 <=? m) && (m <=? 12) && (1 <=? d) && (d <=? JS.DaysInMonth y m)
        then Some (y, m, d)
        else None
    | _, _, _ => None
    end
  else None.

(** A day of the calendar: a month from 1 to 12 and a day of that month. *)
Definition is_calendar_day (a : Z * Z * Z) : Prop :=
  1 ≤ a.1.2 ≤ 12 ∧ 1 ≤ a.2 ≤ JS.DaysInMonth a.1.1 a.1.2.

(** One day of the calendar comes before another. *)
Definition day_before (a b : Z * Z * Z) : Prop :=
  a.1.1 < b.1.1
  ∨ (a.1.1 = b.1.1 ∧ (a.1.2 < b.1.2 ∨ (a.1.2 = b.1.2 ∧ a.2 < b.2))).

(** The buckets the grouping builds: for each key the events of that key, in
    their order. *)
Definition buckets (keys : list string) (events : list SavedEvent)
  : list (string * list SavedEvent) :=
  (λ k, (k, filter (λ e, dateKey e = k) events)) <$> keys.

(** * Proofs *)

(** ** The model on examples *)

Example split_range_first_range :
  JS.split_range_first "12/07/2025  -  15/07/2025" = "12/07/2025".
Proof. reflexivity. Qed.

Example split_range_first_inner_space :
  JS.split_range_first "a  b-c" = "a  b".
Proof. reflexivity. Qed.

Example split_slash_fields : JS.split_slash "12/07/2025" = ["12"; "07"; "2025"].
Proof. reflexivity. Qed.

Example parseDate_single :
  parseDate (H := sample_engine) "12/07/2025"
  = Some {| JS.getTime := Some 1752278400000 |}.
Proof. reflexivity. Qed.

Example parseDate_no_year : parseDate (H := sample_engine) "12/07" = None.
Proof. reflexivity. Qed.

Example parseDate_empty_month : parseDate (H := sample_engine) "12//2025" = None.
Proof. reflexivity. Qed.

(** Fields that are not numbers give a date object, an invalid one. *)
Example parseDate_words :
  parseDate (H := sample_engine) "aa/bb/cccc" = Some {| JS.getTime := None |}.
Proof. reflexivity. Qed.

(** The scenario of the specification, on 9 July 2025: a reminder one day
    before the event is armed for midnight UTC of 11 July 2025, and promoting
    the event clears it. *)
Example beach_party_scenario :
  let saved := saveEvent (H := sample_engine) 1752000000000 beach_party
                 (mount 1752000000000) in
  let reminded :=
    updateSavedEvent (H := sample_engine) 1752000000000 "Beach Party"
      (set_reminder (Some 86400000)) saved in
  let attended :=
    markAsAttended (H := sample_engine) 1752000000000 "Beach Party" reminded in
  savedEvents saved = [blank_annotations beach_party]
  ∧ timeout_delay <$> (pending (window reminded) !! 1%nat) = Some 192000000
  ∧ timeout_due <$> (pending (window reminded) !! 1%nat) = Some 1752192000000
  ∧ savedEvents attended = []
  ∧ estado <$> historyEvents attended = ["asistido"]
  ∧ pending (window attended) !! 1%nat = None.
Proof. split_and!; reflexivity. Qed.

(** The same reminder chosen in January: the delay does not fit a [long] and
    the window runs the handler at once. *)
Example beach_party_far_ahead :
  let reminded :=
    updateSavedEvent (H := sample_engine) 1736000000000 "Beach Party"
      (set_reminder (Some 86400000))
      (saveEvent (H := sample_engine) 1736000000000 beach_party (mount 1736000000000)) in
  timeout_delay <$> (pending (window reminded) !! 1%nat) = Some 16192000000
  ∧ timeout_due <$> (pending (window reminded) !! 1%nat) = Some 1736000000000
  ∧ alerts (window (elapse 1736000000000 reminded))
    = [reminder_message (blank_annotations beach_party)].
Proof. split_and!; reflexivity. Qed.

Example import_error_code_units : String.length import_error = 70%nat.
Proof. reflexivity. Qed.

(** ** Searching an array *)

Section Find.
Context {A : Type} (P : A → Prop) `{∀ x, Decision (P x)}.

Lemma find_Some_first (l : list A) (x : A) :
  JS.find P l = Some x ↔
  ∃ l1 l2, l = l1 ++ x :: l2 ∧ P x ∧ Forall (λ y, ¬ P y) l1.
Proof.
  unfold JS.find. split.
  - destruct (list_find P l) as [[i y]|] eqn:E; [|done].
    intros [= ->]. apply list_find_Some in E as (Hi & HP & Hbefore).
    exists (take i l), (drop (S i) l). split_and!; [|done|].
    + by rewrite take_drop_middle.
    + apply Forall_forall. intros y Hy.
      apply list_elem_of_lookup in Hy as [j Hj].
      pose proof (lookup_lt_Some _ _ _ Hj) as Hlt.
      rewrite length_take in Hlt.
      rewrite lookup_take_lt in Hj by lia.
      eapply Hbefore; [done|lia].
  - intros (l1 & l2 & -> & HP & Hbefore).
    assert (list_find P (l1 ++ x :: l2) = Some (length l1, x)) as ->; [|done].
    apply list_find_Some. split_and!; [|done|].
    + by rewrite list_lookup_middle.
    + intros j y Hj Hlt. rewrite lookup_app_l in Hj by done.
      rewrite Forall_forall in Hbefore. apply Hbefore.
      apply list_elem_of_lookup. eauto.
Qed.

Lemma find_None_iff (l : list A) :
  JS.find P l = None ↔ Forall (λ y, ¬ P y) l.
Proof.
  unfold JS.find. rewrite fmap_None. apply list_find_None.
Qed.

Lemma find_is_Some (l : list A) :
  is_Some (JS.find P l) ↔ ∃ x, x ∈ l ∧ P x.
Proof.
  rewrite <- not_eq_None_Some, find_None_iff. split.
  - intros Hn. apply not_Forall_Exists in Hn; [|solve_decision].
    apply Exists_exists in Hn as (x & Hx & HP). exists x. split; [done|].
    by apply dec_stable.
  - intros (x & Hx & HP) Hall. rewrite Forall_forall in Hall. by eapply Hall.
Qed.
End Find.

(** ** Titles *)

Lemma elem_of_titles (title : string) (events : list SavedEvent) :
  title ∈ titles events ↔ ∃ e, e ∈ events ∧ titulo e = title.
Proof.
  unfold titles. rewrite list_elem_of_fmap. split.
  - intros (e & -> & He). eauto.
  - intros (e & He & <-). eauto.
Qed.

Lemma titles_app (l1 l2 : list SavedEvent) : titles (l1 ++ l2) = titles l1 ++ titles l2.
Proof. apply fmap_app. Qed.

Lemma find_title_None (title : string) (events : list SavedEvent) :
  JS.find (λ e, titulo e = title) events = None ↔ title ∉ titles events.
Proof.
  rewrite find_None_iff, Forall_forall, elem_of_titles. split.
  - intros Hall (e & He & Ht). by eapply Hall.
  - intros Hn e He Ht. apply Hn. eauto.
Qed.

Lemma titles_filter_other (title : string) (events : list SavedEvent) :
  title ∉ titles (filter (λ e, titulo e ≠ title) events).
Proof.
  rewrite elem_of_titles. intros (e & He & Ht).
  apply list_elem_of_filter in He as [Hne _]. done.
Qed.

Lemma titles_filter_subset (title t : string) (events : list SavedEvent) :
  t ∈ titles (filter (λ e, titulo e ≠ title) events) → t ∈ titles events.
Proof.
  rewrite !elem_of_titles. intros (e & He & Ht).
  apply list_elem_of_filter in He as [_ He]. eauto.
Qed.

Lemma filter_title_absent (title : string) (events : list SavedEvent) :
  title ∉ titles events → filter (λ e, titulo e ≠ title) events = events.
Proof.
  intros Hn. induction events as [|e l IH]; [done|].
  rewrite filter_cons. unfold titles in *. rewrite fmap_cons, not_elem_of_cons in Hn.
  destruct Hn as [Hne Hn]. rewrite decide_True by done. f_equal. by apply IH.
Qed.

(** ** The cells of the state *)

Section Cells.
Context `{Engine}.

Lemma savedEvents_set clock next st :
  savedEvents (setSavedEvents clock next st) = next.
Proof. unfold setSavedEvents. by destruct (run_effect _ _ _). Qed.

Lemma historyEvents_set clock next st :
  historyEvents (setSavedEvents clock next st) = historyEvents st.
Proof. unfold setSavedEvents. by destruct (run_effect _ _ _). Qed.

Lemma now_set clock next st : now (setSavedEvents clock next st) = clock.
Proof. unfold setSavedEvents. by destruct (run_effect _ _ _). Qed.
End Cells.

(** ** Saving *)

Section Saving.
Context `{Engine}.

Lemma saveEvent_present clock event st :
  c_titulo event ∈ titles (savedEvents st) → saveEvent clock event st = st.
Proof.
  intros Hin. unfold saveEvent.
  destruct (JS.find _ _) eqn:E; [done|].
  by apply find_title_None in E.
Qed.

Lemma saveEvent_absent clock event st :
  c_titulo event ∉ titles (savedEvents st) →
  saveEvent clock event st
  = setSavedEvents clock (savedEvents st ++ [blank_annotations event]) st.
Proof.
  intros Hn. unfold saveEvent. apply find_title_None in Hn. by rewrite Hn.
Qed.

Lemma saveEvent_title_saved clock event st :
  c_titulo event ∈ titles (savedEvents (saveEvent clock event st)).
Proof.
  destruct (decide (c_titulo event ∈ titles (savedEvents st))) as [Hin|Hn].
  - by rewrite saveEvent_present.
  - rewrite saveEvent_absent, savedEvents_set, titles_app by done.
    apply elem_of_app. right. apply list_elem_of_singleton. done.
Qed.

Lemma count_title_absent (title : string) (events : list SavedEvent) :
  title ∉ titles events → filter (λ e, titulo e = title) events = [].
Proof.
  intros Hn. induction events as [|e l IH]; [done|].
  unfold titles in Hn. rewrite fmap_cons, not_elem_of_cons in Hn.
  destruct Hn as [Hne Hn]. rewrite filter_cons, decide_False by done. by apply IH.
Qed.
End Saving.

(** C6.  [save] is idempotent with respect to the title: when the agenda
    already has an event of the candidate's title [saveEvent] changes
    nothing, so a second save of the same title (whatever the rest of the
    candidate) changes nothing after the first, and starting from an agenda
    without the title the two saves leave exactly one event of that title. *)
Theorem saveEvent_idempotent `{Engine} (clock clock' : Z) (event event' : CandidateEvent)
  (st : State) :
  c_titulo event' = c_titulo event →
  (c_titulo event ∈ titles (savedEvents st) → saveEvent clock event st = st)
  ∧ saveEvent clock' event' (saveEvent clock event st) = saveEvent clock event st
  ∧ (c_titulo event ∉ titles (savedEvents st) →
     length (filter (λ e, titulo e = c_titulo event)
               (savedEvents (saveEvent clock' event' (saveEvent clock event st)))) = 1%nat).
Proof.
  intros Htitle.
  assert (saveEvent clock' event' (saveEvent clock event st) = saveEvent clock event st)
    as Hsecond.
  { apply saveEvent_present. rewrite Htitle. apply saveEvent_title_saved. }
  split_and!; [apply saveEvent_present|done|].
  intros Hn. rewrite Hsecond, saveEvent_absent, savedEvents_set by done.
  rewrite filter_app, count_title_absent by done.
  rewrite filter_cons, decide_True by done. done.
Qed.

Lemma saveEvent_idempotent_witness :
  length (filter (λ e, titulo e = "Beach Party")
            (savedEvents (saveEvent (H := sample_engine) 5 beach_party
                            (saveEvent (H := sample_engine) 1 beach_party (mount 0)))))
  = 1%nat.
Proof.
  refine (proj2 (proj2 (saveEvent_idempotent (H := sample_engine) 1 5
                          beach_party beach_party (mount 0) eq_refl)) _).
  vm_compute. apply not_elem_of_nil.
Defined.

(** C7.  [save] looks for the title in the agenda only: when the title is in
    the history and not in the agenda, [saveEvent] appends a new event to the
    agenda, with the candidate's properties (a candidate without [fecha]
    gives an event without), empty notes, unset status, no contacts, no
    reminder and the candidate's [tipo] (or the empty string) as category;
    the history is left as it is. *)
Theorem saveEvent_ignores_history `{Engine} (clock : Z) (event : CandidateEvent) (st : State) :
  c_titulo event ∈ titles (historyEvents st) →
  c_titulo event ∉ titles (savedEvents st) →
  ∃ e,
    savedEvents (saveEvent clock event st) = savedEvents st ++ [e]
    ∧ historyEvents (saveEvent clock event st) = historyEvents st
    ∧ titulo e = c_titulo event ∧ fecha e = c_fecha event
    ∧ ubicacion e = c_ubicacion event ∧ tipo e = c_tipo event
    ∧ descripcion e = c_descripcion event ∧ fuente e = c_fuente event
    ∧ notas e = "" ∧ estado e = "" ∧ contactos e = [] ∧ reminder e = None
    ∧ category e = match c_tipo event with Some t => t | None => "" end
    ∧ fecha_property e = c_fecha_property event.
Proof.
  intros _ Hn. exists (blank_annotations event).
  rewrite saveEvent_absent, savedEvents_set, historyEvents_set by done.
  split_and!; try done.
  unfold blank_annotations; simpl. by destruct (c_tipo event) as [[|??]|].
Qed.

Lemma saveEvent_ignores_history_witness :
  let st := markAsAttended (H := sample_engine) 2 "Beach Party"
              (saveEvent (H := sample_engine) 1 beach_party (mount 0)) in
  ∃ e, savedEvents (saveEvent (H := sample_engine) 3 beach_party st) = savedEvents st ++ [e]
       ∧ estado e = "" ∧ reminder e = None.
Proof.
  intros st.
  destruct (saveEvent_ignores_history (H := sample_engine) 3 beach_party st)
    as (e & Hs & _ & _ & _ & _ & _ & _ & _ & _ & He & _ & Hr & _).
  - vm_compute. apply list_elem_of_singleton. done.
  - vm_compute. apply not_elem_of_nil.
  - exists e. done.
Defined.

(** ** Moving an event to the history *)

Section Attending.
Context `{Engine}.

Lemma markAsAttended_found clock title event st :
  JS.find (λ e, titulo e = title) (savedEvents st) = Some event →
  markAsAttended clock title st
  = setHistoryEvents (historyEvents st ++ [assign (set_estado "asistido") event])
      (setSavedEvents clock (filter (λ e, titulo e ≠ title) (savedEvents st)) st).
Proof. intros E. unfold markAsAttended. by rewrite E. Qed.

Lemma markAsAttended_absent clock title st :
  title ∉ titles (savedEvents st) → markAsAttended clock title st = st.
Proof.
  intros Hn. unfold markAsAttended. apply find_title_None in Hn. by rewrite Hn.
Qed.

Lemma markAsAttended_saved clock title st :
  savedEvents (markAsAttended clock title st)
  = filter (λ e, titulo e ≠ title) (savedEvents st).
Proof.
  unfold markAsAttended. destruct (JS.find _ _) eqn:E.
  - simpl. apply savedEvents_set.
  - apply find_title_None in E. by rewrite filter_title_absent.
Qed.

Lemma markAsAttended_history clock title st :
  historyEvents (markAsAttended clock title st)
  = historyEvents st
    ++ match JS.find (λ e, titulo e = title) (savedEvents st) with
       | Some event => [assign (set_estado "asistido") event]
       | None => []
       end.
Proof.
  unfold markAsAttended. destruct (JS.find _ _); simpl.
  - done.
  - by rewrite app_nil_r.
Qed.
End Attending.

(** C5.  For a title of the agenda, [promoteToHistory] takes every event of
    that title out of the agenda (the other events stay as they are) and
    appends exactly one event to the history, an event of that title taken
    from the agenda with its status set to attended; a second call on the
    same title returns the state unchanged. *)
Theorem markAsAttended_moves `{Engine} (clock clock' : Z) (title : string) (st : State) :
  title ∈ titles (savedEvents st) →
  (title ∉ titles (savedEvents (markAsAttended clock title st)))
  ∧ savedEvents (markAsAttended clock title st)
    = filter (λ e, titulo e ≠ title) (savedEvents st)
  ∧ (∃ e, e ∈ savedEvents st ∧ titulo e = title
          ∧ historyEvents (markAsAttended clock title st)
            = historyEvents st ++ [assign (set_estado "asistido") e]
          ∧ estado (assign (set_estado "asistido") e) = "asistido"
          ∧ titulo (assign (set_estado "asistido") e) = title)
  ∧ markAsAttended clock' title (markAsAttended clock title st)
    = markAsAttended clock title st.
Proof.
  intros Hin.
  assert (title ∉ titles (savedEvents (markAsAttended clock title st))) as Hgone.
  { rewrite markAsAttended_saved. apply titles_filter_other. }
  split_and!; [done|apply markAsAttended_saved| |by apply markAsAttended_absent].
  rewrite markAsAttended_history.
  destruct (JS.find _ _) as [e|] eqn:E.
  - apply find_Some_first in E as (l1 & l2 & Hl & Ht & _).
    exists e. split_and!; try done.
    rewrite Hl. apply elem_of_app. right. apply list_elem_of_here.
  - by apply find_title_None in E.
Qed.

Lemma markAsAttended_moves_witness :
  let st := saveEvent (H := sample_engine) 1 beach_party (mount 0) in
  ("Beach Party" ∉ titles (savedEvents (markAsAttended (H := sample_engine) 2 "Beach Party" st)))
  ∧ markAsAttended (H := sample_engine) 3 "Beach Party"
      (markAsAttended (H := sample_engine) 2 "Beach Party" st)
    = markAsAttended (H := sample_engine) 2 "Beach Party" st.
Proof.
  intros st.
  destruct (markAsAttended_moves (H := sample_engine) 2 3 "Beach Party" st)
    as (Hgone & _ & _ & Hagain).
  - vm_compute. apply list_elem_of_singleton. done.
  - split; assumption.
Defined.

(** C10.  When the agenda holds two or more events of one title,
    [promoteToHistory] of that title takes all of them out of the agenda and
    appends one event to the history: the first of them, with its status set
    to attended and every other property as that event has it, its date,
    notes, contacts and reminder among them.  The later ones are in neither
    collection afterwards. *)
Theorem markAsAttended_duplicates `{Engine} (clock : Z) (title : string) (st : State)
  (before after : list SavedEvent) (first other : SavedEvent) :
  savedEvents st = before ++ first :: after →
  title ∉ titles before →
  titulo first = title →
  other ∈ after → titulo other = title →
  savedEvents (markAsAttended clock title st)
  = before ++ filter (λ e, titulo e ≠ title) after
  ∧ (title ∉ titles (savedEvents (markAsAttended clock title st)))
  ∧ (other ∉ savedEvents (markAsAttended clock title st))
  ∧ historyEvents (markAsAttended clock title st)
    = historyEvents st ++ [assign (set_estado "asistido") first]
  ∧ length (historyEvents (markAsAttended clock title st))
    = S (length (historyEvents st))
  ∧ (length (savedEvents (markAsAttended clock title st)) + 2
     ≤ length (savedEvents st))%nat
  ∧ (∃ entry,
       historyEvents (markAsAttended clock title st) = historyEvents st ++ [entry]
       ∧ estado entry = "asistido"
       ∧ titulo entry = titulo first ∧ fecha_property entry = fecha_property first
       ∧ ubicacion entry = ubicacion first ∧ tipo entry = tipo first
       ∧ descripcion entry = descripcion first ∧ fuente entry = fuente first
       ∧ notas entry = notas first ∧ contactos entry = contactos first
       ∧ reminder entry = reminder first ∧ category entry = category first).
Proof.
  intros Hsaved Hbefore Hfirst Hother Htitle.
  assert (JS.find (λ e, titulo e = title) (savedEvents st) = Some first) as Hfind.
  { apply find_Some_first. exists before, after. split_and!; [done..|].
    apply Forall_forall. intros e He Ht. apply Hbefore, elem_of_titles. eauto. }
  assert (savedEvents (markAsAttended clock title st)
          = before ++ filter (λ e, titulo e ≠ title) after) as Hnew.
  { rewrite markAsAttended_saved, Hsaved, filter_app, filter_cons.
    rewrite decide_False by (intros Hne; by apply Hne).
    by rewrite filter_title_absent. }
  split_and!.
  - done.
  - rewrite markAsAttended_saved. apply titles_filter_other.
  - rewrite markAsAttended_saved. intros Hin.
    apply list_elem_of_filter in Hin as [Hne _]. done.
  - by rewrite markAsAttended_history, Hfind.
  - rewrite markAsAttended_history, Hfind, length_app. simpl. lia.
  - rewrite Hnew, Hsaved, !length_app. simpl.
    pose proof (length_filter_lt (λ e, titulo e ≠ title) after other Hother) as Hlt.
    assert (¬ titulo other ≠ title) as Hnn by (intros Hne; by apply Hne).
    specialize (Hlt Hnn). lia.
  - rewrite markAsAttended_history, Hfind. eexists. split; [done|].
    split_and!; reflexivity.
Qed.

Lemma markAsAttended_duplicates_witness :
  let regatta' := assign (set_notas "front row") regatta in
  let st := importAgenda (H := sample_engine) 3 (Some "agenda")
              (updateSavedEvent (H := sample_engine) 2 "Regatta" (set_notas "front row")
                 (importAgenda (H := sample_engine) 1 (Some "agenda") (mount 0))) in
  savedEvents st = [regatta'; regatta]
  ∧ savedEvents (markAsAttended (H := sample_engine) 4 "Regatta" st) = []
  ∧ ∃ entry,
      historyEvents (markAsAttended (H := sample_engine) 4 "Regatta" st)
      = historyEvents st ++ [entry]
      ∧ estado entry = "asistido"
      ∧ notas entry = "front row"
      ∧ contactos entry = ["Ana"]
      ∧ reminder entry = Some 3600000.
Proof.
  intros regatta' st.
  destruct (markAsAttended_duplicates (H := sample_engine) 4 "Regatta" st
              [] [regatta] regatta' regatta)
    as (Hsaved & _ & _ & _ & _ & _ & (entry & Hhistory & Hestado & _ & _ & _ & _ & _ & _
                                      & Hnotas & Hcontactos & Hreminder & _)).
  - reflexivity.
  - vm_compute. apply not_elem_of_nil.
  - reflexivity.
  - apply list_elem_of_singleton. reflexivity.
  - reflexivity.
  - split; [reflexivity|]. split; [exact Hsaved|].
    exists entry. split_and!; [exact Hhistory|exact Hestado|exact Hnotas|
                               exact Hcontactos|exact Hreminder].
Defined.

(** ** Importing *)

Section Importing.
Context `{Engine}.

Lemma import_onload_saved clock text st :
  savedEvents (import_onload clock text st)
  = savedEvents st
    ++ match JSON_parse text with
       | JsonValue (Some events) _ => events
       | _ => []
       end.
Proof.
  unfold import_onload.
  destruct (JSON_parse text) as [| |[saved|] [history|]]; simpl;
    rewrite ?savedEvents_set, ?app_nil_r; done.
Qed.

Lemma import_onload_history clock text st :
  historyEvents (import_onload clock text st)
  = historyEvents st
    ++ match JSON_parse text with
       | JsonValue _ (Some events) => events
       | _ => []
       end.
Proof.
  unfold import_onload.
  destruct (JSON_parse text) as [| |[saved|] [history|]]; simpl;
    rewrite ?historyEvents_set, ?app_nil_r; done.
Qed.

Lemma schedule_alerts clock acc e : alerts (schedule clock acc e).2 = alerts acc.2.
Proof. unfold schedule. repeat (case_match; simpl; try done). Qed.

Lemma foldl_schedule_alerts clock events acc :
  alerts (foldl (schedule clock) acc events).2 = alerts acc.2.
Proof.
  revert acc. induction events as [|e l IH]; intros acc; simpl; [done|].
  by rewrite IH, schedule_alerts.
Qed.

Lemma cleanup_alerts ts w : alerts (cleanup ts w) = alerts w.
Proof.
  revert w. induction ts as [|t l IH]; intros w; simpl; [done|]. by rewrite IH.
Qed.

Lemma setSavedEvents_alerts clock next st :
  alerts (window (setSavedEvents clock next st)) = alerts (window st).
Proof.
  unfold setSavedEvents. destruct (run_effect _ _ _) as [ts w] eqn:E. simpl.
  unfold run_effect in E.
  pose proof (foldl_schedule_alerts clock next ([], cleanup (timers st) (window st)))
    as Hfold.
  rewrite E in Hfold. simpl in Hfold. by rewrite Hfold, cleanup_alerts.
Qed.

Lemma import_onload_alerts clock text saved history st :
  JSON_parse text = JsonValue saved history →
  alerts (window (import_onload clock text st)) = alerts (window st).
Proof.
  intros E. unfold import_onload. rewrite E.
  destruct saved, history; simpl; by rewrite ?setSavedEvents_alerts.
Qed.
End Importing.

(** C8.  For a snapshot with [k] saved entries and [m] history entries,
    the import appends the entries to the two collections in their order and
    without looking for duplicates: the agenda grows by exactly [k] and the
    history by exactly [m], the entries that were there keep their place and
    content, and no alert is shown. *)
Theorem import_appends `{Engine} (clock : Z) (text : string) (st : State)
  (saved history : list SavedEvent) :
  JSON_parse text = JsonValue (Some saved) (Some history) →
  savedEvents (importAgenda clock (Some text) st) = savedEvents st ++ saved
  ∧ historyEvents (importAgenda clock (Some text) st) = historyEvents st ++ history
  ∧ length (savedEvents (importAgenda clock (Some text) st))
    = (length (savedEvents st) + length saved)%nat
  ∧ length (historyEvents (importAgenda clock (Some text) st))
    = (length (historyEvents st) + length history)%nat
  ∧ alerts (window (importAgenda clock (Some text) st)) = alerts (window st).
Proof.
  intros E. simpl.
  rewrite import_onload_saved, import_onload_history, E, !length_app.
  split_and!; try done. by eapply import_onload_alerts.
Qed.

Lemma import_appends_witness :
  let st := importAgenda (H := sample_engine) 1 (Some "agenda") (mount 0) in
  savedEvents (importAgenda (H := sample_engine) 2 (Some "agenda") st) = [regatta; regatta]
  ∧ length (historyEvents (importAgenda (H := sample_engine) 2 (Some "agenda") st)) = 2%nat.
Proof.
  intros st.
  destruct (import_appends (H := sample_engine) 2 "agenda" st
              [regatta] [dated "Gala" "01/06/2025"] eq_refl)
    as (Hsaved & _ & _ & Hlen & _).
  split; [exact Hsaved|exact Hlen].
Defined.

(** C9.  When the text of the file cannot be parsed, the import shows one
    alert and changes nothing else: the agenda, the history and the pending
    reminders are as before. *)
Theorem import_malformed `{Engine} (clock : Z) (text : string) (st : State) :
  JSON_parse text = SyntaxError →
  savedEvents (importAgenda clock (Some text) st) = savedEvents st
  ∧ historyEvents (importAgenda clock (Some text) st) = historyEvents st
  ∧ timers (importAgenda clock (Some text) st) = timers st
  ∧ pending (window (importAgenda clock (Some text) st)) = pending (window st)
  ∧ ∃ message, alerts (window (importAgenda clock (Some text) st))
               = alerts (window st) ++ [message].
Proof.
  intros E. simpl. unfold import_onload. rewrite E. simpl.
  split_and!; try done. eauto.
Qed.

Lemma import_malformed_witness :
  let st := saveEvent (H := sample_engine) 1 beach_party (mount 0) in
  savedEvents (importAgenda (H := sample_engine) 2 (Some "{savedEvents:") st) = savedEvents st
  ∧ length (alerts (window (importAgenda (H := sample_engine) 2 (Some "{savedEvents:") st)))
    = 1%nat.
Proof.
  intros st.
  destruct (import_malformed (H := sample_engine) 2 "{savedEvents:" st eq_refl)
    as (Hsaved & _ & _ & _ & message & Halerts).
  split; [exact Hsaved|]. rewrite Halerts. reflexivity.
Defined.

(** ** Titles across the two collections *)

Section Apart.
Context `{Engine}.

Lemma titulo_assign a e :
  (∀ v, a ≠ set_titulo v) → titulo (assign a e) = titulo e.
Proof. intros Ha. destruct a; simpl; try done. by destruct (Ha value). Qed.

Lemma titles_update title a events :
  (∀ v, a ≠ set_titulo v) →
  titles (map (λ e, if decide (titulo e = title) then assign a e else e) events)
  = titles events.
Proof.
  intros Ha. unfold titles. induction events as [|e l IH]; [done|].
  simpl map. rewrite !fmap_cons, IH. f_equal.
  case_decide; [by apply titulo_assign|done].
Qed.

Lemma markAsAttended_history_titles clock title st t :
  t ∈ titles (historyEvents (markAsAttended clock title st)) →
  t ∈ titles (historyEvents st) ∨ t = title.
Proof.
  rewrite markAsAttended_history, titles_app, elem_of_app.
  intros [Hin|Hin]; [by left|right].
  destruct (JS.find _ _) as [e|] eqn:E; simpl in Hin.
  - apply list_elem_of_singleton in Hin as ->.
    by apply find_Some_first in E as (_ & _ & _ & Ht & _).
  - by apply elem_of_nil in Hin.
Qed.
End Apart.

(** C4 (amended).  That no title is in both collections is kept by [remove]
    and [promoteToHistory], by [update] of any property but the title, by
    [save] of a candidate whose title is not in the history, and by
    [mergeSnapshot] of a snapshot that brings no title into both collections. *)
Theorem disjoint_titles_kept `{Engine} (clock : Z) (op : Operation) (st : State) :
  disjoint_titles st → keeps_apart op st → disjoint_titles (perform clock op st).
Proof.
  intros Hdis Hop t [Hs Hh]. destruct op as [event|title a|title|title|[text|]]; simpl in *.
  - destruct (decide (c_titulo event ∈ titles (savedEvents st))) as [Hin|Hn].
    + rewrite saveEvent_present in Hs, Hh by done. by apply (Hdis t).
    + rewrite saveEvent_absent in Hs, Hh by done.
      rewrite savedEvents_set, titles_app, elem_of_app in Hs.
      rewrite historyEvents_set in Hh.
      destruct Hs as [Hs|Hs]; [by apply (Hdis t)|].
      apply list_elem_of_singleton in Hs. simpl in Hs. by subst t.
  - unfold updateSavedEvent in Hs, Hh.
    rewrite savedEvents_set in Hs. rewrite historyEvents_set in Hh.
    rewrite titles_update in Hs; [by apply (Hdis t)|].
    intros v ->. done.
  - unfold removeEvent in Hs, Hh.
    rewrite savedEvents_set in Hs. rewrite historyEvents_set in Hh.
    apply titles_filter_subset in Hs. by apply (Hdis t).
  - rewrite markAsAttended_saved in Hs.
    apply markAsAttended_history_titles in Hh as [Hh| ->].
    + apply titles_filter_subset in Hs. by apply (Hdis t).
    + by apply titles_filter_other in Hs.
  - rewrite import_onload_saved in Hs. rewrite import_onload_history in Hh.
    destruct (JSON_parse text) as [| |saved history]; rewrite ?app_nil_r in Hs, Hh.
    + by apply (Hdis t).
    + by apply (Hdis t).
    + apply (Hop t). split; [exact Hs|exact Hh].
  - by apply (Hdis t).
Qed.

Lemma disjoint_titles_kept_witness :
  disjoint_titles
    (perform (H := sample_engine) 2 (Promote "Beach Party")
       (saveEvent (H := sample_engine) 1 beach_party (mount 0))).
Proof.
  apply (disjoint_titles_kept (H := sample_engine) 2 (Promote "Beach Party")
           (saveEvent (H := sample_engine) 1 beach_party (mount 0))).
  - intros t [_ Hh]. vm_compute in Hh. by apply elem_of_nil in Hh.
  - exact I.
Defined.

(** C4 as stated fails: saving, promoting and saving again the same
    candidate leaves its title in both collections. *)
Lemma disjoint_titles_broken :
  let st := perform (H := sample_engine) 3 (Save beach_party)
              (perform (H := sample_engine) 2 (Promote "Beach Party")
                 (perform (H := sample_engine) 1 (Save beach_party) (mount 0))) in
  reachable (H := sample_engine) st ∧ ¬ disjoint_titles st.
Proof.
  intros st. split.
  - repeat apply reachable_perform. apply reachable_mount.
  - intros Hdis. apply (Hdis "Beach Party").
    split; vm_compute; apply list_elem_of_singleton; reflexivity.
Qed.

(** ** Sorting with a comparison that follows a key *)

Section Sorting.
Context {A : Type} (comparefn : A → A → option Z) (key : A → Z).

Local Abbreviation follows_key := (follows_key comparefn key).

Lemma follows_key_cons x l : follows_key (x :: l) → follows_key l.
Proof. intros Hk a b Ha Hb. apply Hk; by right. Qed.

Lemma sort_insert_perm x l : JS.sort_insert comparefn x l ≡ₚ x :: l.
Proof.
  induction l as [|y l IH]; simpl; [done|].
  case_match; [|done]. rewrite IH. apply Permutation_swap.
Qed.

Lemma sort_perm l : JS.sort comparefn l ≡ₚ l.
Proof.
  induction l as [|x l IH]; simpl; [done|].
  fold (JS.sort comparefn l). by rewrite sort_insert_perm, IH.
Qed.

Lemma sort_insert_sorted x l :
  follows_key (x :: l) →
  StronglySorted (λ a b, key a ≤ key b) l →
  StronglySorted (λ a b, key a ≤ key b) (JS.sort_insert comparefn x l).
Proof.
  intros Hk Hs. induction l as [|y l IH]; simpl.
  - repeat constructor.
  - apply StronglySorted_cons in Hs as [Hy Hs].
    unfold JS.SortCompare. rewrite Hk by (rewrite !elem_of_cons; auto). simpl.
    destruct (Z.ltb_spec 0 (key x - key y)) as [Hlt|Hge].
    + apply StronglySorted_cons. split.
      * rewrite sort_insert_perm. constructor; [lia|done].
      * apply IH; [|done]. intros a b Ha Hb. apply Hk.
        -- apply elem_of_cons in Ha as [->|Ha]; [by left|by do 2 right].
        -- apply elem_of_cons in Hb as [->|Hb]; [by left|by do 2 right].
    + apply StronglySorted_cons. split.
      * constructor; [lia|]. eapply Forall_impl; [exact Hy|]. simpl. intros. lia.
      * by apply StronglySorted_cons.
Qed.

Lemma sort_sorted l :
  follows_key l → StronglySorted (λ a b, key a ≤ key b) (JS.sort comparefn l).
Proof.
  induction l as [|x l IH]; intros Hk; simpl; [constructor|].
  fold (JS.sort comparefn l). apply sort_insert_sorted.
  - intros a b Ha Hb. apply Hk.
    + apply elem_of_cons in Ha as [->|Ha]; [by left|right]. by rewrite <- (sort_perm l).
    + apply elem_of_cons in Hb as [->|Hb]; [by left|right]. by rewrite <- (sort_perm l).
  - by eapply IH, follows_key_cons.
Qed.

(** The sort is stable: elements of one key keep their order. *)
Lemma sort_insert_stable x l v :
  follows_key (x :: l) →
  filter (λ a, key a = v) (JS.sort_insert comparefn x l)
  = filter (λ a, key a = v) (x :: l).
Proof.
  intros Hk. induction l as [|y l IH]; simpl; [done|].
  unfold JS.SortCompare. rewrite Hk by (rewrite !elem_of_cons; auto). simpl.
  destruct (Z.ltb_spec 0 (key x - key y)) as [Hlt|Hge]; [|done].
  rewrite (filter_cons _ y), IH.
  - rewrite !filter_cons.
    destruct (decide (key y = v)), (decide (key x = v)); try done. lia.
  - intros a b Ha Hb. apply Hk.
    + apply elem_of_cons in Ha as [->|Ha]; [by left|by do 2 right].
    + apply elem_of_cons in Hb as [->|Hb]; [by left|by do 2 right].
Qed.

Lemma sort_stable l v :
  follows_key l →
  filter (λ a, key a = v) (JS.sort comparefn l) = filter (λ a, key a = v) l.
Proof.
  induction l as [|x l IH]; intros Hk; simpl; [done|].
  fold (JS.sort comparefn l). rewrite sort_insert_stable.
  - rewrite !filter_cons, IH; [done|by eapply follows_key_cons].
  - intros a b Ha Hb. apply Hk.
    + apply elem_of_cons in Ha as [->|Ha]; [by left|right]. by rewrite <- (sort_perm l).
    + apply elem_of_cons in Hb as [->|Hb]; [by left|right]. by rewrite <- (sort_perm l).
Qed.

(** In a sorted list an element of smaller key comes before one of larger
    key. *)
Lemma sorted_precedes l a b :
  StronglySorted (λ a b, key a ≤ key b) l →
  a ∈ l → b ∈ l → key a < key b → precedes a b l.
Proof.
  intros Hs Ha Hb Hlt.
  apply list_elem_of_split in Hb as (l1 & l2 & ->).
  apply elem_of_app in Ha as [Ha|Ha].
  - apply list_elem_of_split in Ha as (l3 & l4 & ->).
    exists l3, l4, l2. by rewrite <- app_assoc.
  - apply StronglySorted_app_1_r, StronglySorted_cons in Hs as [Hall _].
    apply elem_of_cons in Ha as [->|Ha]; [lia|].
    rewrite Forall_forall in Hall. specialize (Hall a Ha). simpl in Hall. lia.
Qed.
End Sorting.

(** ** The delay of a timer *)

Lemma to_long_small (x : Z) : -2147483648 ≤ x ≤ 2147483647 → to_long x = x.
Proof. intros Hx. unfold to_long. rewrite Z.mod_small by lia. lia. Qed.

Lemma timer_delay_small (x : Z) : 0 ≤ x ≤ 2147483647 → timer_delay x = x.
Proof. intros Hx. unfold timer_delay. rewrite to_long_small by lia. lia. Qed.

Lemma timer_delay_wrapped (x : Z) : 2147483648 ≤ x ≤ 4294967295 → timer_delay x = 0.
Proof.
  intros Hx. unfold timer_delay, to_long.
  replace (x + 2147483648) with ((x - 2147483648) + 1 * 4294967296) by lia.
  rewrite Z.mod_add by lia. rewrite Z.mod_small by lia. lia.
Qed.

(** ** The reminder effect *)

Section Effect.
Context `{Engine}.

Lemma schedule_step clock acc e :
  schedule clock acc e
  = if decide (armed clock e)
    then (acc.1 ++ [next_handle acc.2],
          (setTimeout clock e (timeout_delay (timeout_for clock e)) acc.2).2)
    else acc.
Proof.
  unfold schedule.
  destruct (decide (armed clock e)) as [(x & Hx & Hlt)|Hna].
  - unfold timeout_for. rewrite Hx. simpl. unfold fire_time in Hx.
    destruct (reminder e) as [lead|]; simpl in Hx; [|done].
    case_decide as Hlead; [done|].
    rewrite (proj2 (Z.eqb_neq lead 0) Hlead).
    destruct (parseDate (fecha e)) as [d|]; simpl in Hx; [|done].
    destruct (JS.getTime d) as [t|]; simpl in *; [|done].
    rewrite Hx. simpl.
    by rewrite (proj2 (Z.ltb_lt 0 (x - clock))) by lia.
  - unfold armed, fire_time in Hna.
    destruct (reminder e) as [lead|]; simpl in Hna; [|done].
    destruct (Z.eqb_spec lead 0) as [->|Hlead]; [done|].
    rewrite decide_False in Hna by done.
    destruct (parseDate (fecha e)) as [d|]; simpl in Hna; [|done].
    destruct (JS.getTime d) as [t|]; simpl in *; [|done].
    destruct (if Z.abs (t - lead) <=? 8640000000000000 then Some (t - lead) else None)
      as [x|]; simpl; [|done].
    destruct (Z.ltb_spec 0 (x - clock)) as [Hlt|Hge]; [|done].
    destruct Hna. exists x. split; [done|lia].
Qed.

(** The effect over [events], started with timers [ts0] in window [w]. *)
Lemma foldl_schedule clock events ts0 w :
  let arm := filter (armed clock) events in
  let n := next_handle w in
  let res := foldl (schedule clock) (ts0, w) events in
  res.1 = ts0 ++ seq n (length arm)
  ∧ next_handle res.2 = (n + length arm)%nat
  ∧ (∀ i e, arm !! i = Some e →
       pending res.2 !! (n + i)%nat = Some (timeout_for clock e))
  ∧ (∀ t, (t < n ∨ n + length arm ≤ t)%nat → pending res.2 !! t = pending w !! t).
Proof.
  induction events as [|e l IH] using rev_ind; simpl.
  { rewrite app_nil_r, Nat.add_0_r. split_and!; done. }
  destruct IH as (Hts & Hnext & Harm & Hrest).
  rewrite foldl_app. simpl. rewrite schedule_step, filter_app.
  rewrite filter_cons, filter_nil.
  destruct (decide (armed clock e)) as [Ha|Hna]; simpl.
  - rewrite Hts, Hnext, length_app, seq_app. simpl.
    split_and!.
    + by rewrite <- app_assoc.
    + lia.
    + intros i e' Hi.
      destruct (decide (i = length (filter (armed clock) l))) as [->|Hne].
      * rewrite list_lookup_middle in Hi by done. injection Hi as <-.
        by rewrite lookup_insert_eq.
      * pose proof (lookup_lt_Some _ _ _ Hi) as Hlt.
        rewrite length_app in Hlt. simpl in Hlt.
        rewrite lookup_app_l in Hi by lia.
        rewrite lookup_insert_ne by lia. by apply Harm.
    + intros t Ht. rewrite lookup_insert_ne by lia. apply Hrest. lia.
  - rewrite app_nil_r. split_and!; done.
Qed.

Lemma cleanup_pending ts w t :
  pending (cleanup ts w) !! t = if decide (t ∈ ts) then None else pending w !! t.
Proof.
  revert w. induction ts as [|t' l IH]; intros w; simpl.
  - done.
  - rewrite IH. simpl. destruct (decide (t ∈ l)) as [Hin|Hn].
    + rewrite decide_True; [done|by right].
    + destruct (decide (t = t')) as [->|Hne].
      * rewrite lookup_delete_eq, decide_True; [done|by left].
      * rewrite lookup_delete_ne by done.
        rewrite decide_False; [done|]. by intros [?|?]%elem_of_cons.
Qed.

Lemma cleanup_next_handle ts w : next_handle (cleanup ts w) = next_handle w.
Proof.
  revert w. induction ts as [|t l IH]; intros w; simpl; [done|]. by rewrite IH.
Qed.

(** After its cleanup the window holds no timeout of the effect. *)
Lemma cleanup_empty st t :
  effect_ok st → pending (cleanup (timers st) (window st)) !! t = None.
Proof.
  intros (_ & _ & _ & Hdom & _). rewrite cleanup_pending. case_decide as Hin; [done|].
  apply eq_None_not_Some. intros Hsome. by apply Hin, Hdom.
Qed.

(** *** The passing of time *)

Lemma foldl_fire_pending l w t :
  pending (foldl fire w l) !! t = if decide (t ∈ l.*1) then None else pending w !! t.
Proof.
  revert w. induction l as [|p l IH]; intros w; simpl; [done|].
  rewrite IH. simpl. destruct (decide (t ∈ l.*1)) as [Hin|Hn].
  - rewrite decide_True; [done|by right].
  - destruct (decide (t = p.1)) as [->|Hne].
    + rewrite lookup_delete_eq, decide_True; [done|by left].
    + rewrite lookup_delete_ne by done.
      rewrite decide_False; [done|]. by intros [?|?]%elem_of_cons.
Qed.

Lemma foldl_fire_next_handle l w : next_handle (foldl fire w l) = next_handle w.
Proof.
  revert w. induction l as [|p l IH]; intros w; simpl; [done|]. by rewrite IH.
Qed.

Lemma foldl_fire_alerts l w :
  alerts (foldl fire w l)
  = alerts w ++ ((λ p : nat * Timeout, reminder_message (timeout_event p.2)) <$> l).
Proof.
  revert w. induction l as [|p l IH]; intros w; simpl.
  - by rewrite app_nil_r.
  - rewrite IH. simpl. by rewrite <- app_assoc.
Qed.

Lemma due_timeouts_elem_of clock w t timeout :
  (t, timeout) ∈ due_timeouts clock w
  ↔ pending w !! t = Some timeout ∧ timeout_due timeout ≤ clock.
Proof.
  unfold due_timeouts. rewrite sort_perm, elem_of_map_to_list, map_lookup_filter_Some.
  done.
Qed.

(** A timeout is pending after the time has passed when it was pending and
    is due later. *)
Lemma elapse_window_pending clock w t :
  pending (elapse_window clock w) !! t
  = match pending w !! t with
    | Some timeout => if decide (timeout_due timeout ≤ clock) then None else Some timeout
    | None => None
    end.
Proof.
  unfold elapse_window. rewrite foldl_fire_pending.
  destruct (pending w !! t) as [timeout|] eqn:Ht.
  - destruct (decide (timeout_due timeout ≤ clock)) as [Hdue|Hlater].
    + rewrite decide_True; [done|].
      apply list_elem_of_fmap. exists (t, timeout). split; [done|].
      by apply due_timeouts_elem_of.
    + rewrite decide_False; [done|].
      intros ([t' timeout'] & -> & Hin)%list_elem_of_fmap.
      apply due_timeouts_elem_of in Hin as [Hin Hdue]. simpl in Ht.
      rewrite Ht in Hin. injection Hin as <-. done.
  - by case_decide.
Qed.

Lemma elapse_window_next_handle clock w :
  next_handle (elapse_window clock w) = next_handle w.
Proof. apply foldl_fire_next_handle. Qed.

Lemma elapse_pending_Some clock st t timeout :
  pending (window (elapse clock st)) !! t = Some timeout
  ↔ pending (window st) !! t = Some timeout ∧ clock < timeout_due timeout.
Proof.
  simpl. rewrite elapse_window_pending.
  destruct (pending (window st) !! t) as [timeout'|]; [|by split; [|intros [? _]]].
  case_decide as Hdue.
  - split; [done|]. intros [[= ->] ?]. lia.
  - split; [intros [= ->]; split; [done|lia]|]. by intros [[= ->] _].
Qed.

(** *** What the effect keeps *)

Lemma effect_ok_mount clock : effect_ok (mount clock).
Proof.
  unfold effect_ok; simpl. split_and!.
  - constructor.
  - done.
  - intros i t timeout. by rewrite lookup_nil.
  - intros t. rewrite lookup_empty. by intros [? ?].
  - constructor.
Qed.

(** After the effect has run every timeout it set is pending. *)
Lemma setSavedEvents_pending clock next st :
  effect_ok st →
  let st' := setSavedEvents clock next st in
  timers st' = seq (next_handle (window st)) (length (filter (armed clock) next))
  ∧ next_handle (window st')
    = (next_handle (window st) + length (filter (armed clock) next))%nat
  ∧ ∀ t, pending (window st') !! t
         = if decide (next_handle (window st) ≤ t
                      < next_handle (window st) + length (filter (armed clock) next))%nat
           then timeout_for clock
                  <$> filter (armed clock) next !! (t - next_handle (window st))%nat
           else None.
Proof.
  intros Hok. unfold setSavedEvents, run_effect.
  pose proof (foldl_schedule clock next [] (cleanup (timers st) (window st)))
    as (Hts & Hnext & Harm & Hrest).
  destruct (foldl _ _ _) as [ts w]. simpl in *.
  rewrite cleanup_next_handle in *.
  split_and!; [done..|].
  intros t. case_decide as Ht.
  - destruct (lookup_lt_is_Some_2 (filter (armed clock) next)
                (t - next_handle (window st))%nat) as [e He]; [lia|].
    rewrite He. simpl.
    replace t with (next_handle (window st) + (t - next_handle (window st)))%nat
      at 1 by lia.
    by apply Harm.
  - rewrite Hrest by lia. by apply cleanup_empty.
Qed.

Lemma effect_ok_setSavedEvents clock next st :
  effect_ok st → effect_ok (setSavedEvents clock next st).
Proof.
  intros Hok.
  destruct (setSavedEvents_pending clock next st Hok) as (Hts & Hnext & Hlook).
  unfold effect_ok. rewrite savedEvents_set, now_set, Hts, Hnext.
  set (n := next_handle (window st)) in *.
  set (arm := filter (armed clock) next) in *.
  split_and!.
  - apply NoDup_seq.
  - by rewrite length_seq.
  - intros i t timeout [-> Hi]%lookup_seq. rewrite Hlook.
    rewrite decide_True by lia. replace (n + i - n)%nat with i by lia.
    destruct (arm !! i) as [e|]; [|done]. intros [= <-]. eauto.
  - intros t. rewrite Hlook, elem_of_seq. case_decide as Ht; [done|by intros [? ?]].
  - apply Forall_forall. intros t Ht%elem_of_seq. lia.
Qed.

Lemma effect_ok_setHistoryEvents next st :
  effect_ok st → effect_ok (setHistoryEvents next st).
Proof. done. Qed.

Lemma effect_ok_show_alert message st :
  effect_ok st → effect_ok (show_alert message st).
Proof. done. Qed.

Lemma effect_ok_perform clock op st :
  effect_ok st → effect_ok (perform clock op st).
Proof.
  intros Hok. destruct op as [event|title a|title|title|[text|]]; simpl.
  - unfold saveEvent. case_match; [done|by apply effect_ok_setSavedEvents].
  - by apply effect_ok_setSavedEvents.
  - by apply effect_ok_setSavedEvents.
  - unfold markAsAttended. case_match; [|done].
    by apply effect_ok_setHistoryEvents, effect_ok_setSavedEvents.
  - unfold import_onload.
    destruct (JSON_parse text) as [| |[saved|] [history|]];
      auto using effect_ok_show_alert, effect_ok_setHistoryEvents,
        effect_ok_setSavedEvents.
  - done.
Qed.

Lemma effect_ok_elapse clock st : effect_ok st → effect_ok (elapse clock st).
Proof.
  intros (Hnodup & Hlen & Hset & Hdom & Hnext). unfold effect_ok. split_and!.
  - done.
  - done.
  - intros i t timeout Hi [Ht _]%elapse_pending_Some. by eapply Hset.
  - intros t [timeout [Ht _]%elapse_pending_Some]. apply Hdom. eauto.
  - simpl. by rewrite elapse_window_next_handle.
Qed.

Lemma effect_ok_reachable st : reachable st → effect_ok st.
Proof.
  induction 1;
    [apply effect_ok_mount|by apply effect_ok_perform|by apply effect_ok_elapse].
Qed.

(** *** With the time *)

Lemma effect_ok_until_setSavedEvents clock next st :
  effect_ok st → effect_ok_until clock (setSavedEvents clock next st).
Proof.
  intros Hok. split; [by apply effect_ok_setSavedEvents|].
  destruct (setSavedEvents_pending clock next st Hok) as (Hts & Hnext & Hlook).
  rewrite savedEvents_set, now_set, Hts. split; [done|].
  intros i t e [-> Hi]%lookup_seq He _. rewrite Hlook.
  rewrite decide_True by lia.
  replace (next_handle (window st) + i - next_handle (window st))%nat with i by lia.
  rewrite He. eauto.
Qed.






Lemma reachable_at_reachable clock st : reachable_at clock st → reachable st.
Proof.
  induction 1.
  - apply reachable_mount.
  - by apply reachable_elapse, reachable_perform.
  - by apply reachable_elapse.
Qed.


End Effect.

Lemma pending_event_lookup `{Engine} (st : State) (t : nat) (timeout : Timeout) :
  effect_ok st → pending (window st) !! t = Some timeout →
  ∃ i e, timers st !! i = Some t
         ∧ filter (armed (now st)) (savedEvents st) !! i = Some e
         ∧ timeout = timeout_for (now st) e.
Proof.
  intros (_ & _ & Hset & Hdom & _) Ht.
  assert (t ∈ timers st) as Hin by (apply Hdom; eauto).
  apply list_elem_of_lookup in Hin as [i Hi].
  destruct (Hset i t timeout Hi Ht) as (e & He & ->). eauto.
Qed.

Lemma pending_event_saved `{Engine} (st : State) (t : nat) (timeout : Timeout) :
  effect_ok st → pending (window st) !! t = Some timeout →
  timeout_event timeout ∈ savedEvents st.
Proof.
  intros Hok Ht.
  destruct (pending_event_lookup st t timeout Hok Ht) as (i & e & _ & He & ->).
  by apply list_elem_of_lookup_2, list_elem_of_filter in He as [_ Hsaved].
Qed.

Lemma pending_event_armed `{Engine} (st : State) (t : nat) (timeout : Timeout) :
  effect_ok st → pending (window st) !! t = Some timeout →
  armed (now st) (timeout_event timeout).
Proof.
  intros Hok Ht.
  destruct (pending_event_lookup st t timeout Hok Ht) as (i & e & _ & He & ->).
  by apply list_elem_of_lookup_2, list_elem_of_filter in He as [Harmed _].
Qed.

Lemma armed_has_timeout `{Engine} (clock : Z) (st : State) (e : SavedEvent) :
  effect_ok_until clock st → e ∈ savedEvents st → armed (now st) e →
  clock < timeout_due (timeout_for (now st) e) →
  ∃ t, pending (window st) !! t = Some (timeout_for (now st) e).
Proof.
  intros (Hok & _ & Hlater) He Harmed Hdue.
  assert (e ∈ filter (armed (now st)) (savedEvents st)) as Hin
    by (by apply list_elem_of_filter).
  apply list_elem_of_lookup in Hin as [i Hi].
  destruct Hok as (_ & Hlen & Hset & _).
  destruct (lookup_lt_is_Some_2 (timers st) i) as [t Ht].
  { rewrite Hlen. by eapply lookup_lt_Some. }
  destruct (Hlater i t e Ht Hi Hdue) as [timeout Hp].
  destruct (Hset i t timeout Ht Hp) as (e' & He' & ->).
  rewrite Hi in He'. injection He' as <-. eauto.
Qed.









(** ** Reading dates *)

Lemma digit_is_plain (c : ascii) :
  is_digit c = true →
  JS.is_white_space c = false ∧ JS.is_hyphen c = false ∧ JS.is_slash c = false.
Proof.
  destruct c as [[] [] [] [] [] [] [] []]; vm_compute; intros; done.
Qed.

Lemma slash_is_plain (c : ascii) :
  JS.is_slash c = true → JS.is_white_space c = false ∧ JS.is_hyphen c = false.
Proof.
  destruct c as [[] [] [] [] [] [] [] []]; vm_compute; intros; done.
Qed.

Lemma split_range_first_plain (c : ascii) (r : string) :
  JS.is_white_space c = false → JS.is_hyphen c = false →
  JS.split_range_first (String c r) = String c (JS.split_range_first r).
Proof.
  intros Hw Hh. simpl. unfold JS.separator_matches. simpl. by rewrite Hw, Hh.
Qed.

Lemma split_range_first_digit (c : ascii) (r : string) :
  is_digit c = true →
  JS.split_range_first (String c r) = String c (JS.split_range_first r).
Proof.
  intros (Hw & Hh & _)%digit_is_plain. by apply split_range_first_plain.
Qed.

Lemma split_range_first_slash (c : ascii) (r : string) :
  JS.is_slash c = true →
  JS.split_range_first (String c r) = String c (JS.split_range_first r).
Proof.
  intros (Hw & Hh)%slash_is_plain. by apply split_range_first_plain.
Qed.

Lemma split_range_first_tail (s : string) :
  range_tail s = true → JS.split_range_first s = EmptyString.
Proof.
  destruct s as [|c r]; [done|]. unfold range_tail.
  destruct (JS.skip_white_space (String c r)) as [|c' r'] eqn:E; [done|].
  intros [Hh _]%andb_prop.
  change (JS.split_range_first (String c r))
    with (if JS.separator_matches (String c r) then EmptyString
          else String c (JS.split_range_first r)).
  unfold JS.separator_matches. by rewrite E, Hh.
Qed.

Lemma split_slash_digit (c : ascii) (r : string) :
  is_digit c = true →
  JS.split_slash (String c r)
  = match JS.split_slash r with
    | h :: t => String c h :: t
    | [] => [String c EmptyString]
    end.
Proof. intros (_ & _ & Hs)%digit_is_plain. simpl. by rewrite Hs. Qed.

Lemma split_slash_slash (c : ascii) (r : string) :
  JS.is_slash c = true → JS.split_slash (String c r) = EmptyString :: JS.split_slash r.
Proof. intros Hs. simpl. by rewrite Hs. Qed.





(** ** Grouping by date *)

Section Grouping.
Context {V : Type}.
Implicit Types (o : list (string * V)) (k : string).

Lemma get_own_None o k : JS.get_own o k = None ↔ k ∉ o.*1.
Proof.
  unfold JS.get_own. rewrite fmap_None, list_find_None, Forall_forall.
  rewrite list_elem_of_fmap. split.
  - intros Hall (p & -> & Hp). by eapply Hall.
  - intros Hn p Hp Hk. apply Hn. eauto.
Qed.

Lemma set_own_keys o k v :
  (JS.set_own o k v).*1 = if decide (k ∈ o.*1) then o.*1 else o.*1 ++ [k].
Proof.
  induction o as [|p o IH]; [done|]. cbn [JS.set_own].
  destruct (decide (p.1 = k)) as [<-|Hne]; rewrite !fmap_cons.
  - rewrite decide_True; [done|by left].
  - rewrite IH. destruct (decide (k ∈ o.*1)) as [Hin|Hn].
    + rewrite decide_True; [done|by right].
    + rewrite decide_False; [done|]. by intros [?|?]%elem_of_cons.
Qed.
End Grouping.

Lemma group_event_keys grouped e grouped' :
  group_event grouped e = Some grouped' →
  grouped'.*1 = if decide (dateKey e ∈ grouped.*1) then grouped.*1
                else grouped.*1 ++ [dateKey e].
Proof.
  unfold group_event. destruct (fecha_property e); [|done].
  destruct (JS.get_own grouped (dateKey e)) as [bucket|] eqn:E.
  - intros [= <-]. rewrite set_own_keys. case_decide as Hin; [done|].
    apply get_own_None in Hin. by rewrite Hin in E.
  - case_bool_decide; [done|]. intros [= <-]. apply set_own_keys.
Qed.

Lemma group_fold_keys events g0 grouped :
  foldl (λ acc e, acc ≫= λ grouped, group_event grouped e) (Some g0) events
  = Some grouped →
  grouped.*1
  = foldl (λ seen k, if decide (k ∈ seen) then seen else seen ++ [k]) g0.*1
      (dateKey <$> events).
Proof.
  revert g0. induction events as [|e l IH]; intros g0; simpl.
  - by intros [= <-].
  - destruct (group_event g0 e) as [g1|] eqn:E.
    + intros Hfold. rewrite (IH _ Hfold). f_equal. by apply group_event_keys.
    + intros Hfold. exfalso. clear -Hfold.
      induction l as [|e' l' IH']; simpl in Hfold; [done|by apply IH'].
Qed.

Lemma groupEventsByDate_keys events grouped :
  groupEventsByDate events = Some grouped →
  grouped.*1 = encounter_order (dateKey <$> events).
Proof. apply group_fold_keys. Qed.

(** The grouping returns an object when every event has a date text and no
    key names an inherited property. *)
Lemma groupEventsByDate_returns events :
  Forall (λ e, is_Some (fecha_property e) ∧ dateKey e ∉ JS.inherited_properties) events →
  is_Some (groupEventsByDate events).
Proof.
  unfold groupEventsByDate. generalize ([] : list (string * list SavedEvent)) as g0.
  induction events as [|e l IH]; intros g0 Hall; simpl; [eauto|].
  apply Forall_cons in Hall as [[[text Hfecha] He] Hall]. unfold group_event at 2.
  rewrite Hfecha.
  destruct (JS.get_own g0 (dateKey e)); [by apply IH|].
  rewrite bool_decide_eq_false_2 by done. by apply IH.
Qed.

Lemma Object_keys_split {V} (o : list (string * V)) :
  ∃ indices,
    JS.Object_keys o = indices ++ filter (λ k, JS.array_index k = None) o.*1
    ∧ Forall (λ k, is_Some (JS.array_index k)) indices.
Proof.
  unfold JS.Object_keys. eexists. split; [done|].
  apply Forall_forall. intros k Hk.
  apply list_elem_of_fmap in Hk as ([n k'] & -> & Hin).
  rewrite sort_perm in Hin. apply list_elem_of_omap in Hin as (k0 & _ & Hk0).
  destruct (JS.array_index k0) as [n0|] eqn:E; simplify_eq/=. eauto.
Qed.

(** ** The order of the calendar *)

Section Calendar.
Context `{Engine}.

Lemma date_or_zero_key_time k :
  (∀ d, parseDate k = Some d → is_Some (JS.getTime d)) →
  date_or_zero (parseDate k) = Some (key_time k).
Proof.
  unfold key_time. destruct (parseDate k) as [d|]; simpl; [|done].
  intros Hv. by destruct (Hv d eq_refl) as [t ->].
Qed.

Lemma compare_dates_follows_key keys :
  dates_valid keys → follows_key compare_dates key_time keys.
Proof.
  intros Hv a b Ha Hb. unfold compare_dates.
  rewrite !date_or_zero_key_time by eauto. done.
Qed.

Lemma key_time_unparsable k : parseDate k = None → key_time k = 0.
Proof. unfold key_time. by intros ->. Qed.
End Calendar.

(** C3 (amended).  When the grouping succeeds and every key that [parseDate]
    reads names a valid date, the keys of the calendar are a rearrangement of
    [Object.keys(grouped)] in ascending order of their time value, where a
    key that [parseDate] does not read counts as time zero: such a key comes
    before every key dated after 1 January 1970 and after every key dated
    before it.  Keys of equal value, among them all the keys that are not
    read, keep the order [Object.keys] lists them in: first the keys that are
    array indices, then the others in encounter order. *)
Theorem calendar_dates_order `{Engine} (events : list SavedEvent)
  (grouped : list (string * list SavedEvent)) :
  groupEventsByDate events = Some grouped →
  dates_valid (JS.Object_keys grouped) →
  ∃ dates,
    calendar_dates events = Some dates
    ∧ dates ≡ₚ JS.Object_keys grouped
    ∧ StronglySorted (λ a b, key_time a ≤ key_time b) dates
    ∧ (∀ v, filter (λ k, key_time k = v) dates
            = filter (λ k, key_time k = v) (JS.Object_keys grouped))
    ∧ filter (λ k, parseDate k = None) dates
      = filter (λ k, parseDate k = None) (JS.Object_keys grouped)
    ∧ (∀ u p, u ∈ dates → p ∈ dates → parseDate u = None →
              (0 < key_time p → precedes u p dates)
              ∧ (key_time p < 0 → precedes p u dates))
    ∧ ∃ indices,
        JS.Object_keys grouped
        = indices ++ filter (λ k, JS.array_index k = None)
                       (encounter_order (dateKey <$> events))
        ∧ Forall (λ k, is_Some (JS.array_index k)) indices.
Proof.
  intros Hgroup Hvalid.
  pose proof (compare_dates_follows_key _ Hvalid) as Hkey.
  exists (JS.sort compare_dates (JS.Object_keys grouped)).
  assert (StronglySorted (λ a b, key_time a ≤ key_time b)
            (JS.sort compare_dates (JS.Object_keys grouped))) as Hsorted
    by by apply sort_sorted.
  split_and!.
  - unfold calendar_dates. by rewrite Hgroup.
  - apply sort_perm.
  - done.
  - intros v. by apply sort_stable.
  - rewrite <- (list_filter_filter_l (λ k, parseDate k = None) (λ k, key_time k = 0))
      by (intros; by apply key_time_unparsable).
    rewrite <- (list_filter_filter_l (λ k, parseDate k = None) (λ k, key_time k = 0)
                  (JS.Object_keys grouped))
      by (intros; by apply key_time_unparsable).
    by rewrite (sort_stable compare_dates key_time).
  - intros u p Hu Hp Hnone. apply key_time_unparsable in Hnone.
    split; intros Hlt; eapply (sorted_precedes key_time); try done; lia.
  - rewrite <- (groupEventsByDate_keys events grouped) by done.
    apply Object_keys_split.
Qed.

Lemma calendar_dates_order_witness :
  ∃ dates,
    calendar_dates (H := sample_engine)
      [dated "Regatta" "20/07/2025 - 22/07/2025"; dated "Gala" "01/06/2025";
       dated "Picnic" "20/07/2025"] = Some dates
    ∧ StronglySorted (λ a b, key_time (H := sample_engine) a ≤ key_time (H := sample_engine) b)
        dates.
Proof.
  destruct (calendar_dates_order (H := sample_engine)
              [dated "Regatta" "20/07/2025 - 22/07/2025"; dated "Gala" "01/06/2025";
               dated "Picnic" "20/07/2025"]
              [("20/07/2025",
                [dated "Regatta" "20/07/2025 - 22/07/2025"; dated "Picnic" "20/07/2025"]);
               ("01/06/2025", [dated "Gala" "01/06/2025"])])
    as (dates & Hdates & _ & Hsorted & _).
  - reflexivity.
  - intros k d Hk Hd. vm_compute in Hk.
    apply elem_of_cons in Hk as [->|Hk]; [by injection Hd as <-|].
    apply list_elem_of_singleton in Hk as ->. by injection Hd as <-.
  - exists dates. split; [exact Hdates|exact Hsorted].
Defined.

(** C3 as stated fails: a key that [parseDate] does not read is sorted as
    time zero, before the keys of today's dates. *)
Lemma unparsable_key_sorts_first :
  calendar_dates (H := sample_engine) [dated "Beach Party" "12/07/2025"; dated "Gala" "TBD"]
  = Some ["TBD"; "12/07/2025"]
  ∧ parseDate (H := sample_engine) "TBD" = None
  ∧ parseDate (H := sample_engine) "12/07/2025" = Some {| JS.getTime := Some 1752278400000 |}.
Proof. split_and!; reflexivity. Qed.

(** Keys that are array indices are listed in numeric order, whatever the
    order of the events. *)
Example index_keys_lose_encounter_order :
  calendar_dates (H := sample_engine) [dated "Gala" "7"; dated "Picnic" "3"]
  = Some ["3"; "7"].
Proof. reflexivity. Qed.

(** * More of the component *)

(** ** Updating and removing *)

Section Updating.
Context `{Engine}.

Lemma updateSavedEvent_saved clock title a st :
  savedEvents (updateSavedEvent clock title a st)
  = map (λ e, if decide (titulo e = title) then assign a e else e) (savedEvents st).
Proof. apply savedEvents_set. Qed.

Lemma removeEvent_saved clock title st :
  savedEvents (removeEvent clock title st)
  = filter (λ e, titulo e ≠ title) (savedEvents st).
Proof. apply savedEvents_set. Qed.

Lemma map_update_absent title a (events : list SavedEvent) :
  title ∉ titles events →
  map (λ e, if decide (titulo e = title) then assign a e else e) events = events.
Proof.
  intros Hn. induction events as [|e l IH]; [done|].
  unfold titles in Hn. rewrite fmap_cons, not_elem_of_cons in Hn.
  destruct Hn as [Hne Hn]. simpl. rewrite decide_False by done. f_equal. by apply IH.
Qed.

Lemma titles_filter (title : string) (events : list SavedEvent) :
  titles (filter (λ e, titulo e ≠ title) events) = filter (λ t, t ≠ title) (titles events).
Proof.
  unfold titles. induction events as [|e l IH]; [done|].
  rewrite fmap_cons, !filter_cons. case_decide; [|done].
  by rewrite fmap_cons, IH.
Qed.
End Updating.

Lemma assign_written (a : Assignment) (e : SavedEvent) :
  written (property_of a) (value_of a) e (assign a e).
Proof.
  intros other. unfold property.
  destruct (decide (other = property_of a)) as [->|Hother].
  - by destruct a.
  - destruct a; simpl in *; repeat (case_decide; [done|]); done.
Qed.

(** X1.  [updateSavedEvent] keeps the length and the order of the agenda:
    an event of another title stays as it is, and every event of the given
    title has the named property written with the given value and each of
    its other properties as before.  For a title that is not in the agenda
    the agenda is the same list, and the history is never touched. *)
Theorem updateSavedEvent_pointwise `{Engine} (clock : Z) (title : string) (a : Assignment)
  (st : State) :
  length (savedEvents (updateSavedEvent clock title a st)) = length (savedEvents st)
  ∧ (∀ i e, savedEvents st !! i = Some e →
       ∃ e', savedEvents (updateSavedEvent clock title a st) !! i = Some e'
             ∧ (titulo e ≠ title → e' = e)
             ∧ (titulo e = title →
                  property (property_of a) e' = Some (value_of a)
                  ∧ ∀ other, other ≠ property_of a → property other e' = property other e))
  ∧ (title ∉ titles (savedEvents st) →
       savedEvents (updateSavedEvent clock title a st) = savedEvents st)
  ∧ historyEvents (updateSavedEvent clock title a st) = historyEvents st.
Proof.
  rewrite updateSavedEvent_saved. split_and!.
  - apply length_map.
  - intros i e Hi.
    change (map ?f ?l) with (f <$> l). rewrite list_lookup_fmap, Hi. simpl.
    eexists. split; [done|]. case_decide as He; split; try done.
    intros _. pose proof (assign_written a e) as Hw. split.
    + rewrite (Hw (property_of a)). by rewrite decide_True.
    + intros other Hother. rewrite (Hw other). by rewrite decide_False.
  - apply map_update_absent.
  - apply historyEvents_set.
Qed.

Lemma updateSavedEvent_pointwise_witness :
  let st := saveEvent (H := sample_engine) 1 beach_party
              (importAgenda (H := sample_engine) 0 (Some "agenda") (mount 0)) in
  ∃ e', savedEvents (updateSavedEvent (H := sample_engine) 2 "Beach Party"
                       (set_notas "late") st) !! 1%nat = Some e'
        ∧ property "notas" e' = Some (Text "late")
        ∧ property "ubicacion" e' = Some (Text "Grace Bay").
Proof.
  intros st.
  destruct (proj1 (proj2 (updateSavedEvent_pointwise (H := sample_engine) 2 "Beach Party"
                            (set_notas "late") st)) 1%nat (blank_annotations beach_party)
              eq_refl)
    as (e' & He' & _ & Hwritten).
  destruct (Hwritten eq_refl) as [Hnotas Hothers].
  exists e'. split_and!; [exact He'|exact Hnotas|].
  rewrite (Hothers "ubicacion"); [reflexivity|discriminate].
Defined.

(** X2.  Two updates of one title that assign different properties, neither
    of them the title, can be done in either order; of two updates that
    assign the same property the later one wins. *)
Theorem updateSavedEvent_compose `{Engine} (c1 c2 : Z) (title : string) (a b : Assignment)
  (st : State) :
  property_of a ≠ "titulo" → property_of b ≠ "titulo" →
  (property_of a ≠ property_of b →
     savedEvents (updateSavedEvent c2 title b (updateSavedEvent c1 title a st))
     = savedEvents (updateSavedEvent c2 title a (updateSavedEvent c1 title b st)))
  ∧ (property_of a = property_of b →
     savedEvents (updateSavedEvent c2 title b (updateSavedEvent c1 title a st))
     = savedEvents (updateSavedEvent c1 title b st)).
Proof.
  intros Ha Hb. rewrite !updateSavedEvent_saved.
  split; intros Hab; induction (savedEvents st) as [|e l IH]; simpl; try done;
    rewrite IH; f_equal;
    destruct (decide (titulo e = title)) as [He|He]; simpl;
    rewrite ?decide_False by done; try done;
    (rewrite !decide_True by (destruct a, b; done));
    destruct a, b; done.
Qed.

Lemma updateSavedEvent_compose_witness :
  savedEvents
    (updateSavedEvent (H := sample_engine) 2 "Beach Party" (set_estado "confirmado")
       (updateSavedEvent (H := sample_engine) 1 "Beach Party" (set_notas "bring hat")
          (saveEvent (H := sample_engine) 0 beach_party (mount 0))))
  = savedEvents
      (updateSavedEvent (H := sample_engine) 2 "Beach Party" (set_notas "bring hat")
         (updateSavedEvent (H := sample_engine) 1 "Beach Party" (set_estado "confirmado")
            (saveEvent (H := sample_engine) 0 beach_party (mount 0)))).
Proof.
  apply (proj1 (updateSavedEvent_compose (H := sample_engine) 1 2 "Beach Party"
                  (set_notas "bring hat") (set_estado "confirmado")
                  (saveEvent (H := sample_engine) 0 beach_party (mount 0))
                  ltac:(discriminate) ltac:(discriminate))).
  discriminate.
Defined.

Lemma occurrences_filter_other (title : string) (e : SavedEvent) (events : list SavedEvent) :
  titulo e ≠ title →
  occurrences e (filter (λ x, titulo x ≠ title) events) = occurrences e events.
Proof.
  intros He. unfold occurrences. induction events as [|x l IH]; [done|].
  rewrite (filter_cons (λ x, titulo x ≠ title)).
  destruct (decide (titulo x ≠ title)) as [Hx|Hx].
  - rewrite !filter_cons. case_decide; simpl; by rewrite IH.
  - rewrite IH, filter_cons, decide_False; [done|]. intros ->. done.
Qed.

(** X3.  [removeEvent] takes every event of the title out of the agenda and
    keeps the others as they are, each as many times as it was there and in
    the same order; the history is not touched; for a title that is not in
    the agenda the agenda is the same list; removing the same title again
    changes nothing more. *)
Theorem removeEvent_filters `{Engine} (clock clock' : Z) (title : string) (st : State) :
  (title ∉ titles (savedEvents (removeEvent clock title st)))
  ∧ savedEvents (removeEvent clock title st) `sublist_of` savedEvents st
  ∧ (∀ e, titulo e ≠ title →
       (e ∈ savedEvents (removeEvent clock title st) ↔ e ∈ savedEvents st))
  ∧ (∀ e, titulo e ≠ title →
       occurrences e (savedEvents (removeEvent clock title st))
       = occurrences e (savedEvents st))
  ∧ (∀ before after,
       savedEvents st = before ++ after →
       savedEvents (removeEvent clock title st)
       = filter (λ e, titulo e ≠ title) before ++ filter (λ e, titulo e ≠ title) after)
  ∧ (title ∉ titles (savedEvents st) →
       savedEvents (removeEvent clock title st) = savedEvents st)
  ∧ savedEvents (removeEvent clock' title (removeEvent clock title st))
    = savedEvents (removeEvent clock title st)
  ∧ historyEvents (removeEvent clock title st) = historyEvents st.
Proof.
  rewrite !removeEvent_saved. split_and!.
  - apply titles_filter_other.
  - apply sublist_filter.
  - intros e He. rewrite list_elem_of_filter. tauto.
  - intros e He. by apply occurrences_filter_other.
  - intros before after ->. apply filter_app.
  - apply filter_title_absent.
  - apply filter_title_absent, titles_filter_other.
  - apply historyEvents_set.
Qed.

Lemma removeEvent_filters_witness :
  let st := importAgenda (H := sample_engine) 3 (Some "agenda")
              (saveEvent (H := sample_engine) 2 beach_party
                 (importAgenda (H := sample_engine) 1 (Some "agenda") (mount 0))) in
  savedEvents st = [regatta; blank_annotations beach_party; regatta]
  ∧ occurrences regatta (savedEvents (removeEvent (H := sample_engine) 4 "Beach Party" st))
    = 2%nat.
Proof.
  intros st. split; [reflexivity|].
  rewrite (proj1 (proj2 (proj2 (proj2 (removeEvent_filters (H := sample_engine) 4 5
                                         "Beach Party" st)))) regatta).
  - reflexivity.
  - discriminate.
Defined.

(** X4.  Saving a candidate whose title is not in the agenda and removing
    that title again gives back the agenda as it was. *)
Theorem save_then_remove `{Engine} (c1 c2 : Z) (event : CandidateEvent) (st : State) :
  c_titulo event ∉ titles (savedEvents st) →
  savedEvents (removeEvent c2 (c_titulo event) (saveEvent c1 event st)) = savedEvents st
  ∧ historyEvents (removeEvent c2 (c_titulo event) (saveEvent c1 event st))
    = historyEvents st.
Proof.
  intros Hn. rewrite removeEvent_saved. unfold removeEvent.
  rewrite historyEvents_set, saveEvent_absent, savedEvents_set, historyEvents_set by done.
  split; [|done].
  rewrite filter_app, filter_title_absent by done.
  rewrite filter_cons, decide_False by (intros Hne; by apply Hne).
  by rewrite filter_nil, app_nil_r.
Qed.

Lemma save_then_remove_witness :
  savedEvents (removeEvent (H := sample_engine) 2 "Beach Party"
                 (saveEvent (H := sample_engine) 1 beach_party
                    (importAgenda (H := sample_engine) 0 (Some "agenda") (mount 0))))
  = [regatta].
Proof.
  apply (save_then_remove (H := sample_engine) 1 2 beach_party
           (importAgenda (H := sample_engine) 0 (Some "agenda") (mount 0))).
  vm_compute. intros Hin. apply list_elem_of_singleton in Hin. discriminate.
Defined.

(** ** What runs of operations keep *)

Section Runs.
Context `{Engine}.

Lemma run_snoc ops clock op st :
  run (ops ++ [(clock, op)]) st = perform clock op (run ops st).
Proof. unfold run. by rewrite foldl_app. Qed.

Lemma perform_saved_titles clock op st :
  from_page op →
  ∃ kept, titles (savedEvents (perform clock op st)) = kept
          ∧ (NoDup (titles (savedEvents st)) → NoDup kept).
Proof.
  intros Hop. eexists. split; [done|]. intros Hnd.
  destruct op as [event|title a|title|title|file]; simpl in *.
  - destruct (decide (c_titulo event ∈ titles (savedEvents st))) as [Hin|Hn].
    + by rewrite saveEvent_present.
    + rewrite saveEvent_absent, savedEvents_set, titles_app by done.
      apply NoDup_app. split_and!; [done| |apply NoDup_singleton].
      intros t Ht Ht'. apply list_elem_of_singleton in Ht'. simpl in Ht'. by subst t.
  - rewrite updateSavedEvent_saved, titles_update; [done|].
    intros v ->. by apply Hop.
  - rewrite removeEvent_saved, titles_filter. by apply NoDup_filter.
  - rewrite markAsAttended_saved, titles_filter. by apply NoDup_filter.
  - done.
Qed.

Lemma perform_history_prefix clock op st :
  historyEvents st `prefix_of` historyEvents (perform clock op st).
Proof.
  destruct op as [event|title a|title|title|[text|]]; simpl.
  - unfold saveEvent. case_match; [done|]. by rewrite historyEvents_set.
  - unfold updateSavedEvent. by rewrite historyEvents_set.
  - unfold removeEvent. by rewrite historyEvents_set.
  - rewrite markAsAttended_history. by eexists.
  - rewrite import_onload_history. by eexists.
  - done.
Qed.

Lemma perform_alerts clock op st :
  alerts (window (perform clock op st))
  = alerts (window st) ++ (if decide (import_fails op) then [import_error] else []).
Proof.
  destruct op as [event|title a|title|title|[text|]]; simpl.
  - rewrite app_nil_r. unfold saveEvent. case_match; [done|apply setSavedEvents_alerts].
  - rewrite app_nil_r. apply setSavedEvents_alerts.
  - rewrite app_nil_r. apply setSavedEvents_alerts.
  - rewrite app_nil_r. unfold markAsAttended. case_match; [|done]. simpl.
    apply setSavedEvents_alerts.
  - destruct (JSON_parse text) as [| |saved history] eqn:E.
    + unfold import_onload. by rewrite E.
    + unfold import_onload. by rewrite E.
    + rewrite app_nil_r. by eapply import_onload_alerts.
  - by rewrite app_nil_r.
Qed.
End Runs.

(** X5.  The agenda never holds two events of one title after a run of the
    page's own operations (saving, removing, marking as attended, updating a
    property other than the title) from the mounted component; and then
    marking an event of the agenda as attended moves exactly one event. *)
Theorem page_run_titles_unique `{Engine} (clock0 : Z) (ops : list (Z * Operation)) :
  Forall (λ step, from_page step.2) ops →
  NoDup (titles (savedEvents (run ops (mount clock0))))
  ∧ ∀ clock title,
      title ∈ titles (savedEvents (run ops (mount clock0))) →
      S (length (savedEvents (markAsAttended clock title (run ops (mount clock0)))))
      = length (savedEvents (run ops (mount clock0))).
Proof.
  intros Hops.
  assert (NoDup (titles (savedEvents (run ops (mount clock0))))) as Hnd.
  { induction ops as [|[clock op] ops IH] using rev_ind; [constructor|].
    apply Forall_app in Hops as [Hops Hop]. apply Forall_inv in Hop. simpl in Hop.
    rewrite run_snoc.
    destruct (perform_saved_titles clock op (run ops (mount clock0)) Hop)
      as (kept & -> & Hkept).
    by apply Hkept, IH. }
  split; [done|]. intros clock title Hin.
  rewrite markAsAttended_saved.
  generalize dependent (savedEvents (run ops (mount clock0))). clear.
  intros events. induction events as [|e l IH]; intros Hnd Hin.
  - by apply elem_of_nil in Hin.
  - unfold titles in Hnd, Hin. rewrite fmap_cons in Hnd, Hin.
    apply NoDup_cons in Hnd as [Hnotin Hnd]. rewrite filter_cons.
    destruct (decide (titulo e ≠ title)) as [Hne|Heq]; simpl.
    + f_equal. apply IH; [done|]. apply elem_of_cons in Hin as [->|Hin]; done.
    + apply dec_stable in Heq. subst title. by rewrite filter_title_absent.
Qed.

Lemma page_run_titles_unique_witness :
  NoDup (titles (savedEvents
    (run (H := sample_engine)
       [(1, Save beach_party); (2, Update "Beach Party" (set_notas "bring hat"));
        (3, Save beach_party)]
       (mount 0)))).
Proof.
  apply (page_run_titles_unique (H := sample_engine) 0
           [(1, Save beach_party); (2, Update "Beach Party" (set_notas "bring hat"));
            (3, Save beach_party)]).
  repeat constructor. simpl. discriminate.
Defined.

(** X6.  The history only grows, whatever is done: after any run of
    operations the history begins with the history as it was, entry for
    entry. *)
Theorem history_append_only `{Engine} (ops : list (Z * Operation)) (st : State) :
  historyEvents st `prefix_of` historyEvents (run ops st).
Proof.
  induction ops as [|[clock op] ops IH] using rev_ind; [done|].
  rewrite run_snoc. etrans; [exact IH|apply perform_history_prefix].
Qed.

Lemma reminder_message_not_import_error (e : SavedEvent) :
  reminder_message e ≠ import_error.
Proof.
  intros Heq.
  apply (f_equal (λ s, match s with String c _ => Some c | EmptyString => None end)) in Heq.
  cbv in Heq. discriminate.
Qed.

Lemma elapse_alerts `{Engine} (clock : Z) (st : State) :
  ∃ fired : list SavedEvent,
    alerts (window (elapse clock st)) = alerts (window st) ++ (reminder_message <$> fired).
Proof.
  simpl. unfold elapse_window. rewrite foldl_fire_alerts.
  exists ((λ p : nat * Timeout, timeout_event p.2) <$> due_timeouts clock (window st)).
  by rewrite <- list_fmap_compose.
Qed.

Lemma filter_import_error_reminders (fired : list SavedEvent) :
  filter (λ message, message = import_error) (reminder_message <$> fired) = [].
Proof.
  induction fired as [|e l IH]; [done|].
  rewrite fmap_cons, filter_cons, decide_False; [done|].
  apply reminder_message_not_import_error.
Qed.

Lemma run_at_snoc `{Engine} ops clock op st :
  run_at (ops ++ [(clock, op)]) st = at_time clock op (run_at ops st).
Proof. unfold run_at. by rewrite foldl_app. Qed.

(** X7.  Alerts come from two places only: a reminder that runs and an
    import that cannot be read.  After a run of operations, each at its time
    and with the timeouts running when they are due, the alerts shown are
    those before it followed by reminder texts and import errors, with
    exactly one import error for every import whose text [JSON.parse]
    rejects or reads as [null]; no reminder text is the text of that
    error. *)
Theorem alerts_count_failed_imports `{Engine} (ops : list (Z * Operation)) (st : State) :
  (∃ shown,
     alerts (window (run_at ops st)) = alerts (window st) ++ shown
     ∧ Forall (λ message, message = import_error ∨ ∃ e, message = reminder_message e) shown
     ∧ length (filter (λ message, message = import_error) shown)
       = length (filter (λ step, import_fails step.2) ops))
  ∧ (∀ e, reminder_message e ≠ import_error)
  ∧ String.length import_error = 70%nat.
Proof.
  split; [|split; [apply reminder_message_not_import_error|reflexivity]].
  induction ops as [|[clock op] ops IH] using rev_ind.
  { exists []. simpl. by rewrite app_nil_r. }
  destruct IH as (shown & Hshown & Hall & Hcount).
  rewrite run_at_snoc. unfold at_time.
  destruct (elapse_alerts clock (run_at ops st)) as (fired1 & Hfired1).
  destruct (elapse_alerts clock (perform clock op (elapse clock (run_at ops st))))
    as (fired2 & Hfired2).
  rewrite Hfired2, perform_alerts, Hfired1, Hshown.
  exists (shown ++ (reminder_message <$> fired1)
            ++ (if decide (import_fails op) then [import_error] else [])
            ++ (reminder_message <$> fired2)).
  split_and!.
  - by rewrite <- !app_assoc.
  - repeat apply Forall_app_2; try done.
    + apply Forall_fmap, Forall_forall. intros e _. right. by exists e.
    + case_decide; repeat constructor.
    + apply Forall_fmap, Forall_forall. intros e _. right. by exists e.
  - rewrite !filter_app, !filter_import_error_reminders, app_nil_r, !length_app, Hcount.
    simpl. f_equal. rewrite filter_cons, filter_nil. simpl.
    case_decide; [|done]. by rewrite filter_cons, decide_True.
Qed.

Lemma alerts_count_failed_imports_witness :
  ∃ shown,
    alerts (window (run_at (H := sample_engine)
                      [(1752000000000, Save beach_party);
                       (1752000001000, Update "Beach Party" (set_reminder (Some 86400000)));
                       (1752000002000, Import (Some "broken"));
                       (1752192000000, Import None)]
                      (mount 1752000000000)))
    = shown
    ∧ length (filter (λ message, message = import_error) shown) = 1%nat.
Proof.
  destruct (proj1 (alerts_count_failed_imports (H := sample_engine)
                     [(1752000000000, Save beach_party);
                      (1752000001000, Update "Beach Party" (set_reminder (Some 86400000)));
                      (1752000002000, Import (Some "broken"));
                      (1752192000000, Import None)]
                     (mount 1752000000000)))
    as (shown & Hshown & _ & Hcount).
  exists shown. split; [exact Hshown|]. rewrite Hcount. reflexivity.
Defined.

(** The alerts of that run: the import error, and the reminder when its
    time has come. *)
Example alerts_of_a_run :
  alerts (window (run_at (H := sample_engine)
                    [(1752000000000, Save beach_party);
                     (1752000001000, Update "Beach Party" (set_reminder (Some 86400000)));
                     (1752000002000, Import (Some "broken"));
                     (1752192000000, Import None)]
                    (mount 1752000000000)))
  = [import_error; reminder_message (blank_annotations beach_party)].
Proof. reflexivity. Qed.

(** ** Reminders of events that leave the agenda *)

(** X8.  Once an event is removed from the agenda or marked as attended, no
    reminder of that title is left: in any state of the component, after
    [removeEvent] or [markAsAttended] of a title no pending timeout belongs
    to an event of that title. *)
Theorem no_reminder_after_leaving `{Engine} (clock : Z) (title : string) (st : State)
  (t : nat) (timeout : Timeout) :
  reachable st →
  (pending (window (removeEvent clock title st)) !! t = Some timeout →
     titulo (timeout_event timeout) ≠ title)
  ∧ (pending (window (markAsAttended clock title st)) !! t = Some timeout →
     titulo (timeout_event timeout) ≠ title).
Proof.
  intros Hreach. split; intros Ht Htitle.
  - pose proof (effect_ok_reachable _ (reachable_perform clock (Remove title) st Hreach))
      as Hok.
    apply (pending_event_saved _ _ _ Hok) in Ht. simpl in Ht.
    rewrite removeEvent_saved in Ht. by apply list_elem_of_filter in Ht as [Hne _].
  - pose proof (effect_ok_reachable _ (reachable_perform clock (Promote title) st Hreach))
      as Hok.
    apply (pending_event_saved _ _ _ Hok) in Ht. simpl in Ht.
    rewrite markAsAttended_saved in Ht. by apply list_elem_of_filter in Ht as [Hne _].
Qed.

Lemma no_reminder_after_leaving_witness :
  let st := run (H := sample_engine)
              [(1, Import (Some "agenda")); (2, Save beach_party)] (mount 0) in
  ∃ timeout,
    pending (window (removeEvent (H := sample_engine) 3 "Beach Party" st)) !! 3%nat
    = Some timeout
    ∧ titulo (timeout_event timeout) ≠ "Beach Party".
Proof.
  intros st. eexists. split; [reflexivity|].
  refine (proj1 (no_reminder_after_leaving (H := sample_engine) 3 "Beach Party" st 3 _ _)
            eq_refl).
  apply (reachable_perform 2 (Save beach_party)).
  apply (reachable_perform 1 (Import (Some "agenda"))). apply reachable_mount.
Defined.

(** ** The first date of a text *)

Lemma append_empty (s : string) : EmptyString +:+ s = s.
Proof. reflexivity. Qed.

Lemma append_String (c : ascii) (s1 s2 : string) :
  String c s1 +:+ s2 = String c (s1 +:+ s2).
Proof. reflexivity. Qed.

Lemma separator_matches_no_hyphen (s : string) :
  contains_hyphen s = false → JS.separator_matches s = false.
Proof.
  unfold JS.separator_matches. induction s as [|c r IH]; simpl; [done|].
  intros [Hc Hr]%orb_false_elim. destruct (JS.is_white_space c); [by apply IH|done].
Qed.

Lemma split_range_first_no_hyphen (s : string) :
  contains_hyphen s = false → JS.split_range_first s = s.
Proof.
  induction s as [|c r IH]; [done|]. intros Hs.
  change (JS.split_range_first (String c r))
    with (if JS.separator_matches (String c r) then EmptyString
          else String c (JS.split_range_first r)).
  rewrite separator_matches_no_hyphen by done.
  simpl in Hs. apply orb_false_elim in Hs as [_ Hr]. by rewrite IH.
Qed.

Lemma split_range_first_unfold (s : string) :
  JS.split_range_first s
  = if JS.separator_matches s then EmptyString
    else match s with
         | String c r => String c (JS.split_range_first r)
         | EmptyString => EmptyString
         end.
Proof. by destruct s. Qed.

Lemma separator_matches_hyphen (c : ascii) (r : string) :
  JS.is_hyphen c = true → JS.separator_matches (String c r) = true.
Proof.
  intros Hc. unfold JS.separator_matches. simpl.
  destruct (JS.is_white_space c) eqn:Hw; [|done].
  destruct c as [[] [] [] [] [] [] [] []]; discriminate.
Qed.

Lemma separator_matches_white_space (w : string) (r : string) :
  all_white_space w = true →
  JS.separator_matches (w +:+ String "-" r) = true.
Proof.
  unfold JS.separator_matches. induction w as [|c w IH]; simpl; [done|].
  intros [Hc Hw]%andb_prop. rewrite Hc. by apply IH.
Qed.

Lemma separator_not_inside (first tail : string) :
  first ≠ EmptyString →
  contains_hyphen first = false → ends_with_white_space first = false →
  JS.separator_matches (first +:+ tail) = false.
Proof.
  unfold JS.separator_matches.
  induction first as [|c r IH]; [done|]. intros _ Hh He.
  simpl in Hh. apply orb_false_elim in Hh as [Hc Hr].
  rewrite append_String. cbn [JS.skip_white_space].
  destruct (JS.is_white_space c) eqn:Hw; [|done].
  destruct r as [|c' r']; [simpl in He; congruence|].
  apply IH; done.
Qed.

Lemma split_range_first_has_no_hyphen (s : string) :
  contains_hyphen (JS.split_range_first s) = false.
Proof.
  induction s as [|c r IH]; [done|]. rewrite split_range_first_unfold.
  destruct (JS.separator_matches (String c r)) eqn:E; [done|]. simpl.
  rewrite IH, orb_false_r.
  destruct (JS.is_hyphen c) eqn:Hc; [|done].
  by rewrite separator_matches_hyphen in E.
Qed.

Lemma split_range_first_idempotent (s : string) :
  JS.split_range_first (JS.split_range_first s) = JS.split_range_first s.
Proof. apply split_range_first_no_hyphen, split_range_first_has_no_hyphen. Qed.

(** X9.  The text before the separator of a range.  What
    [split(/\s*-\s*/)[0]] returns is the beginning of the text, it holds no
    hyphen, and what follows it is nothing or begins with a separator; a
    text without a hyphen is returned whole, so taking the first part twice
    is taking it once; and the white space before the hyphen belongs to the
    separator. *)
Theorem split_range_first_spec (s : string) :
  (∃ rest, s = JS.split_range_first s +:+ rest
           ∧ (rest = EmptyString ∨ JS.separator_matches rest = true))
  ∧ contains_hyphen (JS.split_range_first s) = false
  ∧ (contains_hyphen s = false → JS.split_range_first s = s)
  ∧ JS.split_range_first (JS.split_range_first s) = JS.split_range_first s
  ∧ (∀ first w rest,
       s = first +:+ w +:+ String "-" rest →
       contains_hyphen first = false → ends_with_white_space first = false →
       all_white_space w = true →
       JS.split_range_first s = first).
Proof.
  pose proof (split_range_first_has_no_hyphen s) as Hnone.
  split_and!.
  - induction s as [|c r IH]; [exists EmptyString; split; [done|by left]|].
    rewrite split_range_first_unfold.
    destruct (JS.separator_matches (String c r)) eqn:E.
    + exists (String c r). split; [done|by right].
    + assert (contains_hyphen (JS.split_range_first r) = false) as Hr.
      { rewrite split_range_first_unfold, E in Hnone. simpl in Hnone.
        by apply orb_false_elim in Hnone as [_ ?]. }
      destruct (IH Hr) as (rest & Hrest & Hsep). exists rest. split; [|done].
      change (String c r = String c (JS.split_range_first r +:+ rest)).
      f_equal. exact Hrest.
  - done.
  - apply split_range_first_no_hyphen.
  - by apply split_range_first_no_hyphen.
  - intros first w rest -> Hfirst Hend Hw. clear Hnone.
    induction first as [|c first IH].
    + rewrite append_empty, split_range_first_unfold.
      by rewrite (separator_matches_white_space w rest Hw).
    + rewrite append_String, split_range_first_unfold.
      rewrite <- append_String, separator_not_inside by done.
      f_equal.
      simpl in Hfirst. apply orb_false_elim in Hfirst as [_ Hfirst].
      apply IH; [done|]. destruct first; [done|]. exact Hend.
Qed.

Lemma split_range_first_spec_witness :
  JS.split_range_first "12/07/2025 - 15/07/2025" = "12/07/2025".
Proof.
  apply (proj2 (proj2 (proj2 (proj2 (split_range_first_spec "12/07/2025 - 15/07/2025"))))
           "12/07/2025" " " " 15/07/2025"); reflexivity.
Defined.

(** X10.  [parseDate] reads the date key: the date of a text is the date of
    its first part, so the calendar groups an event under the key whose date
    its reminder is counted from. *)
Theorem parseDate_of_dateKey `{Engine} (e : SavedEvent) :
  parseDate (fecha e) = parseDate (dateKey e).
Proof.
  unfold dateKey. generalize (fecha e) as s. intros s.
  unfold parseDate at 2. rewrite split_range_first_idempotent.
  unfold parseDate. destruct s as [|c r]; [done|].
  cbn [JS.truthy_string].
  destruct (JS.split_range_first (String c r)) as [|c' r'] eqn:E; [done|done].
Qed.

(** ** Calendar days and time values *)

Lemma DayFromYear_next (y : Z) :
  JS.DayFromYear (y + 1)
  = JS.DayFromYear y + 365 + (if JS.InLeapYear y then 1 else 0).
Proof.
  unfold JS.DayFromYear, JS.InLeapYear.
  destruct (Z.eqb_spec (y mod 4) 0), (Z.eqb_spec (y mod 100) 0),
    (Z.eqb_spec (y mod 400) 0); simpl; Z.to_euclidean_division_equations; lia.
Qed.

Lemma DayFromYear_later (y : Z) (n : Z) :
  0 ≤ n → JS.DayFromYear y + 365 * n ≤ JS.DayFromYear (y + n).
Proof.
  intros Hn. revert n Hn. apply natlike_ind.
  - replace (y + 0) with y by lia. lia.
  - intros n Hn IH. replace (y + Z.succ n) with (y + n + 1) by lia.
    rewrite DayFromYear_next. destruct (JS.InLeapYear (y + n)); lia.
Qed.

Lemma month_cases (m : Z) :
  1 ≤ m ≤ 12 →
  m = 1 ∨ m = 2 ∨ m = 3 ∨ m = 4 ∨ m = 5 ∨ m = 6 ∨ m = 7 ∨ m = 8 ∨ m = 9
  ∨ m = 10 ∨ m = 11 ∨ m = 12.
Proof. lia. Qed.

Lemma day_in_year_bounds (y m d : Z) :
  1 ≤ m ≤ 12 → 1 ≤ d ≤ JS.DaysInMonth y m →
  0 ≤ JS.DaysBeforeMonth y m + (d - 1) < 365 + (if JS.InLeapYear y then 1 else 0).
Proof.
  intros Hm Hd. unfold JS.DaysBeforeMonth, JS.DaysInMonth in *.
  destruct (JS.InLeapYear y);
    destruct (month_cases m Hm) as [->|[->|[->|[->|[->|[->|[->|[->|[->|[->|[->| ->]]]]]]]]]]];
    lia.
Qed.

Lemma day_in_year_order (y m1 d1 m2 d2 : Z) :
  1 ≤ m1 ≤ 12 → 1 ≤ d1 ≤ JS.DaysInMonth y m1 →
  1 ≤ m2 ≤ 12 → 1 ≤ d2 ≤ JS.DaysInMonth y m2 →
  m1 < m2 →
  JS.DaysBeforeMonth y m1 + (d1 - 1) < JS.DaysBeforeMonth y m2 + (d2 - 1).
Proof.
  intros Hm1 Hd1 Hm2 Hd2 Hlt. unfold JS.DaysBeforeMonth, JS.DaysInMonth in *.
  destruct (JS.InLeapYear y);
    destruct (month_cases m1 Hm1) as [->|[->|[->|[->|[->|[->|[->|[->|[->|[->|[->| ->]]]]]]]]]]];
    destruct (month_cases m2 Hm2) as [->|[->|[->|[->|[->|[->|[->|[->|[->|[->|[->| ->]]]]]]]]]]];
    lia.
Qed.

Lemma UTC_midnight_order (a b : Z * Z * Z) :
  is_calendar_day a → is_calendar_day b → day_before a b →
  JS.UTC_midnight a.1.1 a.1.2 a.2 < JS.UTC_midnight b.1.1 b.1.2 b.2.
Proof.
  destruct a as [[y1 m1] d1], b as [[y2 m2] d2]. unfold is_calendar_day, day_before.
  simpl. intros [Hm1 Hd1] [Hm2 Hd2] Hbefore. unfold JS.UTC_midnight, JS.msPerDay.
  apply Z.mul_lt_mono_pos_l; [lia|].
  destruct Hbefore as [Hy|[-> [Hm|[-> Hd]]]].
  - pose proof (day_in_year_bounds y1 m1 d1 Hm1 Hd1).
    pose proof (day_in_year_bounds y2 m2 d2 Hm2 Hd2).
    pose proof (DayFromYear_next y1).
    pose proof (DayFromYear_later (y1 + 1) (y2 - (y1 + 1)) ltac:(lia)) as Hlater.
    replace (y1 + 1 + (y2 - (y1 + 1))) with y2 in Hlater by lia.
    destruct (JS.InLeapYear y1), (JS.InLeapYear y2); lia.
  - pose proof (day_in_year_order y2 m1 d1 m2 d2 Hm1 Hd1 Hm2 Hd2 Hm). lia.
  - lia.
Qed.

Lemma calendar_day_is_calendar_day (s : string) (a : Z * Z * Z) :
  calendar_day s = Some a → is_calendar_day a.
Proof.
  unfold calendar_day, is_calendar_day. repeat case_match; try done.
  intros [= <-]. simpl. lia.
Qed.

(** The date of a text of the grammar that names a day of the calendar. *)
Lemma parseDate_calendar_day `{Engine} (s : string) (a : Z * Z * Z) :
  calendar_day s = Some a →
  parseDate s = Some {| JS.getTime := Some (JS.UTC_midnight a.1.1 a.1.2 a.2) |}.
Proof.
  unfold calendar_day. destruct (matches_date_text s) eqn:Hm; [|done].
  unfold matches_date_text in Hm. apply andb_prop in Hm as [Hform Htail].
  destruct s as [|d1 [|d2 [|s1 [|m1 [|m2 [|s2 [|y1 [|y2 [|y3 [|y4 rest]]]]]]]]]];
    try done.
  cbn [string_take date_form string_drop] in *.
  repeat match goal with
         | Hc : _ && _ = true |- _ => apply andb_prop in Hc as [? ?]
         end.
  intros Hday. unfold parseDate. cbn [JS.truthy_string].
  repeat (first [rewrite split_range_first_digit by done
                |rewrite split_range_first_slash by done]).
  rewrite split_range_first_tail by done.
  repeat (first [rewrite split_slash_digit by done
                |rewrite split_slash_slash by done]).
  cbn [JS.split_slash lookup list_lookup JS.truthy_string andb].
  unfold new_Date_string, Date_parse. do 2 f_equal.
  change (JS.date_only_form _) with
    (match JS.digits_value 0 (String y1 (String y2 (String y3 (String y4 EmptyString)))),
           JS.digits_value 0 (String m1 (String m2 EmptyString)),
           JS.digits_value 0 (String d1 (String d2 EmptyString)) with
     | Some y, Some m, Some d =>
         if (1 <=? m) && (m <=? 12) && (1 <=? d) && (d <=? JS.DaysInMonth y m)
         then Some (JS.UTC_midnight y m d)
         else None
     | _, _, _ => None
     end).
  repeat case_match; simplify_eq; done.
Qed.

(** X11.  Dates in calendar order.  For two texts of the Date Text Grammar
    that name days of the calendar, the values the calendar sorts by are the
    time values of midnight UTC of those days, and they are ordered as the
    days are: an earlier day has the smaller value and equal values mean the
    same day. *)
Theorem calendar_days_in_order `{Engine} (s1 s2 : string) (a b : Z * Z * Z) :
  calendar_day s1 = Some a → calendar_day s2 = Some b →
  key_time s1 = JS.UTC_midnight a.1.1 a.1.2 a.2
  ∧ (key_time s1 < key_time s2 ↔ day_before a b)
  ∧ (key_time s1 = key_time s2 ↔ a = b).
Proof.
  intros Ha Hb.
  pose proof (calendar_day_is_calendar_day _ _ Ha) as Hva.
  pose proof (calendar_day_is_calendar_day _ _ Hb) as Hvb.
  unfold key_time.
  rewrite (parseDate_calendar_day s1 a Ha), (parseDate_calendar_day s2 b Hb). simpl.
  assert (a = b ∨ day_before a b ∨ day_before b a) as Htri.
  { destruct (decide (a = b)) as [?|Hne]; [by left|right].
    destruct a as [[y1 m1] d1], b as [[y2 m2] d2]. unfold day_before. simpl.
    assert (¬ (y1 = y2 ∧ m1 = m2 ∧ d1 = d2)) by (intros (-> & -> & ->); done).
    lia. }
  pose proof (UTC_midnight_order a b Hva Hvb) as Hab.
  pose proof (UTC_midnight_order b a Hvb Hva) as Hba.
  assert (day_before a b → ¬ day_before b a) as Hasym.
  { unfold day_before. lia. }
  assert (¬ day_before a a) as Hirr by (unfold day_before; lia).
  split_and!; [done| |].
  - split; [|done]. intros Hlt.
    destruct Htri as [->|[?|Hb']]; [lia|done|]. specialize (Hba Hb'). lia.
  - split; [|by intros ->]. intros Heq.
    destruct Htri as [?|[Ha'|Hb']]; [done| |].
    + specialize (Hab Ha'). lia.
    + specialize (Hba Hb'). lia.
Qed.

Lemma calendar_days_in_order_witness :
  key_time (H := sample_engine) "28/02/2025 - 02/03/2025"
  < key_time (H := sample_engine) "01/03/2025".
Proof.
  apply (proj1 (proj2 (calendar_days_in_order (H := sample_engine)
                         "28/02/2025 - 02/03/2025" "01/03/2025"
                         (2025, 2, 28) (2025, 3, 1) eq_refl eq_refl))).
  vm_compute. right. split; [reflexivity|]. left. reflexivity.
Defined.

(** ** The buckets of the calendar *)

Lemma encounter_order_snoc (keys : list string) (k : string) :
  encounter_order (keys ++ [k])
  = if decide (k ∈ encounter_order keys) then encounter_order keys
    else encounter_order keys ++ [k].
Proof. unfold encounter_order. by rewrite foldl_app. Qed.

Lemma encounter_order_elem_of (keys : list string) (k : string) :
  k ∈ encounter_order keys ↔ k ∈ keys.
Proof.
  induction keys as [|k' keys IH] using rev_ind; [done|].
  rewrite encounter_order_snoc, elem_of_app, list_elem_of_singleton, <- IH.
  case_decide as Hin; [|rewrite elem_of_app, list_elem_of_singleton; tauto].
  split; [tauto|]. intros [?| ->]; done.
Qed.

Lemma encounter_order_NoDup (keys : list string) : NoDup (encounter_order keys).
Proof.
  induction keys as [|k keys IH] using rev_ind; [constructor|].
  rewrite encounter_order_snoc. case_decide as Hin; [done|].
  apply NoDup_app. split_and!; [done| |apply NoDup_singleton].
  intros k' Hk' ->%list_elem_of_singleton. done.
Qed.

Lemma groupEventsByDate_snoc (events : list SavedEvent) (e : SavedEvent) :
  groupEventsByDate (events ++ [e])
  = groupEventsByDate events ≫= λ grouped, group_event grouped e.
Proof. unfold groupEventsByDate. by rewrite foldl_app. Qed.

Lemma get_own_buckets (keys : list string) (events : list SavedEvent) (k : string) :
  JS.get_own (buckets keys events) k
  = if decide (k ∈ keys) then Some (filter (λ e, dateKey e = k) events) else None.
Proof.
  unfold JS.get_own, buckets. induction keys as [|k' keys IH]; [done|].
  rewrite fmap_cons. cbn [list_find]. simpl.
  destruct (decide (k' = k)) as [->|Hne].
  - simpl. rewrite decide_True; [done|by left].
  - assert ((if decide (k ∈ k' :: keys)
             then Some (filter (λ e, dateKey e = k) events) else None)
            = (if decide (k ∈ keys)
               then Some (filter (λ e, dateKey e = k) events) else None)) as ->.
    { destruct (decide (k ∈ keys)) as [Hin|Hn].
      - rewrite decide_True; [done|by right].
      - rewrite decide_False; [done|]. by intros [?|?]%elem_of_cons. }
    rewrite <- IH. by destruct (list_find _ _) as [[i p]|].
Qed.

Lemma set_own_buckets (keys : list string) (events : list SavedEvent) (e : SavedEvent) :
  NoDup keys →
  JS.set_own (buckets keys events) (dateKey e)
    (filter (λ e', dateKey e' = dateKey e) (events ++ [e]))
  = buckets (if decide (dateKey e ∈ keys) then keys else keys ++ [dateKey e])
      (events ++ [e]).
Proof.
  assert (∀ k, k ≠ dateKey e →
            filter (λ e', dateKey e' = k) (events ++ [e])
            = filter (λ e', dateKey e' = k) events) as Hother.
  { intros k Hk. rewrite filter_app, filter_cons, decide_False by done.
    by rewrite filter_nil, app_nil_r. }
  unfold buckets. induction keys as [|k keys IH]; intros Hnd; [done|].
  apply NoDup_cons in Hnd as [Hk Hnd].
  rewrite fmap_cons. cbn [JS.set_own fst].
  destruct (decide (k = dateKey e)) as [->|Hne].
  - rewrite decide_True by (by left). rewrite fmap_cons. f_equal.
    apply list_fmap_ext. intros i k' Hk'.
    rewrite Hother; [done|]. intros ->. by apply list_elem_of_lookup_2 in Hk'.
  - rewrite IH by done.
    destruct (decide (dateKey e ∈ keys)) as [Hin|Hn].
    + rewrite decide_True by (by right). rewrite fmap_cons. by rewrite Hother.
    + rewrite decide_False by (by intros [?|?]%elem_of_cons).
      rewrite <- app_comm_cons, fmap_cons. by rewrite Hother.
Qed.

Lemma groupEventsByDate_buckets (events : list SavedEvent)
  (grouped : list (string * list SavedEvent)) :
  groupEventsByDate events = Some grouped →
  grouped = buckets (encounter_order (dateKey <$> events)) events.
Proof.
  revert grouped. induction events as [|e events IH] using rev_ind; intros grouped.
  { by intros [= <-]. }
  rewrite groupEventsByDate_snoc.
  destruct (groupEventsByDate events) as [g0|]; [|done]. simpl.
  rewrite (IH g0 eq_refl). intros Hstep.
  rewrite fmap_app. change (dateKey <$> [e]) with [dateKey e].
  rewrite encounter_order_snoc.
  rewrite <- set_own_buckets by apply encounter_order_NoDup.
  unfold group_event in Hstep. destruct (fecha_property e); [|done].
  rewrite get_own_buckets in Hstep.
  rewrite filter_app, filter_cons, decide_True, filter_nil by done.
  destruct (decide (dateKey e ∈ encounter_order (dateKey <$> events))) as [Hin|Hn].
  - by injection Hstep as <-.
  - case_bool_decide; [done|]. injection Hstep as <-. f_equal.
    assert (filter (λ e', dateKey e' = dateKey e) events = []) as ->; [|done].
    rewrite encounter_order_elem_of in Hn. clear -Hn.
    induction events as [|e' l IH']; [done|].
    rewrite fmap_cons, not_elem_of_cons in Hn. destruct Hn as [Hne Hn].
    rewrite filter_cons, decide_False by done. by apply IH'.
Qed.

Lemma buckets_concat (keys : list string) (events : list SavedEvent) :
  NoDup keys →
  concat ((buckets keys events).*2) ≡ₚ filter (λ e, dateKey e ∈ keys) events.
Proof.
  unfold buckets. induction keys as [|k keys IH]; intros Hnd.
  - simpl. induction events as [|e l IHl]; [done|].
    rewrite filter_cons, decide_False; [done|apply not_elem_of_nil].
  - apply NoDup_cons in Hnd as [Hk Hnd]. rewrite !fmap_cons. simpl.
    rewrite IH by done. clear IH.
    induction events as [|e l IHl]; [done|].
    rewrite !filter_cons.
    destruct (decide (dateKey e = k)) as [He|He].
    + rewrite decide_False by (by rewrite He).
      rewrite decide_True by (rewrite He; left). simpl. by rewrite IHl.
    + destruct (decide (dateKey e ∈ keys)) as [Hin|Hn].
      * rewrite decide_True by (by right).
        rewrite <- Permutation_middle. by rewrite IHl.
      * rewrite decide_False by (by intros [?|?]%elem_of_cons). done.
Qed.

Lemma Object_keys_perm {V} (o : list (string * V)) : JS.Object_keys o ≡ₚ o.*1.
Proof.
  unfold JS.Object_keys. rewrite sort_perm.
  induction (o.*1) as [|k names IH]; [done|].
  rewrite filter_cons. cbn [omap list_omap].
  destruct (JS.array_index k) as [n|] eqn:E; cbn [fmap option_fmap option_map].
  - rewrite decide_False by done. rewrite fmap_cons. simpl. by rewrite IH.
  - rewrite decide_True by done. rewrite <- Permutation_middle. by rewrite IH.
Qed.

(** The array indices among the keys come in ascending order. *)
Lemma Object_keys_indices {V} (o : list (string * V)) :
  ∃ indices : list (Z * string),
    JS.Object_keys o = indices.*2 ++ filter (λ k, JS.array_index k = None) o.*1
    ∧ StronglySorted (λ a b, a.1 ≤ b.1) indices
    ∧ Forall (λ p, JS.array_index p.2 = Some p.1) indices.
Proof.
  unfold JS.Object_keys. eexists. split_and!; [done| |].
  - apply (sort_sorted _ fst). intros a b _ _. done.
  - apply Forall_forall. intros [n k] Hin. simpl.
    rewrite sort_perm in Hin. apply list_elem_of_omap in Hin as (k0 & _ & Hk0).
    destruct (JS.array_index k0) as [n0|] eqn:E; simplify_eq/=. done.
Qed.

Lemma omap_get_own_buckets (keys : list string) (events : list SavedEvent) (l : list string) :
  l ⊆ keys →
  omap (JS.get_own (buckets keys events)) l = (λ k, filter (λ e, dateKey e = k) events) <$> l.
Proof.
  induction l as [|k l IH]; intros Hsub; [done|].
  cbn [omap list_omap]. rewrite get_own_buckets, decide_True by (apply Hsub; left).
  rewrite fmap_cons. f_equal. apply IH. intros x Hx. apply Hsub. by right.
Qed.

Lemma concat_filter_keys (keys : list string) (events : list SavedEvent) :
  NoDup keys →
  concat ((λ k, filter (λ e, dateKey e = k) events) <$> keys)
  ≡ₚ filter (λ e, dateKey e ∈ keys) events.
Proof.
  intros Hnd. rewrite <- (buckets_concat keys events Hnd). unfold buckets.
  by rewrite <- list_fmap_compose.
Qed.

(** X12.  What the grouping returns.  The keys of the object, as
    [Object.keys] lists them, are the distinct date keys of the events: first
    those that are array indices, in ascending numeric order, then the others
    in the order in which they first occur.  The bucket of a key holds
    exactly the events of that key in their order (so no bucket is empty),
    there is no bucket for any other name, and the buckets together hold
    every event once. *)
Theorem groupEventsByDate_spec (events : list SavedEvent)
  (grouped : list (string * list SavedEvent)) :
  groupEventsByDate events = Some grouped →
  (∃ indices : list (Z * string),
     JS.Object_keys grouped
     = indices.*2 ++ filter (λ k, JS.array_index k = None)
                       (encounter_order (dateKey <$> events))
     ∧ StronglySorted (λ a b, a.1 ≤ b.1) indices
     ∧ Forall (λ p, JS.array_index p.2 = Some p.1) indices)
  ∧ NoDup (JS.Object_keys grouped)
  ∧ (∀ k, k ∈ JS.Object_keys grouped ↔ ∃ e, e ∈ events ∧ dateKey e = k)
  ∧ (∀ k, JS.get_own grouped k
          = if decide (k ∈ dateKey <$> events)
            then Some (filter (λ e, dateKey e = k) events) else None)
  ∧ (∀ k bucket, JS.get_own grouped k = Some bucket → bucket ≠ [])
  ∧ concat (omap (JS.get_own grouped) (JS.Object_keys grouped)) ≡ₚ events.
Proof.
  intros Hgroup. apply groupEventsByDate_buckets in Hgroup as ->.
  set (keys := encounter_order (dateKey <$> events)).
  assert ((buckets keys events).*1 = keys) as Hkeys.
  { unfold buckets. rewrite <- list_fmap_compose. apply list_fmap_id. }
  assert (NoDup keys) as Hnd by apply encounter_order_NoDup.
  assert (JS.Object_keys (buckets keys events) ≡ₚ keys) as Hperm
    by (by rewrite Object_keys_perm, Hkeys).
  assert (∀ k, JS.get_own (buckets keys events) k
               = if decide (k ∈ dateKey <$> events)
                 then Some (filter (λ e, dateKey e = k) events) else None) as Hget.
  { intros k. rewrite get_own_buckets. unfold keys.
    destruct (decide (k ∈ dateKey <$> events)) as [Hin|Hn].
    - rewrite decide_True; [done|]. by apply encounter_order_elem_of.
    - rewrite decide_False; [done|]. by rewrite encounter_order_elem_of. }
  split_and!.
  - destruct (Object_keys_indices (buckets keys events)) as (indices & Heq & Hsorted & Hidx).
    rewrite Hkeys in Heq. eauto.
  - by rewrite Hperm.
  - intros k. rewrite Hperm. unfold keys.
    rewrite encounter_order_elem_of, list_elem_of_fmap.
    split; intros (e & ? & ?); eauto.
  - done.
  - intros k bucket. rewrite Hget. case_decide as Hin; [|done]. intros [= <-].
    apply list_elem_of_fmap in Hin as (e & -> & He).
    intros Hnil. eapply (filter_nil_not_elem_of _ _ e); [exact Hnil|done|done].
  - rewrite omap_get_own_buckets by (intros k Hk; by rewrite <- Hperm).
    rewrite Hperm, concat_filter_keys by done.
    assert (∀ l, Forall (λ e, dateKey e ∈ keys) l →
                 filter (λ e, dateKey e ∈ keys) l = l) as Hall.
    { induction l as [|e l IH]; [done|]. intros [He Hl]%Forall_cons.
      rewrite filter_cons, decide_True by done. f_equal. by apply IH. }
    rewrite Hall; [done|]. apply Forall_forall. intros e He.
    apply encounter_order_elem_of, list_elem_of_fmap. eauto.
Qed.

Lemma groupEventsByDate_spec_witness :
  ∃ grouped,
    groupEventsByDate
      [regatta; dated "Gala" "7"; dated "Picnic" "20/07/2025"; dated "Fair" "3"]
    = Some grouped
    ∧ JS.Object_keys grouped = ["3"; "7"; "20/07/2025"]
    ∧ JS.get_own grouped "20/07/2025" = Some [regatta; dated "Picnic" "20/07/2025"].
Proof.
  eexists. split; [reflexivity|]. split; [reflexivity|].
  exact (proj1 (proj2 (proj2 (proj2 (groupEventsByDate_spec
    [regatta; dated "Gala" "7"; dated "Picnic" "20/07/2025"; dated "Fair" "3"]
    _ eq_refl)))) "20/07/2025").
Defined.

Lemma groupEventsByDate_keys_plain (events : list SavedEvent)
  (grouped : list (string * list SavedEvent)) :
  groupEventsByDate events = Some grouped →
  Forall (λ e, is_Some (fecha_property e) ∧ dateKey e ∉ JS.inherited_properties) events.
Proof.
  revert grouped. induction events as [|e events IH] using rev_ind; intros grouped.
  { intros _. constructor. }
  rewrite groupEventsByDate_snoc.
  destruct (groupEventsByDate events) as [g0|] eqn:E; [|done]. simpl.
  intros Hstep. apply Forall_app. split; [by eapply IH|].
  apply Forall_singleton. unfold group_event in Hstep.
  destruct (fecha_property e) as [text|]; [|done]. split; [by eexists|].
  destruct (JS.get_own g0 (dateKey e)) as [bucket|] eqn:Hget.
  - assert (dateKey e ∈ g0.*1) as Hin.
    { destruct (decide (dateKey e ∈ g0.*1)) as [?|Hn]; [done|].
      apply get_own_None in Hn. congruence. }
    rewrite (groupEventsByDate_keys events g0 E) in Hin.
    apply encounter_order_elem_of, list_elem_of_fmap in Hin as (e' & -> & He').
    specialize (IH g0 eq_refl). rewrite Forall_forall in IH. by apply IH.
  - by case_bool_decide.
Qed.

(** X13.  When the grouping throws.  It throws when some event has no
    [fecha] ([e.fecha.split] is a call on [undefined]) and when the date key
    of some event is the name of a property that every object inherits, such
    as [constructor] (the lookup finds the inherited value, no bucket is made
    and [push] is not a function).  It returns an object when every event
    has a text as its [fecha] and no date key is such a name. *)
Theorem groupEventsByDate_throws (events : list SavedEvent) :
  ((∃ e, e ∈ events
         ∧ (fecha_property e = None ∨ dateKey e ∈ JS.inherited_properties)) →
   groupEventsByDate events = None)
  ∧ (Forall (λ e, is_Some (fecha_property e) ∧ dateKey e ∉ JS.inherited_properties)
       events →
     is_Some (groupEventsByDate events)).
Proof.
  split.
  - intros (e & He & Hkey).
    destruct (groupEventsByDate events) as [g|] eqn:E; [|done].
    apply groupEventsByDate_keys_plain in E. rewrite Forall_forall in E.
    destruct (E e He) as [[text Htext] Hplain].
    destruct Hkey as [Hnone|Hkey]; [congruence|done].
  - apply groupEventsByDate_returns.
Qed.

Lemma groupEventsByDate_throws_witness :
  groupEventsByDate [regatta; dated "Gala" "constructor"] = None
  ∧ groupEventsByDate [regatta; undated "Gala"] = None.
Proof.
  split.
  - apply (proj1 (groupEventsByDate_throws [regatta; dated "Gala" "constructor"])).
    exists (dated "Gala" "constructor"). split.
    + right. left.
    + right. vm_compute. left.
  - apply (proj1 (groupEventsByDate_throws [regatta; undated "Gala"])).
    exists (undated "Gala"). split.
    + right. left.
    + left. reflexivity.
Defined.

(** X14.  The calendar lists every date key of the agenda once: whenever the
    calendar is drawn its dates have no repetition and are exactly the date
    keys of the saved events. *)
Theorem calendar_dates_keys `{Engine} (events : list SavedEvent) (dates : list string) :
  calendar_dates events = Some dates →
  NoDup dates ∧ ∀ k, k ∈ dates ↔ ∃ e, e ∈ events ∧ dateKey e = k.
Proof.
  unfold calendar_dates.
  destruct (groupEventsByDate events) as [grouped|] eqn:E; [|done].
  simpl. intros [= <-].
  assert (JS.sort compare_dates (JS.Object_keys grouped)
          ≡ₚ encounter_order (dateKey <$> events)) as Hperm.
  { rewrite sort_perm, Object_keys_perm. by rewrite (groupEventsByDate_keys events grouped). }
  split.
  - rewrite Hperm. apply encounter_order_NoDup.
  - intros k. rewrite Hperm, encounter_order_elem_of, list_elem_of_fmap.
    split; intros (e & ? & ?); eauto.
Qed.

Lemma calendar_dates_keys_witness :
  calendar_dates (H := sample_engine)
    [regatta; dated "Gala" "01/06/2025"; dated "Picnic" "20/07/2025"]
  = Some ["01/06/2025"; "20/07/2025"]
  ∧ NoDup ["01/06/2025"; "20/07/2025"].
Proof.
  split; [reflexivity|].
  apply (calendar_dates_keys (H := sample_engine)
           [regatta; dated "Gala" "01/06/2025"; dated "Picnic" "20/07/2025"]
           ["01/06/2025"; "20/07/2025"] eq_refl).
Defined.

(** ** The event types *)

Lemma skip_white_space_blank (s : string) :
  all_white_space s = true → JS.skip_white_space s = EmptyString.
Proof.
  induction s as [|c r IH]; [done|]. simpl. intros [Hc Hr]%andb_prop.
  rewrite Hc. by apply IH.
Qed.

Lemma trim_end_blank (s : string) :
  trim_end s = EmptyString ↔ all_white_space s = true.
Proof.
  induction s as [|c r IH]; [done|]. simpl.
  destruct (trim_end r) as [|c' r'] eqn:E.
  - destruct (JS.is_white_space c); simpl; [|done]. tauto.
  - split; [done|]. intros [_ Hr]%andb_prop. apply IH in Hr. done.
Qed.

Lemma all_white_space_skip (s : string) :
  all_white_space (JS.skip_white_space s) = true → all_white_space s = true.
Proof.
  induction s as [|c r IH]; [done|]. simpl.
  destruct (JS.is_white_space c) eqn:Hc; simpl; [done|]. by rewrite Hc.
Qed.

Lemma trim_blank (s : string) : trim s = EmptyString ↔ all_white_space s = true.
Proof.
  unfold trim. rewrite trim_end_blank. split.
  - apply all_white_space_skip.
  - intros Hs. by rewrite skip_white_space_blank.
Qed.

Lemma trim_end_idempotent (s : string) : trim_end (trim_end s) = trim_end s.
Proof.
  induction s as [|c r IH]; [done|]. simpl.
  destruct (trim_end r) as [|c' r'] eqn:E.
  - destruct (JS.is_white_space c) eqn:Hc; [done|]. simpl. by rewrite Hc.
  - change (trim_end (String c (String c' r')))
      with (match trim_end (String c' r') with
            | EmptyString =>
                if JS.is_white_space c then EmptyString else String c EmptyString
            | r'' => String c r''
            end).
    by rewrite IH.
Qed.

Lemma skip_white_space_trim_end (s : string) :
  JS.skip_white_space s = s → JS.skip_white_space (trim_end s) = trim_end s.
Proof.
  destruct s as [|c r]; [done|]. simpl.
  destruct (JS.is_white_space c) eqn:Hc.
  - intros Hskip. exfalso.
    assert (∀ s, String.length (JS.skip_white_space s) ≤ String.length s)%nat as Hlen.
    { induction s as [|c' s IH]; simpl; [lia|]. destruct (JS.is_white_space c'); simpl; lia. }
    specialize (Hlen r). rewrite Hskip in Hlen. simpl in Hlen. lia.
  - intros _. destruct (trim_end r); simpl; by rewrite Hc.
Qed.

Lemma skip_white_space_idempotent (s : string) :
  JS.skip_white_space (JS.skip_white_space s) = JS.skip_white_space s.
Proof.
  induction s as [|c r IH]; [done|]. simpl.
  destruct (JS.is_white_space c) eqn:Hc; [done|]. simpl. by rewrite Hc.
Qed.

Lemma trim_idempotent (s : string) : trim (trim s) = trim s.
Proof.
  unfold trim.
  rewrite skip_white_space_trim_end by apply skip_white_space_idempotent.
  apply trim_end_idempotent.
Qed.

Lemma addCustomCategory_blank (c : Categories) :
  all_white_space (newCategory c) = true → addCustomCategory c = c.
Proof.
  intros Hb. unfold addCustomCategory. apply trim_blank in Hb. by rewrite Hb.
Qed.

Lemma addCustomCategory_types (c : Categories) :
  eventTypes (addCustomCategory c)
  = if decide (all_white_space (newCategory c) = true
               ∨ slug (trim (newCategory c)) ∈ type_id <$> eventTypes c)
    then eventTypes c
    else eventTypes c
           ++ [{| type_id := slug (trim (newCategory c));
                  type_label := trim (newCategory c) |}].
Proof.
  unfold addCustomCategory.
  destruct (trim (newCategory c)) as [|ch r] eqn:E.
  - simpl. rewrite decide_True; [done|]. left. by apply trim_blank.
  - cbn [JS.truthy_string].
    assert (all_white_space (newCategory c) ≠ true) as Hnb.
    { intros Hb. apply trim_blank in Hb. congruence. }
    destruct (JS.find _ _) as [t|] eqn:Hfind; simpl.
    + rewrite decide_True; [done|]. right.
      apply find_Some_first in Hfind as (l1 & l2 & -> & Hid & _).
      rewrite fmap_app, fmap_cons, <- Hid. apply elem_of_app. right. by left.
    + rewrite decide_False; [done|]. intros [?|Hin]; [done|].
      apply find_None_iff in Hfind. rewrite Forall_forall in Hfind.
      apply list_elem_of_fmap in Hin as (t & Ht & Hin). by apply (Hfind t Hin).
Qed.

Lemma form_run_snoc (actions : list FormAction) (action : FormAction) (c : Categories) :
  form_run (actions ++ [action]) c = form_step (form_run actions c) action.
Proof. unfold form_run. by rewrite foldl_app. Qed.

(** X15.  The list of event types through the life of the form.  Whatever
    is typed and however often the button is pressed, no two types have the
    same id, the seven types the component starts with stay at the front in
    their order, and every other type has a label that is not empty and has
    no white space at its ends, with the slug of that label as its id. *)
Theorem category_ids_unique (actions : list FormAction) :
  NoDup (type_id <$> eventTypes (form_run actions initial_categories))
  ∧ initial_eventTypes `prefix_of` eventTypes (form_run actions initial_categories)
  ∧ (∀ t, t ∈ eventTypes (form_run actions initial_categories) →
          t ∈ initial_eventTypes ∨ custom_type t).
Proof.
  induction actions as [|action actions IH] using rev_ind.
  { split_and!; [by compute_done|done|auto]. }
  destruct IH as (Hnd & Hprefix & Hshape). rewrite form_run_snoc.
  destruct action as [value|]; simpl; [done|].
  rewrite addCustomCategory_types. case_decide as Hcase; [done|].
  assert (slug (trim (newCategory (form_run actions initial_categories)))
          ∉ type_id <$> eventTypes (form_run actions initial_categories)) as Hfresh
    by tauto.
  assert (all_white_space (newCategory (form_run actions initial_categories)) ≠ true)
    as Hblank by tauto.
  split_and!.
  - rewrite fmap_app. apply NoDup_app. split_and!; [done| |apply NoDup_singleton].
    intros id Hid ->%list_elem_of_singleton. done.
  - by apply prefix_app_r.
  - intros t [Ht| ->%list_elem_of_singleton]%elem_of_app; [auto|].
    right. unfold custom_type. simpl. split_and!; [|apply trim_idempotent|done].
    intros Hempty. by apply trim_blank in Hempty.
Qed.

Lemma category_ids_unique_witness :
  {| type_id := "arte"; type_label := "Arte" |} ∈ initial_eventTypes
  ∨ custom_type {| type_id := "arte"; type_label := "Arte" |}.
Proof.
  apply (proj2 (proj2 (category_ids_unique
                         [TypeLabel " Arte "; PressAdd; PressAdd; TypeLabel "ARTE";
                          PressAdd]))).
  vm_compute. do 7 apply list_elem_of_further. apply list_elem_of_here.
Defined.

(** X16.  A label of white space only (or none) is ignored: the types stay
    as they are and the field keeps its text.  Any other label empties the
    field and leaves the slug of the trimmed label among the ids: when the
    slug was there already the types are unchanged, otherwise one type is
    added at the end, with the trimmed label. *)
Theorem add_label_spec (label : string) (c : Categories) :
  (all_white_space label = true → add_label label c = setNewCategory label c)
  ∧ (all_white_space label = false →
       newCategory (add_label label c) = EmptyString
       ∧ slug (trim label) ∈ type_id <$> eventTypes (add_label label c)
       ∧ (slug (trim label) ∈ type_id <$> eventTypes c →
            eventTypes (add_label label c) = eventTypes c)
       ∧ (slug (trim label) ∉ type_id <$> eventTypes c →
            eventTypes (add_label label c)
            = eventTypes c
                ++ [{| type_id := slug (trim label); type_label := trim label |}])).
Proof.
  split.
  - intros Hb. unfold add_label. by apply addCustomCategory_blank.
  - intros Hnb.
    assert (all_white_space label ≠ true) as Hnb' by congruence.
    assert (trim label ≠ EmptyString) as Htrim by (by rewrite trim_blank).
    unfold add_label.
    pose proof (addCustomCategory_types (setNewCategory label c)) as Htypes.
    simpl in Htypes. split_and!.
    + unfold addCustomCategory. simpl.
      destruct (trim label) eqn:E; [done|]. cbn [JS.truthy_string].
      by destruct (JS.find _ _).
    + rewrite Htypes. case_decide as Hcase.
      * by destruct Hcase.
      * rewrite fmap_app. apply elem_of_app. right. by left.
    + intros Hin. rewrite Htypes. rewrite decide_True; [done|by right].
    + intros Hn. rewrite Htypes. rewrite decide_False; [done|]. by intros [?|?].
Qed.

Lemma add_label_spec_witness :
  newCategory (add_label "  Arte  y  Cultura " initial_categories) = ""
  ∧ eventTypes (add_label "   " initial_categories) = initial_eventTypes.
Proof.
  destruct (add_label_spec "  Arte  y  Cultura " initial_categories) as [_ Hadd].
  destruct (add_label_spec "   " initial_categories) as [Hblank _].
  split.
  - exact (proj1 (Hadd eq_refl)).
  - by rewrite (Hblank eq_refl).
Defined.

(** X17.  Labels of one slug make one type: after a label has been added, a
    second label with the same slug (the same text in other case, or with
    other white space around it and between its words) changes no type. *)
Theorem same_slug_ignored (label1 label2 : string) (c : Categories) :
  all_white_space label1 = false →
  slug (trim label2) = slug (trim label1) →
  eventTypes (add_label label2 (add_label label1 c)) = eventTypes (add_label label1 c).
Proof.
  intros Hnb Hslug. unfold add_label.
  rewrite (addCustomCategory_types (setNewCategory label2 _)). simpl.
  rewrite decide_True; [done|]. right. rewrite Hslug.
  rewrite (addCustomCategory_types (setNewCategory label1 c)). simpl.
  case_decide as Hcase.
  - destruct Hcase as [?|?]; [congruence|done].
  - rewrite fmap_app. apply elem_of_app. right. by left.
Qed.

Lemma same_slug_ignored_witness :
  eventTypes (add_label " arte   y cultura" (add_label "Arte y Cultura " initial_categories))
  = eventTypes (add_label "Arte y Cultura " initial_categories).
Proof.
  apply (same_slug_ignored "Arte y Cultura " " arte   y cultura" initial_categories);
    reflexivity.
Defined.

Lemma lower_code_unit_id (c : ascii) :
  JS.is_white_space (lower_code_unit c) = JS.is_white_space c
  ∧ lower_code_unit (lower_code_unit c) = lower_code_unit c.
Proof. by destruct c as [[] [] [] [] [] [] [] []]. Qed.

Lemma hyphenate_from_shape (in_run : bool) (s : string) :
  string_all (λ c, Ascii.eqb (lower_code_unit c) c) s = true →
  string_all id_code_unit (hyphenate_from in_run s) = true.
Proof.
  revert in_run. induction s as [|c r IH]; intros in_run; [done|]. simpl.
  intros [Hc Hr]%andb_prop.
  destruct (JS.is_white_space c) eqn:Hw.
  - destruct in_run; simpl; by apply IH.
  - simpl. unfold id_code_unit at 1. rewrite Hw, Hc. simpl. by apply IH.
Qed.

(** X18.  The id made from a label holds no white space and no capital
    letter, whatever the label. *)
Theorem slug_shape (label : string) : string_all id_code_unit (slug label) = true.
Proof.
  unfold slug, hyphenate. apply hyphenate_from_shape.
  induction label as [|c r IH]; [done|]. simpl. rewrite IH, andb_true_r.
  apply Ascii.eqb_eq. apply lower_code_unit_id.
Qed.

(** ** The automatic search *)

Lemma autoSearch_cleanup_empty (a : AutoSearch) :
  autoSearch_ok a →
  intervals (autoSearch_cleanup a) = ∅
  ∧ next_interval (autoSearch_cleanup a) = next_interval a
  ∧ autoSearchRef (autoSearch_cleanup a) = autoSearchRef a
  ∧ searchType (autoSearch_cleanup a) = searchType a.
Proof.
  intros [Hnext Hok]. unfold autoSearch_cleanup.
  destruct (autoSearchEnabled a && positive (autoSearchInterval a)).
  - destruct Hok as (h & Hh & Href & type & Hint). rewrite Href.
    destruct h as [|h]; [lia|]. simpl. rewrite Hint. split_and!; try done.
    apply delete_singleton_eq.
  - destruct Hok as [Href Hint]. rewrite Href. simpl. done.
Qed.

Lemma autoSearch_rerun_ok (enabled : bool) (interval : Double) (a : AutoSearch) :
  autoSearch_ok a →
  autoSearch_ok (autoSearch_rerun enabled interval a)
  ∧ autoSearchEnabled (autoSearch_rerun enabled interval a) = enabled
  ∧ autoSearchInterval (autoSearch_rerun enabled interval a) = interval
  ∧ searchType (autoSearch_rerun enabled interval a) = searchType a
  ∧ ∀ h i, intervals (autoSearch_rerun enabled interval a) !! h = Some i →
           captured_searchType i = searchType a.
Proof.
  intros Hok. pose proof Hok as [Hnext Href].
  destruct (autoSearch_cleanup_empty a Hok) as (Hint & Hn & Hsame & Htype).
  assert (match autoSearchRef a with
          | Some h => delete h (∅ : gmap nat Interval)
          | None => ∅
          end = ∅) as Hdel.
  { destruct (autoSearchRef a); [apply delete_empty|done]. }
  assert (truthy_handle (autoSearchRef a) = false → autoSearchRef a = None) as Hnone.
  { destruct (autoSearchEnabled a && positive (autoSearchInterval a)).
    - destruct Href as (h & Hh & -> & _). destruct h; [lia|done].
    - by destruct Href as [-> _]. }
  unfold autoSearch_rerun, autoSearch_effect. rewrite Hint, Hn, Hsame, Htype. simpl.
  destruct (truthy_handle (autoSearchRef a)) eqn:Et; simpl;
    destruct (enabled && positive interval) eqn:E; simpl;
    unfold autoSearch_ok; simpl; rewrite ?E, ?Hdel.
  - split_and!; try done; [lia| |].
    + exists (next_interval a). split_and!; [lia|lia|done|].
      eexists. by rewrite insert_empty.
    + intros h i. rewrite insert_empty.
      intros [_ <-]%lookup_singleton_Some. done.
  - split_and!; try done.
  - split_and!; try done; [lia| |].
    + exists (next_interval a). split_and!; [lia|lia|done|].
      eexists. by rewrite insert_empty.
    + intros h i. rewrite insert_empty.
      intros [_ <-]%lookup_singleton_Some. done.
  - split_and!; try done. by apply Hnone.
Qed.

Lemma autoSearch_step_ok (a : AutoSearch) (action : AutoSearchAction) :
  autoSearch_ok a → autoSearch_ok (autoSearch_step a action).
Proof.
  intros Hok. destruct action as [|parsed|id]; simpl.
  - by apply autoSearch_rerun_ok.
  - unfold change_interval. case_decide; [done|]. by apply autoSearch_rerun_ok.
  - done.
Qed.

Lemma autoSearch_run_snoc (actions : list AutoSearchAction) (action : AutoSearchAction) :
  autoSearch_run (actions ++ [action])
  = autoSearch_step (autoSearch_run actions) action.
Proof. unfold autoSearch_run. by rewrite foldl_app. Qed.

Lemma autoSearch_run_ok (actions : list AutoSearchAction) :
  autoSearch_ok (autoSearch_run actions).
Proof.
  induction actions as [|action actions IH] using rev_ind.
  - split; [done|]. simpl. done.
  - rewrite autoSearch_run_snoc. by apply autoSearch_step_ok.
Qed.

Lemma to_double_small (z : Z) : Z.abs z < 9007199254740992 → to_double z = Integer z.
Proof.
  intros Hz. unfold to_double. change (2 ^ 53) with 9007199254740992.
  by rewrite (proj2 (Z.ltb_lt _ _) Hz).
Qed.

Lemma minutes_timeout (minutes : Z) :
  0 ≤ minutes ≤ 71582 →
  times (times (Integer minutes) 60) 1000 = Integer (minutes * 60 * 1000).
Proof.
  intros Hm. unfold times at 2. rewrite to_double_small by lia.
  unfold times. by rewrite to_double_small by lia.
Qed.

(** X19.  The automatic search is rescheduled as a whole.  However the
    checkbox and the number of minutes are changed, the window holds one
    interval when the search is enabled and the number is positive, and no
    interval otherwise; the ref holds the handle of that interval, and an
    earlier interval is never left running.  The interval is set with the
    number of minutes times 60 times 1000; up to 35791 minutes that is its
    period in milliseconds, and from 35792 to 71582 minutes the product does
    not fit the [long] the window takes, is negative as one, and the period
    is zero. *)
Theorem autoSearch_one_interval (actions : list AutoSearchAction) :
  let a := autoSearch_run actions in
  (autoSearchEnabled a = true ∧ positive (autoSearchInterval a) = true →
     ∃ h i, autoSearchRef a = Some h ∧ intervals a = {[ h := i ]}
            ∧ ∀ minutes, autoSearchInterval a = Integer minutes →
                (minutes ≤ 71582 → interval_timeout i = Integer (minutes * 60 * 1000))
                ∧ (minutes ≤ 35791 → period i = minutes * 60 * 1000)
                ∧ (35792 ≤ minutes ≤ 71582 → period i = 0))
  ∧ (autoSearchEnabled a = false ∨ positive (autoSearchInterval a) = false →
     intervals a = ∅)
  ∧ (size (intervals a) ≤ 1)%nat.
Proof.
  intros a. destruct (autoSearch_run_ok actions) as [_ Hok]. fold a in Hok.
  destruct (autoSearchEnabled a) eqn:Ee, (positive (autoSearchInterval a)) eqn:Ep;
    simpl in Hok.
  - destruct Hok as (h & _ & Href & type & Hint). split_and!.
    + intros _. eexists h, _. split_and!; [done|exact Hint|].
      intros minutes Hminutes. rewrite Hminutes in Ep. simpl in Ep.
      apply Z.ltb_lt in Ep. unfold period. simpl. rewrite Hminutes.
      split_and!; intros Hle.
      * apply minutes_timeout. lia.
      * rewrite minutes_timeout by lia. simpl. apply timer_delay_small. lia.
      * rewrite minutes_timeout by lia. simpl. apply timer_delay_wrapped. lia.
    + by intros [?|?].
    + rewrite Hint, map_size_singleton. lia.
  - destruct Hok as [_ Hint]. split_and!; [by intros [_ ?]|done|].
    rewrite Hint, map_size_empty. lia.
  - destruct Hok as [_ Hint]. split_and!; [by intros [? _]|done|].
    rewrite Hint, map_size_empty. lia.
  - destruct Hok as [_ Hint]. split_and!; [by intros [? _]|done|].
    rewrite Hint, map_size_empty. lia.
Qed.

Lemma autoSearch_one_interval_witness :
  ∃ i, intervals (autoSearch_run [ChangeInterval (Some (Integer 15)); Toggle;
                                  ChangeInterval (Some (Integer 30))])
       = {[ 2%nat := i ]}
       ∧ period i = 1800000.
Proof.
  destruct (proj1 (autoSearch_one_interval
                     [ChangeInterval (Some (Integer 15)); Toggle;
                      ChangeInterval (Some (Integer 30))]))
    as (h & i & Href & Hint & Hperiod).
  - split; reflexivity.
  - injection Href as <-. exists i. split; [exact Hint|].
    apply (proj1 (proj2 (Hperiod 30 eq_refl))). lia.
Defined.

(** The delay of 35792 minutes is set as zero, and the products are those of
    binary64. *)
Example autoSearch_long_delay :
  ∃ i, intervals (autoSearch_run [ChangeInterval (Some (Integer 35792)); Toggle])
       = {[ 1%nat := i ]}
       ∧ interval_timeout i = Integer 2147520000
       ∧ period i = 0.
Proof. eexists. split_and!; reflexivity. Qed.

Example times_binary64 :
  times (times (Integer 9007199254740991) 60) 1000 = Integer 540431955284459454464.
Proof. reflexivity. Qed.

(** X20.  Unmounting leaves no interval behind, in whatever state the
    automatic search is. *)
Theorem autoSearch_unmount (actions : list AutoSearchAction) :
  intervals (autoSearch_cleanup (autoSearch_run actions)) = ∅.
Proof.
  by destruct (autoSearch_cleanup_empty _ (autoSearch_run_ok actions)) as [-> _].
Qed.

Lemma select_types_keep (ids : list string) (a : AutoSearch) :
  intervals (foldl autoSearch_step a (SelectType <$> ids)) = intervals a
  ∧ autoSearchEnabled (foldl autoSearch_step a (SelectType <$> ids)) = autoSearchEnabled a
  ∧ autoSearchInterval (foldl autoSearch_step a (SelectType <$> ids))
    = autoSearchInterval a
  ∧ searchType (foldl autoSearch_step a (SelectType <$> ids))
    = default (searchType a) (last ids).
Proof.
  revert a. induction ids as [|id ids IH]; intros a; [done|].
  rewrite fmap_cons. simpl. destruct (IH (setSearchType id a)) as (-> & -> & -> & ->).
  split_and!; try done. destruct ids as [|id' ids']; [done|].
  change (last (id :: id' :: ids')) with (last (id' :: ids')).
  by destruct (last (id' :: ids')) eqn:E; [|apply last_None in E].
Qed.

(** X21.  The automatic search looks for the event type that was selected
    when it was last scheduled.  When the checkbox or the number of minutes
    is changed and other event types are selected afterwards, the interval
    that is running still belongs to the search for the type selected at the
    time of the change, while the page shows the type selected last. *)
Theorem autoSearch_keeps_type (before : list AutoSearchAction) (change : AutoSearchAction)
  (ids : list string) (h : nat) (i : Interval) :
  reschedules (autoSearch_run before) change →
  intervals (autoSearch_run (before ++ [change] ++ (SelectType <$> ids))) !! h = Some i →
  captured_searchType i = searchType (autoSearch_run before)
  ∧ searchType (autoSearch_run (before ++ [change] ++ (SelectType <$> ids)))
    = default (searchType (autoSearch_run before)) (last ids).
Proof.
  intros Hchange.
  assert (autoSearch_run (before ++ [change] ++ (SelectType <$> ids))
          = foldl autoSearch_step (autoSearch_step (autoSearch_run before) change)
              (SelectType <$> ids)) as ->.
  { unfold autoSearch_run. by rewrite !foldl_app. }
  destruct (select_types_keep ids (autoSearch_step (autoSearch_run before) change))
    as (-> & _ & _ & ->).
  pose proof (autoSearch_run_ok before) as Hok.
  assert (∃ enabled interval,
            autoSearch_step (autoSearch_run before) change
            = autoSearch_rerun enabled interval (autoSearch_run before)) as Hrerun.
  { destruct change as [|parsed|id]; simpl in *.
    - by eexists _, _.
    - unfold change_interval. rewrite decide_False by done. by eexists _, _.
    - done. }
  destruct Hrerun as (enabled & interval & ->).
  destruct (autoSearch_rerun_ok enabled interval _ Hok) as (_ & _ & _ & -> & Hcaptured).
  intros Hi. split; [by eapply Hcaptured|done].
Qed.

Lemma autoSearch_keeps_type_witness :
  ∃ i, intervals (autoSearch_run
                    ([ChangeInterval (Some (Integer 15)); SelectType "musicales"] ++ [Toggle]
                       ++ (SelectType <$> ["deportivos"])))
       !! 1%nat = Some i
       ∧ captured_searchType i = "musicales".
Proof.
  eexists. split; [reflexivity|].
  exact (proj1 (autoSearch_keeps_type
                  [ChangeInterval (Some (Integer 15)); SelectType "musicales"] Toggle
                  ["deportivos"] 1 _ I eq_refl)).
Defined.

(** ** Contacts *)

Lemma filter_other_index_delete {A} (i : nat) (l : list A) :
  filter_other_index i l = delete i l.
Proof.
  unfold filter_other_index.
  assert (∀ start j,
            snd <$> filter (λ p, p.1 ≠ (start + j)%nat) (zip (seq start (length l)) l)
            = delete j l) as Hgen.
  { induction l as [|x l IH]; intros start j; [done|].
    simpl. rewrite filter_cons. simpl.
    destruct j as [|j].
    - rewrite decide_False by lia. simpl.
      assert (∀ (k : list A) s, (start < s)%nat →
                snd <$> filter (λ p, p.1 ≠ (start + 0)%nat) (zip (seq s (length k)) k) = k)
        as Hall.
      { induction k as [|y k IHk]; intros s Hs; [done|].
        simpl. rewrite filter_cons. simpl. rewrite decide_True by lia.
        rewrite fmap_cons. simpl. f_equal. apply IHk. lia. }
      apply Hall. lia.
    - rewrite decide_True by lia. rewrite fmap_cons. simpl. f_equal.
      replace (start + S j)%nat with (S start + j)%nat by lia. apply IH. }
  apply (Hgen 0%nat i).
Qed.

(** X22.  Editing the contacts of an event of the agenda.  [Enter] in the
    contact field gives every event of that title the contacts of the
    rendered event followed by the trimmed text, and leaves its other
    properties and the other events as they are; any other key, or a text
    of white space only, changes nothing.  The cross of a contact gives the
    events of that title the contacts of the rendered event without the one
    at that place, the others in their order; a place beyond the last
    changes no contact. *)
Theorem contacts_edit `{Engine} (clock : Z) (event : SavedEvent) (st : State) :
  (∀ key value,
     key ≠ "Enter" ∨ all_white_space value = true →
     add_contact clock event key value st = st)
  ∧ (∀ value j e,
       all_white_space value = false →
       savedEvents st !! j = Some e →
       ∃ e', savedEvents (add_contact clock event "Enter" value st) !! j = Some e'
             ∧ (titulo e ≠ titulo event → e' = e)
             ∧ (titulo e = titulo event →
                  contactos e' = contactos event ++ [trim value]
                  ∧ ∀ other, other ≠ "contactos" → property other e' = property other e))
  ∧ (∀ i j e,
       savedEvents st !! j = Some e →
       ∃ e', savedEvents (remove_contact clock event i st) !! j = Some e'
             ∧ (titulo e ≠ titulo event → e' = e)
             ∧ (titulo e = titulo event →
                  contactos e' = delete i (contactos event)
                  ∧ ∀ other, other ≠ "contactos" → property other e' = property other e))
  ∧ (∀ i, delete i (contactos event) `sublist_of` contactos event
          ∧ ((length (contactos event) ≤ i)%nat →
               delete i (contactos event) = contactos event)
          ∧ ((i < length (contactos event))%nat →
               S (length (delete i (contactos event))) = length (contactos event))
          ∧ (∀ k, (k < i)%nat → delete i (contactos event) !! k = contactos event !! k)
          ∧ (∀ k, (i ≤ k)%nat →
               delete i (contactos event) !! k = contactos event !! S k)).
Proof.
  assert (∀ contacts e,
            ∃ e', (if decide (titulo e = titulo event)
                   then assign (set_contactos contacts) e else e) = e'
                  ∧ (titulo e ≠ titulo event → e' = e)
                  ∧ (titulo e = titulo event →
                       contactos e' = contacts
                       ∧ ∀ other, other ≠ "contactos" →
                                  property other e' = property other e)) as Hset.
  { intros contacts e. eexists. split; [done|]. case_decide as He; split; try done.
    intros _. split; [done|]. intros other Hother.
    rewrite (assign_written (set_contactos contacts) e other). by rewrite decide_False. }
  split_and!.
  - intros key value [Hkey|Hblank]; unfold add_contact.
    + by rewrite decide_False.
    + case_decide; [|done]. apply trim_blank in Hblank. by rewrite Hblank.
  - intros value j e Hnb Hj. unfold add_contact. rewrite decide_True by done.
    destruct (trim value) eqn:E.
    { apply trim_blank in E. congruence. }
    cbn [JS.truthy_string]. rewrite updateSavedEvent_saved.
    change (map ?f ?l) with (f <$> l). rewrite list_lookup_fmap, Hj. simpl.
    destruct (Hset (contactos event ++ [String a s]) e) as (e' & -> & Hrest). eauto.
  - intros i j e Hj. unfold remove_contact.
    rewrite updateSavedEvent_saved, filter_other_index_delete.
    change (map ?f ?l) with (f <$> l). rewrite list_lookup_fmap, Hj. simpl.
    destruct (Hset (delete i (contactos event)) e) as (e' & -> & Hrest). eauto.
  - intros i. split_and!.
    + apply sublist_delete.
    + intros Hi. revert i Hi. induction (contactos event) as [|x l IH]; intros i Hi.
      * by destruct i.
      * destruct i as [|i]; simpl in *; [lia|]. f_equal. apply IH. lia.
    + intros Hi. rewrite length_delete; [lia|]. by apply lookup_lt_is_Some_2.
    + intros k Hk. by apply list_lookup_delete_lt.
    + intros k Hk. by apply list_lookup_delete_ge.
Qed.

Lemma contacts_edit_witness :
  ∃ e', savedEvents (add_contact (H := sample_engine) 5 regatta "Enter" "  Luis "
                       (importAgenda (H := sample_engine) 1 (Some "agenda") (mount 0)))
        !! 0%nat = Some e'
        ∧ contactos e' = ["Ana"; "Luis"]
        ∧ property "notas" e' = Some (Text "bring hat").
Proof.
  destruct (proj1 (proj2 (contacts_edit (H := sample_engine) 5 regatta
                            (importAgenda (H := sample_engine) 1 (Some "agenda") (mount 0))))
              "  Luis " 0%nat regatta eq_refl eq_refl)
    as (e' & He' & _ & Hwritten).
  destruct (Hwritten eq_refl) as [Hcontactos Hothers].
  exists e'. split_and!; [exact He'|exact Hcontactos|].
  rewrite (Hothers "notas"); [reflexivity|discriminate].
Defined.

(** X23.  Adding a contact to an event and taking that contact out again
    gives back the agenda as it was, when the event is the only one of its
    title. *)
Theorem add_then_remove_contact `{Engine} (c1 c2 : Z) (event : SavedEvent) (value : string)
  (st : State) :
  (∀ e, e ∈ savedEvents st → titulo e = titulo event → e = event) →
  all_white_space value = false →
  savedEvents
    (remove_contact c2 (assign (set_contactos (contactos event ++ [trim value])) event)
       (length (contactos event))
       (add_contact c1 event "Enter" value st))
  = savedEvents st.
Proof.
  intros Hone Hnb. unfold remove_contact, add_contact. rewrite decide_True by done.
  destruct (trim value) eqn:E.
  { apply trim_blank in E. congruence. }
  cbn [JS.truthy_string]. rewrite !updateSavedEvent_saved, filter_other_index_delete.
  simpl. rewrite delete_middle, app_nil_r.
  induction (savedEvents st) as [|e l IH]; [done|]. simpl.
  rewrite IH by (intros; apply Hone; [by right|done]). f_equal.
  destruct (decide (titulo e = titulo event)) as [He|He]; simpl.
  - rewrite decide_True by done.
    rewrite (Hone e) by (by left || done). by destruct event.
  - by rewrite decide_False.
Qed.

Lemma add_then_remove_contact_witness :
  let st := importAgenda (H := sample_engine) 1 (Some "agenda") (mount 0) in
  savedEvents
    (remove_contact (H := sample_engine) 6
       (assign (set_contactos ["Ana"; "Luis"]) regatta) 1
       (add_contact (H := sample_engine) 5 regatta "Enter" " Luis" st))
  = savedEvents st.
Proof.
  intros st.
  apply (add_then_remove_contact (H := sample_engine) 5 6 regatta " Luis" st);
    [|reflexivity].
  intros e He _. apply list_elem_of_singleton in He. exact He.
Defined.

(** ** Choosing a reminder *)

Lemma digit_value_range (c : ascii) (d : Z) : JS.digit_value c = Some d → 0 ≤ d ≤ 9.
Proof.
  unfold JS.digit_value. case_match eqn:E; [|done]. intros [= <-]. lia.
Qed.

Lemma calendar_day_year (s : string) (a : Z * Z * Z) :
  calendar_day s = Some a → 0 ≤ a.1.1 ≤ 9999.
Proof.
  unfold calendar_day. destruct (matches_date_text s) eqn:Hm; [|done].
  unfold matches_date_text in Hm. apply andb_prop in Hm as [Hform _].
  destruct s as [|d1 [|d2 [|s1 [|m1 [|m2 [|s2 [|y1 [|y2 [|y3 [|y4 rest]]]]]]]]]];
    try done.
  cbn [string_take string_drop]. clear Hform.
  destruct (JS.digits_value 0 (String y1 (String y2 (String y3 (String y4 EmptyString)))))
    as [y|] eqn:Ey; [|done].
  assert (0 ≤ y ≤ 9999) as Hy.
  { simpl in Ey.
    destruct (JS.digit_value y1) as [n1|] eqn:E1; [|done].
    destruct (JS.digit_value y2) as [n2|] eqn:E2; [|done].
    destruct (JS.digit_value y3) as [n3|] eqn:E3; [|done].
    destruct (JS.digit_value y4) as [n4|] eqn:E4; [|done].
    apply digit_value_range in E1, E2, E3, E4. injection Ey as <-. lia. }
  repeat case_match; try done. by intros [= <-].
Qed.

Lemma calendar_day_time_range (a : Z * Z * Z) :
  is_calendar_day a → 0 ≤ a.1.1 ≤ 9999 →
  -62167219200000 ≤ JS.UTC_midnight a.1.1 a.1.2 a.2 ≤ 253402300800000.
Proof.
  destruct a as [[y m] d]. unfold is_calendar_day. simpl. intros [Hm Hd] Hy.
  pose proof (day_in_year_bounds y m d Hm Hd) as Hin.
  pose proof (DayFromYear_later 0 y ltac:(lia)) as Hlow.
  pose proof (DayFromYear_later y (9999 - y) ltac:(lia)) as Hhigh.
  replace (y + (9999 - y)) with 9999 in Hhigh by lia.
  replace (0 + y) with y in Hlow by lia.
  change (JS.DayFromYear 0) with (-719528) in Hlow.
  change (JS.DayFromYear 9999) with 2932532 in Hhigh.
  unfold JS.UTC_midnight, JS.msPerDay.
  destruct (JS.InLeapYear y); lia.
Qed.

(** X24.  Choosing "no reminder" for an event leaves no reminder of its
    title: in any state of the component, after the select is set to its
    empty option no pending timeout belongs to an event of that title. *)
Theorem no_reminder_when_cleared `{Engine} (clock : Z) (event : SavedEvent) (st : State)
  (t : nat) (timeout : Timeout) :
  reachable st →
  pending (window (choose_reminder clock event None st)) !! t = Some timeout →
  titulo (timeout_event timeout) ≠ titulo event.
Proof.
  intros Hreach Ht Htitle.
  pose proof (effect_ok_reachable _
                (reachable_perform clock (Update (titulo event) (set_reminder None)) st Hreach))
    as Hok.
  simpl in Hok. fold (choose_reminder clock event None st) in Hok.
  pose proof (pending_event_saved _ _ _ Hok Ht) as Hsaved.
  pose proof (pending_event_armed _ _ _ Hok Ht) as (x & Hfire & _).
  unfold choose_reminder in Hsaved. rewrite updateSavedEvent_saved in Hsaved.
  change (map ?f ?l) with (f <$> l) in Hsaved.
  apply list_elem_of_fmap in Hsaved as (e & He & _).
  destruct (decide (titulo e = titulo event)) as [Hmatch|Hother].
  - rewrite He in Hfire. by unfold fire_time in Hfire.
  - rewrite He in Htitle. done.
Qed.

Lemma no_reminder_when_cleared_witness :
  let st := run (H := sample_engine)
              [(1, Import (Some "agenda")); (2, Save beach_party)] (mount 0) in
  ∃ timeout,
    pending (window (choose_reminder (H := sample_engine) 3
                       (blank_annotations beach_party) None st)) !! 3%nat
    = Some timeout
    ∧ titulo (timeout_event timeout) ≠ "Beach Party".
Proof.
  intros st. eexists. split; [reflexivity|].
  refine (no_reminder_when_cleared (H := sample_engine) 3 (blank_annotations beach_party)
            st 3 _ _ eq_refl).
  apply (reachable_perform 2 (Save beach_party)).
  apply (reachable_perform 1 (Import (Some "agenda"))). apply reachable_mount.
Defined.

Lemma elapse_alerts_due (clock : Z) (st : State) (t : nat) (timeout : Timeout) :
  pending (window st) !! t = Some timeout → timeout_due timeout ≤ clock →
  reminder_message (timeout_event timeout) ∈ alerts (window (elapse clock st)).
Proof.
  intros Ht Hdue. simpl. unfold elapse_window. rewrite foldl_fire_alerts.
  apply elem_of_app. right. apply list_elem_of_fmap. exists (t, timeout).
  split; [done|]. by apply due_timeouts_elem_of.
Qed.

(** X25.  Choosing one of the lead times the select offers (an hour, a day
    or a week) for an event whose date is a day of the calendar arms a
    reminder, provided that moment (midnight UTC of the day less the lead
    time) is still to come and no more than 2147483647 ms away: a timeout is
    set for the event with the delay from the clock reading to that moment,
    it is pending at any time before the moment, and at the moment it runs
    and the reminder is shown. *)
Theorem reminder_chosen_is_armed `{Engine} (clock : Z) (event e : SavedEvent) (st : State)
  (lead : Z) (day : Z * Z * Z) :
  reachable st →
  e ∈ savedEvents st → titulo e = titulo event →
  lead ∈ offered_leads →
  calendar_day (fecha e) = Some day →
  clock < JS.UTC_midnight day.1.1 day.1.2 day.2 - lead →
  JS.UTC_midnight day.1.1 day.1.2 day.2 - lead - clock ≤ 2147483647 →
  let chosen := choose_reminder clock event (Some lead) st in
  let moment := JS.UTC_midnight day.1.1 day.1.2 day.2 - lead in
  ∃ t timeout,
    pending (window chosen) !! t = Some timeout
    ∧ reminder (timeout_event timeout) = Some lead
    ∧ written "reminder" (Milliseconds (Some lead)) e (timeout_event timeout)
    ∧ timeout_delay timeout = moment - clock
    ∧ timeout_due timeout = moment
    ∧ (∀ time, time < moment → pending (window (elapse time chosen)) !! t = Some timeout)
    ∧ pending (window (elapse moment chosen)) !! t = None
    ∧ reminder_message (timeout_event timeout) ∈ alerts (window (elapse moment chosen)).
Proof.
  intros Hreach He Htitle Hlead Hday Hfuture Hlong chosen moment.
  pose proof (effect_ok_until_setSavedEvents clock
                (map (λ e, if decide (titulo e = titulo event)
                           then assign (set_reminder (Some lead)) e else e)
                   (savedEvents st)) st (effect_ok_reachable _ Hreach)) as Huntil.
  fold (updateSavedEvent clock (titulo event) (set_reminder (Some lead)) st) in Huntil.
  fold (choose_reminder clock event (Some lead) st) in Huntil. fold chosen in Huntil.
  set (e' := assign (set_reminder (Some lead)) e).
  assert (e' ∈ savedEvents chosen) as Hin.
  { unfold chosen, choose_reminder. rewrite updateSavedEvent_saved.
    change (map ?f ?l) with (f <$> l). apply list_elem_of_fmap.
    exists e. by rewrite decide_True. }
  assert (0 < lead ≤ 604800000) as Hrange.
  { unfold offered_leads in Hlead.
    repeat (apply elem_of_cons in Hlead as [->|Hlead]; [lia|]).
    by apply elem_of_nil in Hlead. }
  pose proof (calendar_day_time_range day (calendar_day_is_calendar_day _ _ Hday)
                (calendar_day_year _ _ Hday)) as Htime.
  assert (fire_time e' = Some moment) as Hfire.
  { unfold fire_time, e'. simpl. rewrite decide_False by lia.
    change (fecha (assign (set_reminder (Some lead)) e)) with (fecha e).
    rewrite (parseDate_calendar_day _ _ Hday). simpl.
    by rewrite (proj2 (Z.leb_le _ _)) by (unfold moment; lia). }
  assert (now chosen = clock) as Hnow by apply now_set.
  assert (timeout_for clock e'
          = {| timeout_event := e'; timeout_delay := moment - clock;
               timeout_due := moment |}) as Hfor.
  { unfold timeout_for. rewrite Hfire. simpl.
    rewrite timer_delay_small by (unfold moment; lia). f_equal. lia. }
  destruct (armed_has_timeout clock chosen e' Huntil Hin) as (t & Ht).
  { rewrite Hnow. eexists. split; [exact Hfire|done]. }
  { rewrite Hnow, Hfor. simpl. done. }
  rewrite Hnow, Hfor in Ht.
  eexists t, _. split_and!; [exact Ht|done| |done|done| | |]; simpl.
  - apply (assign_written (set_reminder (Some lead)) e).
  - intros time Htime'. apply elapse_pending_Some. by split.
  - apply eq_None_not_Some. intros [timeout Hlater].
    apply elapse_pending_Some in Hlater as [Ht' Hlt].
    rewrite Ht in Ht'. injection Ht' as <-. simpl in Hlt. lia.
  - by apply (elapse_alerts_due moment chosen t _ Ht).
Qed.

Lemma reminder_chosen_is_armed_witness :
  let st := saveEvent (H := sample_engine) 0 beach_party (mount 0) in
  ∃ t timeout,
    pending (window (choose_reminder (H := sample_engine) 1752188400000
                       (blank_annotations beach_party) (Some 86400000) st)) !! t
    = Some timeout
    ∧ timeout_delay timeout = 3600000
    ∧ timeout_due timeout = 1752192000000.
Proof.
  intros st.
  destruct (reminder_chosen_is_armed (H := sample_engine) 1752188400000
              (blank_annotations beach_party) (blank_annotations beach_party) st
              86400000 (2025, 7, 12))
    as (t & timeout & Ht & _ & _ & Hdelay & Hdue & _).
  - apply (reachable_perform 0 (Save beach_party)). apply reachable_mount.
  - apply list_elem_of_here.
  - reflexivity.
  - right. left.
  - reflexivity.
  - reflexivity.
  - vm_compute. discriminate.
  - exists t, timeout. split_and!; [exact Ht|exact Hdelay|exact Hdue].
Defined.

(** ** The text of the search answer *)

Lemma trim_end_app_blank (s w : string) :
  all_white_space w = true → trim_end (s +:+ w) = trim_end s.
Proof.
  intros Hw. induction s as [|c r IH].
  - rewrite append_empty. by apply trim_end_blank.
  - rewrite append_String. simpl. by rewrite IH.
Qed.

Lemma skip_white_space_app_blank (s w : string) :
  all_white_space w = true →
  JS.skip_white_space (s +:+ w)
  = if all_white_space s then EmptyString else JS.skip_white_space s +:+ w.
Proof.
  intros Hw. induction s as [|c r IH].
  - rewrite append_empty. by apply skip_white_space_blank.
  - rewrite append_String. simpl. destruct (JS.is_white_space c); simpl; [done|].
    by rewrite append_String.
Qed.

Lemma trim_app_blank (s w : string) :
  all_white_space w = true → trim (s +:+ w) = trim s.
Proof.
  intros Hw. unfold trim. rewrite skip_white_space_app_blank by done.
  destruct (all_white_space s) eqn:Hs.
  - by rewrite skip_white_space_blank.
  - by apply trim_end_app_blank.
Qed.

Lemma remove_all_plain (literal body tail : string) :
  contains_backtick body = false →
  remove_all (String "`" literal) 0 (body +:+ tail)
  = body +:+ remove_all (String "`" literal) 0 tail.
Proof.
  intros Hb. induction body as [|c r IH]; [done|].
  simpl in Hb. apply orb_false_elim in Hb as [Hc Hr].
  rewrite !append_String. cbn [remove_all strip_literal].
  rewrite Ascii.eqb_sym, Hc. by rewrite IH.
Qed.

(** X26.  What is handed to [JSON.parse].  An answer without a backtick is
    only trimmed; an answer wrapped in a Markdown fence, with or without the
    [json] tag, is unwrapped: the fences and their line feeds go, and what
    is left is the trimmed body. *)
Theorem cleanText_unwraps (body : string) :
  contains_backtick body = false →
  cleanText body = trim body
  ∧ cleanText (json_fence +:+ String newline (body +:+ String newline fence)) = trim body
  ∧ cleanText (fence +:+ String newline (body +:+ String newline fence)) = trim body.
Proof.
  intros Hb. unfold cleanText, json_fence, fence.
  assert (∀ s, s +:+ EmptyString = s) as Hnil.
  { induction s as [|c r IH]; [done|]. by rewrite append_String, IH. }
  assert (∀ literal, remove_all (String "`" literal) 0 body = body) as Hplain.
  { intros literal. rewrite <- (Hnil body) at 1.
    rewrite remove_all_plain by done. simpl. apply Hnil. }
  assert (remove_all "```json" 0 (body +:+ String newline "```")
          = body +:+ String newline "```") as Htail1.
  { by rewrite remove_all_plain by done. }
  assert (remove_all "```" 0 (body +:+ String newline "```")
          = body +:+ String newline EmptyString) as Htail2.
  { by rewrite remove_all_plain by done. }
  split_and!.
  - by rewrite !Hplain.
  - change (remove_all "```json" 0
              ("```json" +:+ String newline (body +:+ String newline "```")))
      with (remove_all "```json" 0 (body +:+ String newline "```")).
    rewrite Htail1, Htail2. by apply trim_app_blank.
  - change (remove_all "```json" 0
              ("```" +:+ String newline (body +:+ String newline "```")))
      with ("```" +:+ String newline
              (remove_all "```json" 0 (body +:+ String newline "```"))).
    rewrite Htail1.
    change (remove_all "```" 0
              ("```" +:+ String newline (body +:+ String newline "```")))
      with (remove_all "```" 0 (body +:+ String newline "```")).
    rewrite Htail2. by apply trim_app_blank.
Qed.

Lemma cleanText_unwraps_witness :
  cleanText (json_fence +:+ String newline ("[ ]" +:+ String newline fence)) = "[ ]".
Proof.
  exact (proj1 (proj2 (cleanText_unwraps "[ ]" eq_refl))).
Defined.

Lemma remove_all_skip (literal : string) (k : nat) (s : string) :
  remove_all literal k s = remove_all literal 0 (string_drop k s).
Proof.
  revert s. induction k as [|k IH]; intros s; [by destruct s|].
  destruct s as [|c r]; [done|]. simpl. apply IH.
Qed.

Lemma string_drop_length (k : nat) (s : string) :
  (String.length (string_drop k s) ≤ String.length s)%nat.
Proof.
  revert s. induction k as [|k IH]; intros s; [by destruct s|].
  destruct s as [|c r]; [done|]. simpl. specialize (IH r). lia.
Qed.

Lemma has_fence_unfold (s : string) :
  has_fence s
  = match strip_literal fence s with
    | Some _ => true
    | None => match s with
              | EmptyString => false
              | String _ r => has_fence r
              end
    end.
Proof. by destruct s. Qed.

Lemma remove_all_unfold (c : ascii) (r : string) :
  remove_all fence 0 (String c r)
  = match strip_literal fence (String c r) with
    | Some rest =>
        remove_all fence (2 + (if starts_with_newline rest then 1 else 0)) r
    | None => String c (remove_all fence 0 r)
    end.
Proof. reflexivity. Qed.

Lemma strip_fence (s : string) :
  strip_literal fence s
  = match s with
    | String c1 (String c2 (String c3 r)) =>
        if is_backtick c1 && is_backtick c2 && is_backtick c3 then Some r else None
    | _ => None
    end.
Proof.
  unfold fence, is_backtick.
  destruct s as [|c1 [|c2 [|c3 r]]]; cbn [strip_literal]; try done.
  - by destruct (Ascii.eqb "`" c1).
  - by destruct (Ascii.eqb "`" c1), (Ascii.eqb "`" c2).
  - by destruct (Ascii.eqb "`" c1), (Ascii.eqb "`" c2), (Ascii.eqb "`" c3).
Qed.

(** Where the text does not start with a fence, neither does the result. *)
Lemma remove_all_start (s : string) :
  strip_literal fence s = None → strip_literal fence (remove_all fence 0 s) = None.
Proof.
  destruct s as [|c1 r1]; [done|]. intros H1.
  rewrite remove_all_unfold, H1. rewrite strip_fence in H1. rewrite strip_fence.
  destruct r1 as [|c2 r2]; [done|].
  assert (strip_literal fence (String c2 r2) = None
          ∨ is_backtick c1 = false) as [H2|E1].
  { rewrite strip_fence. destruct r2 as [|c3 [|c4 r4]]; [by left..|].
    destruct (is_backtick c1); [|by right]. left.
    simpl in H1. destruct (is_backtick c2), (is_backtick c3); done. }
  2: { destruct (remove_all fence 0 (String c2 r2)) as [|? [|? ?]]; try done.
       by rewrite E1. }
  rewrite remove_all_unfold, H2. rewrite strip_fence in H2.
  destruct r2 as [|c3 r3]; [done|].
  assert (strip_literal fence (String c3 r3) = None
          ∨ is_backtick c1 && is_backtick c2 = false) as [H3|E12].
  { rewrite strip_fence. destruct r3 as [|c4 [|c5 r5]]; [by left..|].
    destruct (is_backtick c1), (is_backtick c2); try (by right). left.
    simpl in H1. destruct (is_backtick c3); [done|done]. }
  2: { destruct (remove_all fence 0 (String c3 r3)); [done|by rewrite E12]. }
  rewrite remove_all_unfold, H3.
  by destruct (is_backtick c1), (is_backtick c2), (is_backtick c3).
Qed.

Lemma remove_all_no_fence (s : string) : has_fence (remove_all fence 0 s) = false.
Proof.
  assert (∀ n s, (String.length s ≤ n)%nat → has_fence (remove_all fence 0 s) = false)
    as Hgen.
  { clear s. induction n as [|n IH]; intros s Hlen.
    - by destruct s; [|simpl in Hlen; lia].
    - destruct s as [|c r]; [done|]. simpl in Hlen.
      pose proof (remove_all_start (String c r)) as Hstart.
      rewrite remove_all_unfold in *.
      destruct (strip_literal fence (String c r)) as [rest|] eqn:E.
      + rewrite remove_all_skip. apply IH.
        pose proof (string_drop_length
                      (2 + (if starts_with_newline rest then 1 else 0)) r). lia.
      + rewrite has_fence_unfold, (Hstart eq_refl). apply IH. lia. }
  by apply (Hgen (String.length s)).
Qed.

Lemma has_fence_suffix (c : ascii) (s : string) :
  has_fence (String c s) = false → has_fence s = false.
Proof.
  rewrite has_fence_unfold. by destruct (strip_literal fence (String c s)).
Qed.

Lemma has_fence_skip_white_space (s : string) :
  has_fence s = false → has_fence (JS.skip_white_space s) = false.
Proof.
  induction s as [|c r IH]; [done|]. intros Hs. simpl.
  destruct (JS.is_white_space c); [|done]. by eapply IH, has_fence_suffix.
Qed.

Lemma strip_literal_trim_end (s : string) :
  strip_literal fence s = None → strip_literal fence (trim_end s) = None.
Proof.
  rewrite !strip_fence.
  destruct s as [|c1 [|c2 [|c3 r]]].
  - done.
  - intros _. simpl. by destruct (JS.is_white_space c1).
  - intros _. simpl. by destruct (JS.is_white_space c2), (JS.is_white_space c1).
  - intros Hs.
    change (trim_end (String c1 (String c2 (String c3 r))))
      with (match trim_end (String c2 (String c3 r)) with
            | EmptyString =>
                if JS.is_white_space c1 then EmptyString else String c1 EmptyString
            | r' => String c1 r'
            end).
    change (trim_end (String c2 (String c3 r)))
      with (match trim_end (String c3 r) with
            | EmptyString =>
                if JS.is_white_space c2 then EmptyString else String c2 EmptyString
            | r' => String c2 r'
            end).
    change (trim_end (String c3 r))
      with (match trim_end r with
            | EmptyString =>
                if JS.is_white_space c3 then EmptyString else String c3 EmptyString
            | r' => String c3 r'
            end).
    destruct (trim_end r);
      destruct (JS.is_white_space c3), (JS.is_white_space c2), (JS.is_white_space c1);
      try done; by destruct (is_backtick c1), (is_backtick c2), (is_backtick c3).
Qed.

Lemma has_fence_trim_end (s : string) :
  has_fence s = false → has_fence (trim_end s) = false.
Proof.
  induction s as [|c r IH]; [done|]. intros Hs.
  pose proof (strip_literal_trim_end (String c r)) as Hstart.
  rewrite has_fence_unfold in Hs.
  destruct (strip_literal fence (String c r)) eqn:E; [done|].
  specialize (IH Hs). specialize (Hstart eq_refl).
  rewrite has_fence_unfold, Hstart. simpl.
  destruct (trim_end r) eqn:Er; [by destruct (JS.is_white_space c)|done].
Qed.

(** X27.  No Markdown fence is handed to [JSON.parse]: whatever the answer,
    the cleaned text holds no run of three backticks. *)
Theorem cleanText_no_fence (textContent : string) :
  has_fence (cleanText textContent) = false.
Proof.
  unfold cleanText, trim.
  apply has_fence_trim_end, has_fence_skip_white_space, remove_all_no_fence.
Qed.
